(** * RecBole: the negative sampler and the FISSA scoring path

    A shallow embedding of [recbox/sampler/sampler.py] (class [Sampler]) and of
    the scoring path of [recbole/model/sequential_recommender/fissa.py]
    (class [FISSA]), with the properties their specification states.

    Python integers are unbounded: item and user ids are [Z], counts and the
    read cursor are [nat].  The dictionary [used_item_id] is a [gmap] keyed by
    phase name, a user's seen items a [gset Z].  Torch tensors of floats are
    nested lists over the real numbers: arithmetic is exact, and a tensor with
    an axis of size 0 is a list of empty lists.  Rounding to [torch.float32]
    appears only as the relation [nearest32] between an exact value and the
    binary32 numbers nearest to it. *)

From Stdlib Require Import ZArith Lia Reals Lra.
From stdpp Require Import gmap strings list pretty.

(** ** Exceptions and outcomes shared by both components *)

(** The texts of the exceptions the two classes raise themselves.  Those of
    the lookup errors and of the loss type are rendered by [format]; the others
    embed the [repr] of Python objects and are kept symbolic. *)
Inductive message : Type :=
  | PhaseNotExist (phase : string)
  | UserIdNotExist (user_id : Z)
  | DistributionShouldIn (distribution : string)
  | DistributionNotImplemented (distribution : string)
  | PhasesDatasetsLength
  | LossTypeNotIn.

Inductive exn : Type :=
  | ValueError (m : message)
  | NotImplementedError (m : message)
  | KeyError
  | IndexError
  | RuntimeError
  | ZeroDivisionError.

(** ['phase [{}] not exist'.format(phase)],
    ['user_id [{}] not exist'.format(user_id)] and the text of line 56 of
    [fissa.py]. *)
Definition format (m : message) : option string :=
  match m with
  | PhaseNotExist phase => Some ("phase [" +:+ phase +:+ "] not exist")
  | UserIdNotExist user_id => Some ("user_id [" +:+ pretty user_id +:+ "] not exist")
  | LossTypeNotIn => Some "Make sure 'loss_type' in ['BPR', 'CE']!"
  | _ => None
  end.

(** A computation that returns, raises or fails. *)
Inductive result (A : Type) : Type :=
  | Ok (a : A)
  | Raise (e : exn).
Arguments Ok {A} a.
Arguments Raise {A} e.

Definition rbind {A B} (r : result A) (k : A -> result B) : result B :=
  match r with
  | Ok a => k a
  | Raise e => Raise e
  end.

#[global] Instance result_bind : MBind result := fun A B k r => rbind r k.
#[global] Instance result_ret : MRet result := fun A a => Ok a.

(** A fallible function over every element, left to right; the first
    exception ends the traversal. *)
Fixpoint traverse {A B} (f : A -> result B) (l : list A) : result (list B) :=
  match l with
  | [] => Ok []
  | a :: l' => b ← f a; r ← traverse f l'; Ok (b :: r)
  end.

Module Sampler.

(** *** Data *)

(** What the sampler reads of a dataset: [user_num], [item_num] and the rows
    of [inter_feat[[uid_field, iid_field]].values]. *)
Record Dataset : Type := {
  user_num : nat;
  item_num : nat;
  inter_feat : list (Z * Z)
}.

(** [inter_feat[iid_field].values] *)
Definition iid_column (d : Dataset) : list Z := (inter_feat d).*2.

(** An argument that is a list or a single value ([isinstance(_, list)]). *)
Inductive one_or_list (A : Type) : Type :=
  | Single (a : A)
  | Listed (l : list A).
Arguments Single {A} a.
Arguments Listed {A} l.

Definition as_list {A} (x : one_or_list A) : list A :=
  match x with
  | Single a => [a]
  | Listed l => l
  end.

(** [random.shuffle]: some permutation of its argument. *)
Record Shuffler : Type := {
  shuffle : list Z -> list Z;
  shuffle_perm : forall l, shuffle l ≡ₚ l
}.

(** The object's fields that the methods read or write. *)
Record t : Type := {
  phases : list string;
  n_users : nat;
  n_items : nat;
  random_item_list : list Z;
  random_pr : nat;
  random_item_list_length : nat;
  used_item_id : gmap string (list (gset Z))
}.

Definition set_random_pr (s : t) (pr : nat) : t :=
  {| phases := phases s; n_users := n_users s; n_items := n_items s;
     random_item_list := random_item_list s; random_pr := pr;
     random_item_list_length := random_item_list_length s;
     used_item_id := used_item_id s |}.

(** *** NumPy indexing *)

(** An index [i] into an axis of length [n]: negative indices count from the
    end, anything outside [-n, n) is an [IndexError]. *)
Definition np_index (n : nat) (i : Z) : option nat :=
  if decide (0 <= i < Z.of_nat n)%Z then Some (Z.to_nat i)
  else if decide (- Z.of_nat n <= i < 0)%Z then Some (Z.to_nat (i + Z.of_nat n))
  else None.

(** [arr[i]] *)
Definition np_getitem {A} (arr : list A) (i : Z) : result A :=
  match np_index (length arr) i ≫= (arr !!.) with
  | Some a => Ok a
  | None => Raise IndexError
  end.

(** [arr[ids]] for a list of indices: one [IndexError] for the whole lookup. *)
Fixpoint np_take {A} (arr : list A) (ids : list Z) : result (list A) :=
  match ids with
  | [] => Ok []
  | i :: ids' =>
      rbind (np_getitem arr i) (fun a =>
      rbind (np_take arr ids') (fun r => Ok (a :: r)))
  end.

(** [np.repeat(xs, num)]: every element [num] times, in place. *)
Definition np_repeat {A} (xs : list A) (num : nat) : list A :=
  xs ≫= replicate num.

(** *** Construction *)

Definition legal_distribution (distribution : string) : bool :=
  bool_decide (distribution = "uniform") || bool_decide (distribution = "popularity").

(** Lines 38-45: the pool as it is handed to [random.shuffle]. *)
Definition build_pool (distribution : string) (n_items : nat) (datasets : list Dataset)
  : result (list Z) :=
  if decide (distribution = "uniform") then Ok (Z.of_nat <$> seq 0 n_items)
  else if decide (distribution = "popularity") then Ok (concat (iid_column <$> datasets))
  else Raise (NotImplementedError (DistributionNotImplemented distribution)).

(** [cur[uid].add(iid)] *)
Definition add_inter (cur : list (gset Z)) (row : Z * Z) : result (list (gset Z)) :=
  match np_index (length cur) row.1 with
  | Some k => Ok (alter (fun seen => seen ∪ {[ row.2 ]}) k cur)
  | None => Raise IndexError
  end.

(** The inner loop of lines 55-56. *)
Fixpoint add_inters (cur : list (gset Z)) (rows : list (Z * Z)) : result (list (gset Z)) :=
  match rows with
  | [] => Ok cur
  | row :: rows' => rbind (add_inter cur row) (fun cur' => add_inters cur' rows')
  end.

(** The loop of lines 53-57 over [zip(phases, datasets)].  [cur] starts as a
    copy of [last], so the stored rows of earlier phases are never touched. *)
Fixpoint accumulate (used : gmap string (list (gset Z))) (last : list (gset Z))
    (pds : list (string * Dataset)) : result (gmap string (list (gset Z))) :=
  match pds with
  | [] => Ok used
  | (phase, dataset) :: pds' =>
      rbind (add_inters last (inter_feat dataset)) (fun cur =>
      accumulate (<[phase := cur]> used) cur pds')
  end.

(** [Sampler.__init__] *)
Definition init (rng : Shuffler) (phases0 : one_or_list string)
    (datasets0 : one_or_list Dataset) (distribution : string) : result t :=
  if negb (legal_distribution distribution)
  then Raise (ValueError (DistributionShouldIn distribution))
  else
    let phases := as_list phases0 in
    let datasets := as_list datasets0 in
    if negb (bool_decide (length phases = length datasets))
    then Raise (ValueError PhasesDatasetsLength)
    else
      match datasets with
      | [] => Raise IndexError
      | d0 :: _ =>
          let n_users := user_num d0 in
          let n_items := item_num d0 in
          rbind (build_pool distribution n_items datasets) (fun pool =>
          let pool := shuffle rng pool in
          rbind (accumulate ∅ (replicate n_users ∅) (zip phases datasets)) (fun used =>
          Ok {| phases := phases; n_users := n_users; n_items := n_items;
                random_item_list := pool; random_pr := 0;
                random_item_list_length := length pool;
                used_item_id := used |}))
      end.

(** *** Sampling *)

(** How a call that may loop ends: with a value, with an exception, or never
    (the fuel ran out).  The object's state is kept in the first two. *)
Inductive outcome (A : Type) : Type :=
  | Returned (a : A) (s : t)
  | Raised (e : exn) (s : t)
  | Diverged.
Arguments Returned {A} a s.
Arguments Raised {A} e s.
Arguments Diverged {A}.

(** [Sampler.random_item] *)
Definition random_item (s : t) : outcome Z :=
  if decide (random_item_list_length s = 0) then Raised ZeroDivisionError s
  else
    match random_item_list s !! (random_pr s mod random_item_list_length s) with
    | Some item => Returned item (set_random_pr s (S (random_pr s)))
    | None => Raised IndexError s
    end.

(** [while cur in used_item_id: cur = self.random_item()]; [fuel] bounds the
    number of iterations. *)
Fixpoint resample (fuel : nat) (used : gset Z) (cur : Z) (s : t) : outcome Z :=
  if decide (cur ∈ used) then
    match fuel with
    | 0 => Diverged
    | S fuel' =>
        match random_item s with
        | Returned cur' s' => resample fuel' used cur' s'
        | Raised e s' => Raised e s'
        | Diverged => Diverged
        end
    end
  else Returned cur s.

(** One turn of the [for] loop: lines 71-73. *)
Definition draw_unseen (fuel : nat) (used : gset Z) (s : t) : outcome Z :=
  match random_item s with
  | Returned cur s' => resample fuel used cur s'
  | Raised e s' => Raised e s'
  | Diverged => Diverged
  end.

(** The [for] loop of lines 70-74; the filled prefix of [neg_item_id] is the
    list returned ([neg_item_id] has exactly one slot per iteration). *)
Fixpoint fill (fuel : nat) (used_item_id_list : list (gset Z)) (s : t) : outcome (list Z) :=
  match used_item_id_list with
  | [] => Returned [] s
  | used :: rest =>
      match draw_unseen fuel used s with
      | Returned cur s' =>
          match fill fuel rest s' with
          | Returned r s'' => Returned (cur :: r) s''
          | Raised e s'' => Raised e s''
          | Diverged => Diverged
          end
      | Raised e s' => Raised e s'
      | Diverged => Diverged
      end
  end.

(** The [except IndexError] handler: the first id outside [0, n_users). *)
Fixpoint first_bad_user (n_users : nat) (user_ids : list Z) : option Z :=
  match user_ids with
  | [] => None
  | user_id :: rest =>
      if decide (user_id < 0 \/ user_id >= Z.of_nat n_users)%Z then Some user_id
      else first_bad_user n_users rest
  end.

(** The [try] block of [sample_by_user_ids], lines 66-75.  [num] is a count:
    a negative one is rejected by [np.zeros] before anything is looked up. *)
Definition sample_body (fuel : nat) (s : t) (phase : string)
    (user_ids : list Z) (num : nat) : outcome (list Z) :=
  match used_item_id s !! phase with
  | None => Raised KeyError s
  | Some rows =>
      match np_take rows user_ids with
      | Raise e => Raised e s
      | Ok picked => fill fuel (np_repeat picked num) s
      end
  end.

(** [Sampler.sample_by_user_ids]: the body under its two handlers.  [None] is
    Python's [None], returned when a handler finds nothing to report. *)
Definition sample_by_user_ids (fuel : nat) (s : t) (phase : string)
    (user_ids : list Z) (num : nat) : outcome (option (list Z)) :=
  match sample_body fuel s phase user_ids num with
  | Returned neg_item_id s' => Returned (Some neg_item_id) s'
  | Raised KeyError s' =>
      if decide (phase ∈ phases s') then Returned None s'
      else Raised (ValueError (PhaseNotExist phase)) s'
  | Raised IndexError s' =>
      match first_bad_user (n_users s') user_ids with
      | Some user_id => Raised (ValueError (UserIdNotExist user_id)) s'
      | None => Returned None s'
      end
  | Raised e s' => Raised e s'
  | Diverged => Diverged
  end.


(** *** The state between calls *)

(** Construction fixes everything but the cursor: the recorded length is the
    pool's, every declared phase has its rows, one per user. *)
Record wf (s : t) : Prop := {
  wf_length : random_item_list_length s = length (random_item_list s);
  wf_phases : forall phase, is_Some (used_item_id s !! phase) <-> phase ∈ phases s;
  wf_rows : forall phase rows, used_item_id s !! phase = Some rows -> length rows = n_users s
}.

(** The cumulative seen set of [user_id] in [phase] (empty when either is not
    there). *)
Definition seen (s : t) (phase : string) (user_id : Z) : gset Z :=
  default ∅ (used_item_id s !! phase ≫= (.!! Z.to_nat user_id)).

(** The rows of a dataset that belong to user [u], and the union of these over
    the datasets of phases [0..k]: the specification's cumulative set. *)
Definition interacted (d : Dataset) (u : nat) : gset Z :=
  list_to_set ((filter (fun row => row.1 = Z.of_nat u) (inter_feat d)).*2).

Definition interacted_upto (datasets : list Dataset) (k u : nat) : gset Z :=
  ⋃ ((fun d => interacted d u) <$> take (S k) datasets).

(** Valid user ids in every row. *)
Definition rows_valid (n_users : nat) (d : Dataset) : Prop :=
  Forall (fun row : Z * Z => (0 <= row.1 < Z.of_nat n_users)%Z) (inter_feat d).

(** Valid item ids in every row: the items of a dataset are numbered from 0
    up to its [item_num]. *)
Definition items_valid (n_items : nat) (d : Dataset) : Prop :=
  Forall (fun row : Z * Z => (0 <= row.2 < Z.of_nat n_items)%Z) (inter_feat d).

(** The state an outcome leaves the object in. *)
Definition final {A} (o : outcome A) : option t :=
  match o with
  | Returned _ s => Some s
  | Raised _ s => Some s
  | Diverged => None
  end.

(** The states of a sampler's lifetime: what the two methods make of the
    constructed object. *)
Inductive reachable (s0 : t) : t -> Prop :=
  | reach_constructed : reachable s0 s0
  | reach_random_item s s' :
      reachable s0 s -> final (random_item s) = Some s' -> reachable s0 s'
  | reach_sample_by_user_ids s s' fuel phase user_ids num :
      reachable s0 s ->
      final (sample_by_user_ids fuel s phase user_ids num) = Some s' ->
      reachable s0 s'.

(** *** Concrete samplers *)

(** A shuffle that leaves the list as it is: one of the permutations
    [random.shuffle] may pick. *)
Definition identity_shuffle : Shuffler :=
  {| shuffle := fun l => l; shuffle_perm := fun l => Permutation_refl l |}.

(** The specification's scenario: five items, two users, user 0 has
    interacted with items 1 and 2 in phase "train". *)
Definition scenario_train : Dataset :=
  {| user_num := 2; item_num := 5; inter_feat := [(0, 1); (0, 2)]%Z |}.

Definition scenario : result t :=
  init identity_shuffle (Single "train") (Single scenario_train) "uniform".

(** The scenario with a second phase "valid", in which user 0 has interacted
    with item 3. *)
Definition scenario_valid : Dataset :=
  {| user_num := 2; item_num := 5; inter_feat := [(0, 3)]%Z |}.

Definition two_phases : result t :=
  init identity_shuffle (Listed ["train"; "valid"])
    (Listed [scenario_train; scenario_valid]) "uniform".

(** Three datasets declared under the phase names "a", "b", "a". *)
Definition one_row (iid : Z) : Dataset :=
  {| user_num := 1; item_num := 4; inter_feat := [(0%Z, iid)] |}.

Definition repeated_phase : result t :=
  init identity_shuffle (Listed ["a"; "b"; "a"])
    (Listed [one_row 1; one_row 2; one_row 3]) "uniform".

(** A sampler whose only user has seen the whole pool, and one with an empty
    pool. *)
Definition all_seen : result t :=
  init identity_shuffle (Single "train")
    (Single {| user_num := 1; item_num := 2; inter_feat := [(0, 0); (0, 1)]%Z |}) "uniform".

Definition empty_pool : result t :=
  init identity_shuffle (Single "train")
    (Single {| user_num := 1; item_num := 0; inter_feat := [] |}) "uniform".

(** Two states that differ in the cursor at most. *)
Definition same_but_pr (s s' : t) : Prop := exists pr, s' = set_random_pr s pr.

(** *** Notions used to state how calls behave *)

(** The index that NumPy reads for a user id of [-n_users, n_users). *)
Definition wrapped (n_users : nat) (user_id : Z) : Z :=
  if decide (user_id < 0)%Z then (user_id + Z.of_nat n_users)%Z else user_id.

(** An outcome whose cursor is [k] entries further. *)
Definition advance {A} (k : nat) (o : outcome A) : outcome A :=
  match o with
  | Returned a s => Returned a (set_random_pr s (random_pr s + k))
  | Raised e s => Raised e (set_random_pr s (random_pr s + k))
  | Diverged => Diverged
  end.

(** The pool entry that the cursor value [pr] reads. *)
Definition entry_at (s : t) (pr : nat) : option Z :=
  random_item_list s !! (pr mod length (random_item_list s)).

(** The pool entries read while the cursor goes from [from] to [to]. *)
Definition consumed (s : t) (from to : nat) : list Z :=
  omap (entry_at s) (seq from (to - from)).

(** A dataset whose rows NumPy can index with [n_users] users: user ids in
    [-n_users, n_users). *)
Definition rows_indexable (n_users : nat) (d : Dataset) : Prop :=
  Forall (fun row : Z * Z => (- Z.of_nat n_users <= row.1 < Z.of_nat n_users)%Z)
    (inter_feat d).

(** A sampler under the popularity distribution: item 3 was interacted with
    twice, item 4 once. *)
Definition popular_train : Dataset :=
  {| user_num := 2; item_num := 5; inter_feat := [(0, 3); (1, 3); (1, 4)]%Z |}.

Definition popular : result t :=
  init identity_shuffle (Single "train") (Single popular_train) "popularity".

End Sampler.

Module FISSA.

#[local] Open Scope R_scope.

(** *** Tensors *)

(** Float tensors of rank 1 to 4, as nested lists of reals. *)
Abbreviation vec := (list R).
Abbreviation mat := (list (list R)).
Abbreviation tensor3 := (list (list (list R))).
Abbreviation tensor4 := (list (list (list (list R)))).

(** [t.size(1)] of a rectangular tensor of rank at least 2. *)
Definition size1 {A} (t : list (list A)) : nat :=
  match t with
  | [] => 0
  | row :: _ => length row
  end.

(** [torch.sum(v, dim=-1)] on the last axis. *)
Definition sum (v : vec) : R := foldr Rplus 0 v.

(** Elementwise sum and product of two vectors. *)
Definition vadd (u v : vec) : vec := zip_with Rplus u v.
Definition vmul (u v : vec) : vec := zip_with Rmult u v.

(** [torch.matmul(e, W)] for a vector [e] and a matrix [W] with [cols]
    columns, and [torch.matmul(e, q)] for two vectors. *)
Definition vecmat (cols : nat) (e : vec) (W : mat) : vec :=
  foldr vadd (replicate cols 0) (zip_with (fun ei row => Rmult ei <$> row) e W).

Definition dot (u v : vec) : R := sum (vmul u v).

(** [torch.nn.Sigmoid] and [F.softmax] over one axis. *)
Definition sigmoid (x : R) : R := 1 / (1 + exp (- x)).

Definition softmax (v : vec) : vec :=
  let e := exp <$> v in (fun x => x / sum e) <$> e.

(** [nn.LayerNorm] over the last axis. *)
Definition mean (v : vec) : R := sum v / INR (length v).

Definition layer_norm (weight bias : vec) (eps : R) (v : vec) : vec :=
  let mu := mean v in
  let var := mean ((fun x => (x - mu) * (x - mu)) <$> v) in
  vadd (vmul ((fun x => (x - mu) / sqrt (var + eps)) <$> v) weight) bias.

(** An elementwise operation of two tensors along one axis, with broadcasting:
    the two sizes are equal, or one of them is 1 and its only entry meets
    every entry of the other; any other pair of sizes is rejected by the
    tensor runtime with a [RuntimeError].  [f] is the operation on the
    entries, itself elementwise on the axes below. *)
Definition broadcast {A B C} (f : A -> B -> result C) (l : list A) (k : list B)
  : result (list C) :=
  if decide (length l = length k) then traverse (fun p => f p.1 p.2) (zip l k)
  else
    match l, k with
    | [a], _ => traverse (f a) k
    | _, [b] => traverse (fun a => f a b) l
    | _, _ => Raise RuntimeError
    end.

(** [a * b] and [a + b] for two tensors of rank 3. *)
Definition tmul (a b : tensor3) : result tensor3 :=
  broadcast (broadcast (broadcast (fun x y => Ok (x * y)))) a b.

Definition tadd (a b : tensor3) : result tensor3 :=
  broadcast (broadcast (broadcast (fun x y => Ok (x + y)))) a b.

(** [torch.cat((a, b), 1)] for two tensors of rank 2, and
    [torch.cat((a, b), 2)] for two tensors of rank 3: the sizes of the other
    axes must agree, or the runtime raises a [RuntimeError]. *)
Definition cat_dim1 (a b : mat) : result mat :=
  if decide (length a = length b) then Ok (zip_with app a b) else Raise RuntimeError.

Definition cat_dim2 (a b : tensor3) : result tensor3 :=
  if decide (length a = length b) then traverse (fun p => cat_dim1 p.1 p.2) (zip a b)
  else Raise RuntimeError.

(** [nn.Embedding]: row [i] of the table; an index outside the table is an
    [IndexError]. *)
Definition embedding (weight : mat) (i : Z) : result vec :=
  if decide (0 <= i)%Z then
    match weight !! Z.to_nat i with
    | Some row => Ok row
    | None => Raise IndexError
    end
  else Raise IndexError.

(** *** The model *)

Inductive loss : Type :=
  | BPRLoss
  | CrossEntropyLoss.

(** The entries of [config] and [dataset] that [__init__] reads. *)
Record Config : Type := {
  loss_type : string;
  n_layers : nat;
  n_heads : nat;
  hidden_size : nat;
  inner_size : nat;
  hidden_dropout_prob : R;
  attn_dropout_prob : R;
  hidden_act : string;
  layer_norm_eps : R;
  initializer_range : R;
  MAX_ITEM_LIST_LENGTH : nat;
  item_num : nat;
  user_num : nat
}.

(** What construction takes from outside this file: the values drawn for the
    parameters ([np.random.normal], [xavier_normal_], the default
    initialisation of [nn.Linear]), the masks the two dropout layers apply in
    training mode, and the encoder stack built by
    [recbole.model.layers.TransformerEncoder], a function of the input
    embeddings and the additive mask that returns every layer's output. *)
Record Externals : Type := {
  normal : nat -> nat -> mat;
  normal1 : nat -> vec;
  xavier_normal : nat -> nat -> mat;
  linear_weight : nat -> vec;
  linear_bias : R;
  dropout_train : tensor3 -> tensor3;
  d1_train : mat -> mat;
  TransformerEncoder : Config -> tensor3 -> tensor4 -> list tensor3
}.

(** The attributes of a constructed model. *)
Record t : Type := {
  n_items : nat;
  max_seq_length : nat;
  self_loss_type : string;
  loss_fct : loss;
  D : nat;
  w1 : mat;
  w2 : mat;
  q_s : vec;
  gating_lr_weight : vec;
  gating_lr_bias : R;
  item_embedding : mat;
  position_embedding : mat;
  LayerNorm_weight : vec;
  LayerNorm_bias : vec;
  LayerNorm_eps : R;
  training : bool;
  dropout_mask : tensor3 -> tensor3;
  d1_mask : mat -> mat;
  trm_encoder : tensor3 -> tensor4 -> list tensor3
}.

(** [FISSA.__init__], lines 51-84; the model starts in training mode, as every
    [nn.Module] does. *)
Definition init (ext : Externals) (config : Config) : result t :=
  loss_fct ←
    (if decide (loss_type config = "BPR") then Ok BPRLoss
     else if decide (loss_type config = "CE") then Ok CrossEntropyLoss
     else Raise (NotImplementedError LossTypeNotIn));
  let D := hidden_size config in
  Ok {| n_items := item_num config;
        max_seq_length := MAX_ITEM_LIST_LENGTH config;
        self_loss_type := loss_type config;
        loss_fct := loss_fct;
        D := D;
        w1 := normal ext D D;
        w2 := normal ext D D;
        q_s := normal1 ext D;
        gating_lr_weight := linear_weight ext (D * 3);
        gating_lr_bias := linear_bias ext;
        item_embedding := xavier_normal ext (item_num config) D;
        position_embedding := xavier_normal ext (MAX_ITEM_LIST_LENGTH config + 1) D;
        LayerNorm_weight := replicate (hidden_size config) 1;
        LayerNorm_bias := replicate (hidden_size config) 0;
        LayerNorm_eps := layer_norm_eps config;
        training := true;
        dropout_mask := dropout_train ext;
        d1_mask := d1_train ext;
        trm_encoder := TransformerEncoder ext config |}.

(** [model.eval()] and [model.train()] *)
Definition set_training (m : t) (mode : bool) : t :=
  {| n_items := n_items m; max_seq_length := max_seq_length m;
     self_loss_type := self_loss_type m; loss_fct := loss_fct m; D := D m;
     w1 := w1 m; w2 := w2 m; q_s := q_s m;
     gating_lr_weight := gating_lr_weight m; gating_lr_bias := gating_lr_bias m;
     item_embedding := item_embedding m; position_embedding := position_embedding m;
     LayerNorm_weight := LayerNorm_weight m; LayerNorm_bias := LayerNorm_bias m;
     LayerNorm_eps := LayerNorm_eps m; training := mode;
     dropout_mask := dropout_mask m; d1_mask := d1_mask m;
     trm_encoder := trm_encoder m |}.

(** [self.dropout] and [self.d1]: the identity in evaluation mode. *)
Definition dropout (m : t) (x : tensor3) : tensor3 :=
  if training m then dropout_mask m x else x.

Definition d1 (m : t) (x : mat) : mat :=
  if training m then d1_mask m x else x.

(** [self.gating_lr]: a linear layer with one output feature.  An input whose
    last axis has not the size of the weight is rejected with a
    [RuntimeError]. *)
Definition gating_lr (m : t) (input : vec) : result R :=
  if decide (length input = length (gating_lr_weight m))
  then Ok (dot (gating_lr_weight m) input + gating_lr_bias m)
  else Raise RuntimeError.

(** The fields of an interaction batch. *)
Record Interaction : Type := {
  ITEM_SEQ : list (list Z);
  ITEM_SEQ_LEN : list Z;
  ITEM_ID : list Z
}.

(** Modelled from the spec: [SequentialRecommender.gather_indexes], which is
    defined in [recbole.model.abstract_recommender] and gathers, per example,
    the row at the given index (here [item_seq_len - 1]); an index outside the
    rows, or more indices than examples, is rejected by the tensor runtime. *)
Definition gather_indexes (output : tensor3) (gather_index : list Z) : result mat :=
  if decide (length gather_index <= length output)%nat then
    traverse (fun '(rows, i) =>
                if decide (0 <= i)%Z then
                  match rows !! Z.to_nat i with
                  | Some row => Ok row
                  | None => Raise RuntimeError
                  end
                else Raise RuntimeError)
             (zip output gather_index)
  else Raise RuntimeError.

(** *** Methods *)

(** [FISSA.get_attention_mask] *)
Definition get_attention_mask (item_seq : list (list Z)) : tensor4 :=
  let attention_mask : list (list Z) :=
    fmap (M := list) (fun id : Z => if decide (id > 0)%Z then 1%Z else 0%Z) <$> item_seq in
  let extended_attention_mask : list (list (list (list Z))) :=
    (fun row => [[row]]) <$> attention_mask in
  let extended_attention_mask : tensor4 :=
    fmap (M := list) (fmap (M := list) (fmap (M := list) IZR)) <$> extended_attention_mask in
  fmap (M := list) (fmap (M := list) (fmap (M := list) (fun v => (1 - v) * - 10000)))
    <$> extended_attention_mask.

(** Reading a tensor at an index, along an axis that may have size 1
    (broadcasting), and the additive bias that the attention score of head
    [h], query position [i] and key position [j] of example [b] receives. *)
Definition bget {A} (l : list A) (i : nat) : option A :=
  match l with
  | [x] => Some x
  | _ => l !! i
  end.

Definition mask_at (mask : tensor4) (b h i j : nat) : option R :=
  match mask !! b with
  | Some per_head =>
      match bget per_head h with
      | Some per_query =>
          match bget per_query i with
          | Some per_key => per_key !! j
          | None => None
          end
      | None => None
      end
  | None => None
  end.

(** [FISSA.forward] *)
Definition forward (m : t) (item_seq : list (list Z)) (item_seq_len : list Z)
  : result (mat * mat) :=
  item_emb ← traverse (traverse (embedding (item_embedding m))) item_seq;
  let position_ids : list (list Z) :=
    (fun _ => Z.of_nat <$> seq 0 (size1 item_seq)) <$> item_seq in
  position_emb ← traverse (traverse (embedding (position_embedding m))) position_ids;
  let input_emb := zip_with (zip_with vadd) item_emb position_emb in
  let input_emb :=
    fmap (M := list)
      (layer_norm (LayerNorm_weight m) (LayerNorm_bias m) (LayerNorm_eps m)) <$> input_emb in
  let input_emb := dropout m input_emb in
  let extended_attention_mask := get_attention_mask item_seq in
  let trm_output := trm_encoder m input_emb extended_attention_mask in
  x_l ← (match last trm_output with Some x => Ok x | None => Raise IndexError end);
  x_l ← gather_indexes x_l ((fun l => l - 1)%Z <$> item_seq_len);
  let x := fmap (M := list) (fun e => vecmat (D m) e (w1 m)) <$> item_emb in
  let x := fmap (M := list) (fun r => dot r (q_s m)) <$> x in
  let a := softmax <$> x in
  let x := fmap (M := list) (fun e => vecmat (D m) e (w2 m)) <$> item_emb in
  let y := zip_with (zip_with (fun a_n row => vmul (replicate (D m) a_n) row)) a x in
  let y := d1 m (foldr vadd (replicate (D m) 0) <$> y) in
  Ok (x_l, y).

(** [FISSA.cal_final] *)
Definition cal_final (m : t) (seq_x seq_y last_embedding : mat)
    (candidates_embedding : tensor3) : result tensor3 :=
  let C := size1 candidates_embedding in
  isg_input ← cat_dim1 last_embedding seq_y;
  let isg_input : tensor3 := replicate C <$> isg_input in
  isg_input ← cat_dim2 isg_input candidates_embedding;
  g ← traverse (traverse (fun v => z ← gating_lr m v; Ok [sigmoid z])) isg_input;
  let seq_x_can : tensor3 := replicate C <$> seq_x in
  let seq_y_can : tensor3 := replicate C <$> seq_y in
  seq_x_g ← tmul seq_x_can g;
  let one_minus_g : tensor3 :=
    fmap (M := list) (fmap (M := list) (fun v => 1 - v)) <$> g in
  seq_y_g ← tmul seq_y_can one_minus_g;
  tadd seq_x_g seq_y_g.

(** [torch.sum(seq_output * emb, dim=-1)] *)
Definition scores_of (seq_output emb : tensor3) : result mat :=
  prod ← tmul seq_output emb;
  Ok (fmap (M := list) (fmap (M := list) sum) prod).

(** [FISSA.predict] *)
Definition predict (m : t) (interaction : Interaction) : result mat :=
  let item_seq := ITEM_SEQ interaction in
  let item_seq_len := ITEM_SEQ_LEN interaction in
  e ← traverse (traverse (embedding (item_embedding m))) item_seq;
  last_item_emb ← gather_indexes e ((fun l => l - 1)%Z <$> item_seq_len);
  let test_item := ITEM_ID interaction in
  xy ← forward m item_seq item_seq_len;
  test_item_emb ← traverse (embedding (item_embedding m)) test_item;
  let test_item_emb : tensor3 := (fun row => [row]) <$> test_item_emb in
  seq_output ← cal_final m xy.1 xy.2 last_item_emb test_item_emb;
  scores_of seq_output test_item_emb.

(** [FISSA.full_sort_predict] *)
Definition full_sort_predict (m : t) (interaction : Interaction) : result mat :=
  let item_seq := ITEM_SEQ interaction in
  let item_seq_len := ITEM_SEQ_LEN interaction in
  e ← traverse (traverse (embedding (item_embedding m))) item_seq;
  last_item_emb ← gather_indexes e ((fun l => l - 1)%Z <$> item_seq_len);
  xy ← forward m item_seq item_seq_len;
  let test_items_emb := item_embedding m in
  let test_items_emb_can : tensor3 := replicate (length xy.1) test_items_emb in
  seq_output ← cal_final m xy.1 xy.2 last_item_emb test_items_emb_can;
  scores_of seq_output test_items_emb_can.

(** *** Shapes *)

Definition shape2 (B Dm : nat) (x : mat) : Prop :=
  length x = B /\ Forall (fun row => length row = Dm) x.

Definition shape3 (B C Dm : nat) (x : tensor3) : Prop :=
  length x = B /\ Forall (shape2 C Dm) x.

(** *** What the fusion returns *)

(** Two sizes that broadcasting accepts on one axis, and the entries of the
    result of an operation [h] that cannot fail. *)
Definition compatible (a b : nat) : Prop := a = b \/ a = 1%nat \/ b = 1%nat.

Definition bzip {A B C} (h : A -> B -> C) (l : list A) (k : list B) : list C :=
  if decide (length l = length k) then zip_with h l k
  else
    match l, k with
    | [a], _ => h a <$> k
    | _, [b] => (fun a => h a b) <$> l
    | _, _ => []
    end.

(** For one example and one candidate: the gate of the candidate, the fused
    vector and the score, and the sizes under which [cal_final] and the
    scoring accept them. *)
Definition gate (m : t) (last y cand : vec) : R :=
  sigmoid (dot (gating_lr_weight m) ((last ++ y) ++ cand) + gating_lr_bias m).

Definition fuse (m : t) (x y last cand : vec) : vec :=
  bzip Rplus ((fun xd => xd * gate m last y cand) <$> x)
             ((fun yd => yd * (1 - gate m last y cand)) <$> y).

Definition score (m : t) (x y last cand : vec) : R :=
  sum (bzip Rmult (fuse m x y last cand) cand).

Definition fusable (m : t) (x y last cand : vec) : Prop :=
  length ((last ++ y) ++ cand) = length (gating_lr_weight m) /\
  compatible (length x) (length y).

Definition scorable (m : t) (x y last cand : vec) : Prop :=
  compatible (length (fuse m x y last cand)) (length cand).

(** For a batch: the tensor [cal_final] returns when it returns, and the
    score matrix. *)
Definition fused (m : t) (seq_x seq_y last_embedding : mat) (candidates_embedding : tensor3)
  : tensor3 :=
  zip_with (fun xyl cs => fuse m xyl.1.1 xyl.1.2 xyl.2 <$> cs)
    (zip (zip seq_x seq_y) last_embedding) candidates_embedding.

Definition scored (m : t) (seq_x seq_y last_embedding : mat) (candidates_embedding : tensor3)
  : mat :=
  zip_with (fun xyl cs => score m xyl.1.1 xyl.1.2 xyl.2 <$> cs)
    (zip (zip seq_x seq_y) last_embedding) candidates_embedding.

(** *** Rounding to [torch.float32] *)

(** The finite numbers of IEEE 754 binary32, [m * 2^e] with [|m| < 2^24] and
    [-149 <= e <= 104], and the relation between an exact value [x] and a
    binary32 number nearest to it: what rounding to nearest returns. *)
Definition float32 (x : R) : Prop :=
  exists m e : Z, (Z.abs m < 2 ^ 24)%Z /\ (-149 <= e <= 104)%Z /\ x = IZR m * powerRZ 2 e.

Definition nearest32 (x f : R) : Prop :=
  float32 f /\ forall f', float32 f' -> Rabs (f - x) <= Rabs (f' - x).

(** *** A concrete model *)

(** Parameter values, and a stack standing for the encoder that returns its
    input as its only layer; only the shapes matter where it is used. *)
Definition tiny_externals : Externals :=
  {| normal := fun rows cols => replicate rows (replicate cols 0);
     normal1 := fun n => replicate n 0;
     xavier_normal := fun rows cols => replicate rows (replicate cols 1);
     linear_weight := fun n => replicate n 0;
     linear_bias := 0;
     dropout_train := fun x => x;
     d1_train := fun x => x;
     TransformerEncoder := fun _ input_emb _ => [input_emb] |}.

Definition tiny_config (loss_type : string) : Config :=
  {| loss_type := loss_type; n_layers := 1; n_heads := 1; hidden_size := 1;
     inner_size := 1; hidden_dropout_prob := 0; attn_dropout_prob := 0;
     hidden_act := "gelu"; layer_norm_eps := 1; initializer_range := 1;
     MAX_ITEM_LIST_LENGTH := 1; item_num := 2; user_num := 1 |}.

Definition tiny_model : result t :=
  m ← init tiny_externals (tiny_config "BPR"); Ok (set_training m false).

Definition tiny_batch : Interaction :=
  {| ITEM_SEQ := [[1%Z]]; ITEM_SEQ_LEN := [1%Z]; ITEM_ID := [1%Z] |}.

(** A batch the model accepts: item ids that are rows of the embedding table,
    sequences of one length [L] that the position table covers, and one true
    length in [1, L] per sequence. *)
Definition valid_batch (m : t) (interaction : Interaction) : Prop :=
  let item_seq := ITEM_SEQ interaction in
  Forall (Forall (fun i => (0 <= i < Z.of_nat (length (item_embedding m)))%Z)) item_seq /\
  Forall (fun row => length row = size1 item_seq) item_seq /\
  (size1 item_seq <= length (position_embedding m))%nat /\
  length (ITEM_SEQ_LEN interaction) = length item_seq /\
  Forall (fun l => (1 <= l <= Z.of_nat (size1 item_seq))%Z) (ITEM_SEQ_LEN interaction).

(** What is expected of the encoder stack: at least one layer, and a last
    layer with one row per position of its input. *)
Definition encoder_keeps_shape (m : t) : Prop :=
  forall input_emb mask, exists layer,
    last (trm_encoder m input_emb mask) = Some layer /\
    Forall2 (fun out inp : mat => length out = length inp) layer input_emb.

(** The shapes that construction gives the parameters the scoring path reads,
    with [D] the hidden size: rows of width [D] in the two embedding tables
    and in the second projection, [D] weights and biases in the layer
    normalisation, and a gate over inputs of width [3 D]. *)
Definition well_shaped (m : t) : Prop :=
  Forall (fun row => length row = D m) (item_embedding m) /\
  Forall (fun row => length row = D m) (position_embedding m) /\
  length (LayerNorm_weight m) = D m /\
  length (LayerNorm_bias m) = D m /\
  Forall (fun row => length row = D m) (w2 m) /\
  length (gating_lr_weight m) = (3 * D m)%nat.

(** Initialisers that return tensors of the shapes they are asked for, as
    those of NumPy and Torch do. *)
Definition initialisers_keep_shape (ext : Externals) : Prop :=
  (forall rows cols, shape2 rows cols (normal ext rows cols)) /\
  (forall rows cols, shape2 rows cols (xavier_normal ext rows cols)) /\
  (forall n, length (normal1 ext n) = n) /\
  (forall n, length (linear_weight ext n) = n).

(** And of the encoder stack: on embeddings of width [D], a last layer of
    vectors of width [D]. *)
Definition encoder_keeps_width (m : t) : Prop :=
  forall input_emb mask layer,
    Forall (Forall (fun v : vec => length v = D m)) input_emb ->
    last (trm_encoder m input_emb mask) = Some layer ->
    Forall (Forall (fun v : vec => length v = D m)) layer.

(** *** Training *)

(** The loss modules are defined outside this file
    ([recbole.model.loss.BPRLoss], [torch.nn.CrossEntropyLoss]): what calling
    [self.loss_fct] returns, on two score tensors and on logits with target
    ids. *)
Record LossModules : Type := {
  call_on_scores : loss -> mat -> mat -> result R;
  call_on_targets : loss -> mat -> list Z -> result R
}.

(** A training batch: the sequences, and the positive and negative items. *)
Record TrainingInteraction : Type := {
  sequences : Interaction;
  POS_ITEM_ID : list Z;
  NEG_ITEM_ID : list Z
}.

(** [FISSA.calculate_loss] *)
Definition calculate_loss (lm : LossModules) (m : t) (interaction : TrainingInteraction)
  : result R :=
  let item_seq := ITEM_SEQ (sequences interaction) in
  let item_seq_len := ITEM_SEQ_LEN (sequences interaction) in
  let pos_items := POS_ITEM_ID interaction in
  xy ← forward m item_seq item_seq_len;
  e ← traverse (traverse (embedding (item_embedding m))) item_seq;
  last_item_emb ← gather_indexes e ((fun l => l - 1)%Z <$> item_seq_len);
  if decide (self_loss_type m = "BPR") then
    let neg_items := NEG_ITEM_ID interaction in
    pos_items_emb ← traverse (embedding (item_embedding m)) pos_items;
    let pos_items_emb : tensor3 := (fun row => [row]) <$> pos_items_emb in
    neg_items_emb ← traverse (embedding (item_embedding m)) neg_items;
    let neg_items_emb : tensor3 := (fun row => [row]) <$> neg_items_emb in
    seq_output_pos ← cal_final m xy.1 xy.2 last_item_emb pos_items_emb;
    seq_output_neg ← cal_final m xy.1 xy.2 last_item_emb neg_items_emb;
    pos_score ← scores_of seq_output_pos pos_items_emb;
    neg_score ← scores_of seq_output_neg neg_items_emb;
    call_on_scores lm (loss_fct m) pos_score neg_score
  else
    let test_item_emb := item_embedding m in
    let test_item_emb_can : tensor3 := replicate (length xy.1) test_item_emb in
    seq_output ← cal_final m xy.1 xy.2 last_item_emb test_item_emb_can;
    logits ← scores_of seq_output test_item_emb_can;
    call_on_targets lm (loss_fct m) logits pos_items.

(** The batch with other test items. *)
Definition with_item_id (interaction : Interaction) (item_id : list Z) : Interaction :=
  {| ITEM_SEQ := ITEM_SEQ interaction; ITEM_SEQ_LEN := ITEM_SEQ_LEN interaction;
     ITEM_ID := item_id |}.

(** *** The item-similarity branch, for one example *)

(** Lines 169-171 of [forward] for the embeddings [es] of one sequence: the
    attention weights over its positions. *)
Definition similarity_weights (m : t) (es : mat) : vec :=
  softmax ((fun r => dot r (q_s m)) <$> ((fun e => vecmat (D m) e (w1 m)) <$> es)).

(** Lines 172-174: the weighted sum of the projected embeddings. *)
Definition similarity_summary (m : t) (es : mat) : vec :=
  foldr vadd (replicate (D m) 0)
    (zip_with (fun a_n row => vmul (replicate (D m) a_n) row)
       (similarity_weights m es) ((fun e => vecmat (D m) e (w2 m)) <$> es)).

(** Loss modules that return the difference of the first scores, and the
    first logit: enough to see which scores they are given. *)
Definition probe_losses : LossModules :=
  {| call_on_scores := fun _ pos neg =>
       Ok (default 0 (head (mjoin pos)) - default 0 (head (mjoin neg)));
     call_on_targets := fun _ logits _ => Ok (default 0 (head (mjoin logits))) |}.

(** A model whose gate has the weights 1, 1, 1 and no bias. *)
Definition steep_externals : Externals :=
  {| normal := fun rows cols => replicate rows (replicate cols 0);
     normal1 := fun n => replicate n 0;
     xavier_normal := fun rows cols => replicate rows (replicate cols 1);
     linear_weight := fun n => replicate n 1;
     linear_bias := 0;
     dropout_train := fun x => x;
     d1_train := fun x => x;
     TransformerEncoder := fun _ input_emb _ => [input_emb] |}.

Definition steep_model : result t :=
  m ← init steep_externals (tiny_config "BPR"); Ok (set_training m false).

(** A batch whose sequence holds item id 2, with a table of two rows. *)
Definition unknown_item_batch : Interaction :=
  {| ITEM_SEQ := [[2%Z]]; ITEM_SEQ_LEN := [1%Z]; ITEM_ID := [1%Z] |}.

Definition tiny_training_batch : TrainingInteraction :=
  {| sequences := tiny_batch; POS_ITEM_ID := [1%Z]; NEG_ITEM_ID := [0%Z] |}.

End FISSA.

(** ** Properties of the sampler *)

Module SamplerSpec.
Import Sampler.

Section SamplerFacts.

Implicit Types (s : t) (used : gset Z) (pool : list Z).

Lemma set_random_pr_wf s pr : wf s -> wf (set_random_pr s pr).
Proof. intros [H1 H2 H3]. by split. Qed.

Lemma np_index_valid n (i : Z) :
  (0 <= i < Z.of_nat n)%Z -> np_index n i = Some (Z.to_nat i).
Proof. intros Hi. unfold np_index. by rewrite decide_True. Qed.

Lemma np_index_lt n i k : np_index n i = Some k -> k < n.
Proof.
  unfold np_index. repeat case_decide; intros [= <-]; lia.
Qed.

Lemma np_index_None n (i : Z) :
  np_index n i = None <-> (i < - Z.of_nat n \/ Z.of_nat n <= i)%Z.
Proof. unfold np_index. repeat case_decide; split; try done; lia. Qed.

Example format_phase : format (PhaseNotExist "valid") = Some "phase [valid] not exist".
Proof. reflexivity. Qed.

Example format_user_id : format (UserIdNotExist (-1)) = Some "user_id [-1] not exist".
Proof. vm_compute. reflexivity. Qed.

(** The cursor visits every position of a non-empty pool within one cycle. *)
Lemma cursor_cycle (len pr j : nat) :
  j < len -> exists k, k < len /\ (pr + k) mod len = j.
Proof.
  intros Hj.
  assert (Hr : pr mod len < len) by (apply Nat.mod_upper_bound; lia).
  pose proof (Nat.div_mod_eq pr len) as Hpr.
  destruct (decide (pr mod len <= j)) as [Hle | Hgt].
  - exists (j - pr mod len). split; [lia |].
    symmetry. apply (Nat.mod_unique _ _ (pr / len)); [done | lia].
  - exists (len - pr mod len + j). split; [lia |].
    symmetry. apply (Nat.mod_unique _ _ (S (pr / len))); [done | lia].
Qed.

Lemma random_item_Returned s pr x :
  random_item_list_length s = length (random_item_list s) ->
  random_item_list s !! (pr mod length (random_item_list s)) = Some x ->
  random_item_list s <> [] ->
  random_item (set_random_pr s pr) = Returned x (set_random_pr s (S pr)).
Proof.
  intros Hlen Hx Hne. unfold random_item. simpl. rewrite Hlen.
  rewrite decide_False; [by rewrite Hx |].
  by destruct (random_item_list s).
Qed.

Lemma random_item_total s pr :
  random_item_list_length s = length (random_item_list s) ->
  random_item_list s <> [] ->
  exists x, random_item_list s !! (pr mod length (random_item_list s)) = Some x /\
            random_item (set_random_pr s pr) = Returned x (set_random_pr s (S pr)).
Proof.
  intros Hlen Hne.
  destruct (lookup_lt_is_Some_2 (random_item_list s) (pr mod length (random_item_list s)))
    as [x Hx].
  { apply Nat.mod_upper_bound. by destruct (random_item_list s). }
  exists x. split; [done |]. by apply random_item_Returned.
Qed.

Lemma random_item_empty s :
  random_item_list_length s = length (random_item_list s) ->
  random_item_list s = [] ->
  random_item s = Raised ZeroDivisionError s.
Proof.
  intros Hlen Hnil. unfold random_item. rewrite Hlen, Hnil. done.
Qed.

(** If an unseen entry lies [k] positions ahead of the cursor, the loop leaves
    after at most [k + 1] further draws. *)
Lemma resample_finds used s k : forall fuel pr cur x,
  random_item_list_length s = length (random_item_list s) ->
  random_item_list s !! ((pr + k) mod length (random_item_list s)) = Some x ->
  x ∉ used ->
  k < fuel ->
  exists item k',
    k' <= S k /\
    resample fuel used cur (set_random_pr s pr) = Returned item (set_random_pr s (pr + k')) /\
    (item ∉ used) /\ (item = cur \/ item ∈ random_item_list s).
Proof.
  induction k as [| k IH]; intros fuel pr cur x Hlen Hx Hun Hfuel.
  - destruct fuel as [| fuel]; [lia |]. simpl.
    destruct (decide (cur ∈ used)) as [Hin | Hnin].
    + rewrite Nat.add_0_r in Hx.
      assert (Hne : random_item_list s <> []) by (intros E; by rewrite E in Hx).
      rewrite (random_item_Returned s pr x Hlen Hx Hne).
      exists x, 1. split; [lia |]. split.
      * destruct fuel; simpl; rewrite decide_False by done; by rewrite Nat.add_1_r.
      * split; [done |]. right. by eapply list_elem_of_lookup_2.
    + exists cur, 0. rewrite Nat.add_0_r. split; [lia |]. split; [done |]. by split; [| left].
  - destruct fuel as [| fuel]; [lia |]. simpl.
    destruct (decide (cur ∈ used)) as [Hin | Hnin].
    + assert (Hne : random_item_list s <> []) by (intros E; by rewrite E in Hx).
      destruct (random_item_total s pr Hlen Hne) as (c & Hc & ->).
      replace (pr + S k) with (S pr + k) in Hx by lia.
      destruct (IH fuel (S pr) c x Hlen Hx Hun ltac:(lia)) as (item & k' & Hk' & Hres & Hit & Hor).
      exists item, (S k'). split; [lia |]. split.
      * rewrite Hres. f_equal. f_equal. lia.
      * split; [done |]. right. destruct Hor as [-> | ?]; [| done].
        by eapply list_elem_of_lookup_2.
    + exists cur, 0. rewrite Nat.add_0_r. split; [lia |]. split; [done |]. by split; [| left].
Qed.

(** One draw: an unseen pool entry is found within one cycle of the pool. *)
Lemma draw_unseen_finds used s pr fuel :
  random_item_list_length s = length (random_item_list s) ->
  (exists x, x ∈ random_item_list s /\ x ∉ used) ->
  length (random_item_list s) <= fuel ->
  exists item pr',
    draw_unseen fuel used (set_random_pr s pr) = Returned item (set_random_pr s pr') /\
    pr < pr' <= pr + length (random_item_list s) /\
    item ∈ random_item_list s /\ (item ∉ used).
Proof.
  intros Hlen (x & Hx & Hun) Hfuel.
  apply list_elem_of_lookup in Hx as [j Hj].
  pose proof (lookup_lt_Some _ _ _ Hj) as Hjlt.
  destruct (cursor_cycle (length (random_item_list s)) pr j Hjlt) as (k & Hk & Hmod).
  assert (Hne : random_item_list s <> []) by (intros E; by rewrite E in Hj).
  unfold draw_unseen.
  destruct (random_item_total s pr Hlen Hne) as (c & Hc & ->).
  destruct k as [| k].
  - rewrite Nat.add_0_r in Hmod. rewrite Hmod in Hc. simplify_eq.
    exists x, (S pr). split.
    + destruct fuel; simpl; by rewrite decide_False.
    + split; [lia |]. split; [by eapply list_elem_of_lookup_2 | done].
  - replace (pr + S k) with (S pr + k) in Hmod by lia. rewrite <- Hmod in Hj.
    destruct (resample_finds used s k fuel (S pr) c x Hlen Hj Hun ltac:(lia))
      as (item & k' & Hk' & Hres & Hit & Hor).
    exists item, (S pr + k'). split; [done |]. split; [lia |]. split; [| done].
    destruct Hor as [-> | ?]; [| done]. by eapply list_elem_of_lookup_2.
Qed.

(** When every pool entry is seen, the loop never leaves. *)
Lemma resample_diverges used s fuel : forall pr cur,
  random_item_list_length s = length (random_item_list s) ->
  (forall x, x ∈ random_item_list s -> x ∈ used) ->
  cur ∈ used ->
  random_item_list s <> [] ->
  resample fuel used cur (set_random_pr s pr) = Diverged.
Proof.
  induction fuel as [| fuel IH]; intros pr cur Hlen Hall Hcur Hne; simpl.
  - by rewrite decide_True.
  - rewrite decide_True by done.
    destruct (random_item_total s pr Hlen Hne) as (c & Hc & ->).
    apply IH; try done. apply Hall. by eapply list_elem_of_lookup_2.
Qed.

Lemma set_random_pr_id s : set_random_pr s (random_pr s) = s.
Proof. by destruct s. Qed.

(** The [for] loop: one unseen pool entry per requested set. *)
Lemma fill_finds s fuel (used_item_id_list : list (gset Z)) : forall pr,
  random_item_list_length s = length (random_item_list s) ->
  Forall (fun used => exists x, x ∈ random_item_list s /\ x ∉ used) used_item_id_list ->
  length (random_item_list s) <= fuel ->
  exists ids pr',
    fill fuel used_item_id_list (set_random_pr s pr) = Returned ids (set_random_pr s pr') /\
    Forall2 (fun item used => item ∈ random_item_list s /\ item ∉ used) ids used_item_id_list.
Proof.
  induction used_item_id_list as [| used rest IH]; intros pr Hlen Hall Hfuel; simpl.
  - exists [], pr. by split.
  - apply Forall_cons in Hall as [Hused Hrest].
    destruct (draw_unseen_finds used s pr fuel Hlen Hused Hfuel)
      as (item & pr1 & -> & _ & Hin & Hnin).
    destruct (IH pr1 Hlen Hrest Hfuel) as (ids & pr2 & -> & Hids).
    exists (item :: ids), pr2. split; [done |]. by constructor.
Qed.

(** [arr[ids]] with every index in [0, len(arr)). *)
Lemma np_take_valid {A} (arr : list A) (ids : list Z) :
  Forall (fun i => (0 <= i < Z.of_nat (length arr))%Z) ids ->
  exists picked,
    np_take arr ids = Ok picked /\
    Forall2 (fun i a => arr !! Z.to_nat i = Some a) ids picked.
Proof.
  induction 1 as [| i ids Hi _ (picked & IH1 & IH2)]; simpl.
  - by exists [].
  - unfold np_getitem. rewrite (np_index_valid _ _ Hi). simpl.
    destruct (lookup_lt_is_Some_2 arr (Z.to_nat i)) as [a Ha]; [lia |].
    rewrite Ha. simpl. rewrite IH1. simpl.
    exists (a :: picked). split; [done |]. by constructor.
Qed.

(** [arr[ids]] raises exactly when some index is outside [-len, len). *)
Lemma np_take_Raise {A} (arr : list A) (ids : list Z) e :
  np_take arr ids = Raise e ->
  e = IndexError /\
  Exists (fun i => (i < - Z.of_nat (length arr) \/ Z.of_nat (length arr) <= i)%Z) ids.
Proof.
  induction ids as [| i ids IH]; simpl; [done |].
  unfold np_getitem.
  destruct (np_index (length arr) i) as [k |] eqn:Hk; simpl.
  - destruct (arr !! k) as [a |] eqn:Ha; simpl.
    + destruct (np_take arr ids) as [r | e'] eqn:Hr; simpl; [done |].
      intros [= <-]. destruct (IH eq_refl) as [-> ?]. split; [done |]. by right.
    + apply np_index_lt in Hk. apply lookup_ge_None in Ha. lia.
  - intros [= <-]. split; [done |]. left. by apply np_index_None.
Qed.

Lemma np_repeat_length {A} (xs : list A) (num : nat) :
  length (np_repeat xs num) = length xs * num.
Proof.
  unfold np_repeat. induction xs as [| x xs IH]; [done |].
  rewrite bind_cons, length_app, length_replicate, IH. simpl. lia.
Qed.

(** Slot [i] of [np.repeat(xs, num)] holds element [i / num] of [xs]. *)
Lemma np_repeat_lookup {A} (xs : list A) (num i : nat) (a : A) :
  np_repeat xs num !! i = Some a -> xs !! (i / num) = Some a.
Proof.
  destruct (decide (num = 0)) as [-> | Hnum].
  { intros Hi%lookup_lt_Some. rewrite np_repeat_length in Hi. lia. }
  unfold np_repeat. revert i.
  induction xs as [| x xs IH]; intros i; [done |].
  rewrite bind_cons.
  destruct (decide (i < num)) as [Hlt | Hge].
  - rewrite lookup_app_l by (by rewrite length_replicate).
    intros [-> _]%lookup_replicate. by rewrite Nat.div_small.
  - rewrite lookup_app_r by (rewrite length_replicate; lia).
    rewrite length_replicate. intros Hi%IH.
    replace i with ((i - num) + 1 * num) by lia.
    rewrite Nat.div_add by done. by rewrite Nat.add_1_r.
Qed.


(** *** Only the cursor moves *)

Lemma same_but_pr_refl s : same_but_pr s s.
Proof. exists (random_pr s). by rewrite set_random_pr_id. Qed.

Lemma same_but_pr_trans s1 s2 s3 :
  same_but_pr s1 s2 -> same_but_pr s2 s3 -> same_but_pr s1 s3.
Proof. intros [p ->] [q ->]. by exists q. Qed.

Lemma random_item_frame s s' :
  final (random_item s) = Some s' -> same_but_pr s s'.
Proof.
  unfold random_item. case_decide; simpl.
  - intros [= <-]. apply same_but_pr_refl.
  - destruct (_ !! _); simpl; intros [= <-]; [by eexists | apply same_but_pr_refl].
Qed.

Lemma resample_frame fuel used : forall cur s s',
  final (resample fuel used cur s) = Some s' -> same_but_pr s s'.
Proof.
  induction fuel as [| fuel IH]; intros cur s s'; simpl; case_decide; simpl; try done;
    try (intros [= <-]; apply same_but_pr_refl).
  pose proof (random_item_frame s) as Hri.
  destruct (random_item s) as [c s1 | e s1 |]; simpl in *; [| by auto | done].
  intros H1. eapply same_but_pr_trans; [by apply Hri | by eapply IH].
Qed.

Lemma draw_unseen_frame fuel used s s' :
  final (draw_unseen fuel used s) = Some s' -> same_but_pr s s'.
Proof.
  unfold draw_unseen. pose proof (random_item_frame s) as Hri.
  destruct (random_item s) as [c s1 | e s1 |]; simpl in *; [| by auto | done].
  intros H1. eapply same_but_pr_trans; [by apply Hri | by eapply resample_frame].
Qed.

Lemma fill_frame fuel (l : list (gset Z)) : forall s s',
  final (fill fuel l s) = Some s' -> same_but_pr s s'.
Proof.
  induction l as [| used rest IH]; intros s s'; simpl.
  - intros [= <-]. apply same_but_pr_refl.
  - pose proof (draw_unseen_frame fuel used s) as Hd.
    destruct (draw_unseen fuel used s) as [c s1 | e s1 |]; simpl in *; [| by auto | done].
    pose proof (IH s1) as Hf.
    destruct (fill fuel rest s1) as [r s2 | e s2 |]; simpl in *; [| | done];
      intros [= <-]; eapply same_but_pr_trans; eauto.
Qed.

Lemma sample_body_frame fuel s phase user_ids num s' :
  final (sample_body fuel s phase user_ids num) = Some s' -> same_but_pr s s'.
Proof.
  unfold sample_body. destruct (_ !! _) as [rows |]; simpl.
  - destruct (np_take rows user_ids); simpl; [apply fill_frame |].
    intros [= <-]. apply same_but_pr_refl.
  - intros [= <-]. apply same_but_pr_refl.
Qed.

Lemma sample_by_user_ids_frame fuel s phase user_ids num s' :
  final (sample_by_user_ids fuel s phase user_ids num) = Some s' -> same_but_pr s s'.
Proof.
  unfold sample_by_user_ids. pose proof (sample_body_frame fuel s phase user_ids num) as Hb.
  destruct (sample_body fuel s phase user_ids num) as [r s1 | e s1 |]; simpl in *;
    [by auto | | done].
  destruct e; simpl; try by auto.
  - case_decide; simpl; by auto.
  - destruct (first_bad_user _ _); simpl; by auto.
Qed.

Lemma reachable_frame s0 s : reachable s0 s -> same_but_pr s0 s.
Proof.
  induction 1 as [| s s' _ IH Hs | s s' fuel phase user_ids num _ IH Hs].
  - apply same_but_pr_refl.
  - eapply same_but_pr_trans; [done | by apply random_item_frame].
  - eapply same_but_pr_trans; [done | by eapply sample_by_user_ids_frame].
Qed.

(** *** Construction *)

Lemma init_Ok rng phases0 datasets0 distribution s :
  init rng phases0 datasets0 distribution = Ok s ->
  exists d0 ds pool tbl,
    as_list datasets0 = d0 :: ds /\
    length (as_list phases0) = length (as_list datasets0) /\
    legal_distribution distribution = true /\
    build_pool distribution (item_num d0) (as_list datasets0) = Ok pool /\
    accumulate ∅ (replicate (user_num d0) ∅)
      (zip (as_list phases0) (as_list datasets0)) = Ok tbl /\
    s = {| phases := as_list phases0; n_users := user_num d0; n_items := item_num d0;
           random_item_list := shuffle rng pool; random_pr := 0;
           random_item_list_length := length (shuffle rng pool);
           used_item_id := tbl |}.
Proof.
  unfold init.
  destruct (legal_distribution distribution) eqn:Hd; simpl; [| done].
  case_bool_decide as Hlen; simpl; [| done].
  destruct (as_list datasets0) as [| d0 ds] eqn:Hds; [done |].
  destruct (build_pool _ _ _) as [pool |] eqn:Hpool; simpl; [| done].
  destruct (accumulate _ _ _) as [tbl |] eqn:Hacc; simpl; [| done].
  intros [= <-]. by exists d0, ds, pool, tbl.
Qed.

Lemma add_inter_length cur row cur' :
  add_inter cur row = Ok cur' -> length cur' = length cur.
Proof.
  unfold add_inter. destruct (np_index _ _); [| done].
  intros [= <-]. by rewrite length_alter.
Qed.

Lemma add_inters_length rows : forall cur cur',
  add_inters cur rows = Ok cur' -> length cur' = length cur.
Proof.
  induction rows as [| row rows IH]; intros cur cur'; simpl.
  - by intros [= <-].
  - destruct (add_inter cur row) as [c |] eqn:Hc; simpl; [| done].
    intros ->%IH. by eapply add_inter_length.
Qed.

(** The rows stored by the loop all have the length of [last], and the keys
    stored are the phases gone through. *)
Lemma accumulate_shape pds : forall tbl last tbl',
  accumulate tbl last pds = Ok tbl' ->
  (forall phase rows, tbl !! phase = Some rows -> length rows = length last) ->
  (forall phase rows, tbl' !! phase = Some rows -> length rows = length last) /\
  (forall phase, is_Some (tbl' !! phase) <-> is_Some (tbl !! phase) \/ phase ∈ pds.*1).
Proof.
  induction pds as [| [p d] pds IH]; intros tbl last tbl'; simpl.
  - intros [= <-] Hrows. split; [done |]. intros phase.
    split; [by left | by intros [? | ?%elem_of_nil]].
  - destruct (add_inters last (inter_feat d)) as [cur |] eqn:Hcur; simpl; [| done].
    intros Hacc Hrows. apply add_inters_length in Hcur.
    destruct (IH _ _ _ Hacc) as [H1 H2].
    { intros phase rows. rewrite lookup_insert. case_decide.
      - by intros [= <-].
      - rewrite Hcur. apply Hrows. }
    split.
    + intros phase rows Hl. rewrite <- Hcur. by eapply H1.
    + intros phase. rewrite H2, lookup_insert. case_decide; subst.
      * split; [intros _; right; by left | intros _; by left].
      * rewrite elem_of_cons. intuition congruence.
Qed.

Lemma init_wf rng phases0 datasets0 distribution s :
  init rng phases0 datasets0 distribution = Ok s -> wf s.
Proof.
  intros (d0 & ds & pool & tbl & Hds & Hlen & _ & _ & Hacc & ->)%init_Ok.
  destruct (accumulate_shape _ _ _ _ Hacc) as [H1 H2]; [done |].
  split; simpl.
  - done.
  - intros phase. rewrite H2, fst_zip by lia.
    rewrite lookup_empty. split; [intros [[? [=]] | ?]; done | by right].
  - intros phase rows Hl. rewrite (H1 _ _ Hl). by rewrite length_replicate.
Qed.

Lemma reachable_wf s0 s : wf s0 -> reachable s0 s -> wf s.
Proof.
  intros Hwf [pr ->]%reachable_frame. by apply set_random_pr_wf.
Qed.

(** *** What the construction loop stores *)

Lemma add_inters_valid rows : forall cur,
  Forall (fun row : Z * Z => (0 <= row.1 < Z.of_nat (length cur))%Z) rows ->
  exists cur',
    add_inters cur rows = Ok cur' /\
    forall u seen0, cur !! u = Some seen0 ->
      cur' !! u =
        Some (seen0 ∪ list_to_set ((filter (fun row => row.1 = Z.of_nat u) rows).*2)).
Proof.
  induction rows as [| [uid iid] rows IH]; intros cur Hrows; simpl.
  - exists cur. split; [done |]. intros u seen0 ->. simpl.
    by rewrite (right_id_L ∅ (∪)).
  - apply Forall_cons in Hrows as [Huid Hrows]. simpl in Huid.
    unfold add_inter. simpl. rewrite (np_index_valid _ _ Huid). simpl.
    destruct (IH (alter (fun seen1 => seen1 ∪ {[iid]}) (Z.to_nat uid) cur))
      as (cur' & -> & Hcur').
    { by rewrite length_alter. }
    exists cur'. split; [done |]. intros u seen0 Hu.
    rewrite filter_cons. simpl.
    destruct (decide (uid = Z.of_nat u)) as [-> | Hne].
    + rewrite Nat2Z.id in Hcur'.
      rewrite (Hcur' u (seen0 ∪ {[iid]})).
      * simpl. by rewrite (assoc_L (∪)).
      * by rewrite list_lookup_alter_eq, Hu.
    + rewrite (Hcur' u seen0); [done |].
      rewrite list_lookup_alter_ne by lia. done.
Qed.

(** A phase that the loop does not go through keeps its entry. *)
Lemma accumulate_other pds : forall tbl last tbl' phase,
  accumulate tbl last pds = Ok tbl' ->
  phase ∉ pds.*1 ->
  tbl' !! phase = tbl !! phase.
Proof.
  induction pds as [| [p d] pds IH]; intros tbl last tbl' phase; simpl.
  - by intros [= <-].
  - destruct (add_inters last (inter_feat d)) as [cur |]; simpl; [| done].
    intros Hacc [Hp Hrest]%not_elem_of_cons.
    rewrite (IH _ _ _ _ Hacc Hrest). by rewrite lookup_insert_ne.
Qed.

Lemma elem_of_interacted_upto (datasets : list Dataset) k u x :
  x ∈ interacted_upto datasets k u <->
  exists j d, j <= k /\ datasets !! j = Some d /\ x ∈ interacted d u.
Proof.
  unfold interacted_upto. rewrite elem_of_union_list. split.
  - intros (X & HX & Hx). apply list_elem_of_fmap in HX as (d & -> & Hd).
    apply list_elem_of_lookup in Hd as [j Hj].
    apply lookup_take_Some in Hj as [Hj Hlt].
    exists j, d. split; [lia | done].
  - intros (j & d & Hj & Hd & Hx). exists (interacted d u). split; [| done].
    apply list_elem_of_fmap. exists d. split; [done |].
    apply list_elem_of_lookup. exists j. apply lookup_take_Some. split; [done | lia].
Qed.

Lemma interacted_upto_0 d (datasets : list Dataset) u :
  interacted_upto (d :: datasets) 0 u = interacted d u.
Proof.
  unfold interacted_upto. simpl. rewrite ?take_0. simpl.
  by rewrite (right_id_L ∅ (∪)).
Qed.

Lemma interacted_upto_S d (datasets : list Dataset) k u :
  interacted_upto (d :: datasets) (S k) u = interacted d u ∪ interacted_upto datasets k u.
Proof. done. Qed.

(** The entry of the phase declared at position [k], when its name is not
    declared again later: [last] joined with the rows of datasets [0..k]. *)
Lemma accumulate_lookup pds : forall tbl last tbl' k phase d,
  Forall (rows_valid (length last)) pds.*2 ->
  accumulate tbl last pds = Ok tbl' ->
  pds !! k = Some (phase, d) ->
  phase ∉ (drop (S k) pds).*1 ->
  exists rows,
    tbl' !! phase = Some rows /\
    forall u seen0, last !! u = Some seen0 ->
      rows !! u = Some (seen0 ∪ interacted_upto pds.*2 k u).
Proof.
  induction pds as [| [p0 d0] pds IH]; intros tbl last tbl' k phase d Hval Hacc Hk Hlater;
    [done |].
  simpl in Hacc, Hval. apply Forall_cons in Hval as [Hd0 Hval].
  destruct (add_inters_valid (inter_feat d0) last Hd0) as (cur & Hcur & Hrows).
  rewrite Hcur in Hacc. simpl in Hacc.
  destruct k as [| k]; simpl in Hk, Hlater.
  - injection Hk as -> ->. rewrite drop_0 in Hlater.
    exists cur. split.
    + rewrite (accumulate_other _ _ _ _ _ Hacc Hlater). by rewrite lookup_insert_eq.
    + intros u seen0 Hu. simpl. rewrite interacted_upto_0. by apply Hrows.
  - assert (Hlen : length cur = length last) by (by eapply add_inters_length).
    rewrite <- Hlen in Hval.
    destruct (IH _ _ _ _ _ _ Hval Hacc Hk Hlater) as (rows & Hrows1 & Hrows2).
    exists rows. split; [done |]. intros u seen0 Hu. simpl.
    rewrite interacted_upto_S, (assoc_L (∪)). apply Hrows2. by apply Hrows.
Qed.

(** *** More fuel changes nothing once a call has ended *)

Lemma resample_mono used fuel : forall fuel' cur s,
  fuel <= fuel' ->
  resample fuel used cur s <> Diverged ->
  resample fuel' used cur s = resample fuel used cur s.
Proof.
  induction fuel as [| fuel IH]; intros fuel' cur s Hle; simpl.
  - case_decide; [done |]. intros _. destruct fuel'; simpl; by rewrite decide_False.
  - destruct fuel' as [| fuel']; [lia |]. simpl. case_decide; [| done].
    destruct (random_item s) as [c s1 | e s1 |]; [| done | done].
    intros Hnd. apply IH; [lia | done].
Qed.

Lemma draw_unseen_mono used fuel fuel' s :
  fuel <= fuel' ->
  draw_unseen fuel used s <> Diverged ->
  draw_unseen fuel' used s = draw_unseen fuel used s.
Proof.
  unfold draw_unseen. intros Hle.
  destruct (random_item s) as [c s1 | e s1 |]; [| done | done].
  intros Hnd. by apply resample_mono.
Qed.

Lemma fill_mono fuel fuel' (l : list (gset Z)) : forall s,
  fuel <= fuel' ->
  fill fuel l s <> Diverged ->
  fill fuel' l s = fill fuel l s.
Proof.
  induction l as [| used rest IH]; intros s Hle; simpl; [done |].
  pose proof (draw_unseen_mono used fuel fuel' s Hle) as Hd.
  destruct (draw_unseen fuel used s) as [c s1 | e s1 |]; [| | done].
  - rewrite Hd by done. intros Hf. rewrite IH; [done | done |].
    by destruct (fill fuel rest s1).
  - by rewrite Hd.
Qed.

Lemma sample_by_user_ids_mono fuel fuel' s phase user_ids num :
  fuel <= fuel' ->
  sample_by_user_ids fuel s phase user_ids num <> Diverged ->
  sample_by_user_ids fuel' s phase user_ids num = sample_by_user_ids fuel s phase user_ids num.
Proof.
  unfold sample_by_user_ids, sample_body. intros Hle.
  destruct (used_item_id s !! phase) as [rows |]; [| done].
  destruct (np_take rows user_ids) as [picked | e]; [| done].
  intros Hf. rewrite (fill_mono fuel fuel'); [done | done |].
  by destruct (fill fuel (np_repeat picked num) s).
Qed.

(** *** The two lookup errors *)

Lemma first_bad_user_Some n user_ids :
  Exists (fun u => (u < 0 \/ u >= Z.of_nat n)%Z) user_ids ->
  exists u, first_bad_user n user_ids = Some u /\ u ∈ user_ids /\
            (u < 0 \/ u >= Z.of_nat n)%Z.
Proof.
  induction 1 as [u l Hu | u l _ (v & Hv & Hin & Hbad)]; simpl.
  - rewrite decide_True by done. exists u. split; [done |]. split; [by left | done].
  - case_decide.
    + exists u. split; [done |]. split; [by left | done].
    + exists v. split; [done |]. split; [by right | done].
Qed.

Lemma sample_unknown_phase fuel s phase user_ids num :
  wf s -> phase ∉ phases s ->
  sample_by_user_ids fuel s phase user_ids num
  = Raised (ValueError (PhaseNotExist phase)) s.
Proof.
  intros Hwf Hph. unfold sample_by_user_ids, sample_body.
  destruct (used_item_id s !! phase) as [rows |] eqn:Hrows.
  - exfalso. apply Hph, (wf_phases s Hwf). by eexists.
  - by rewrite decide_False.
Qed.

Lemma sample_user_id_out_of_range fuel s phase user_ids num :
  wf s -> phase ∈ phases s ->
  Exists (fun u => (u < - Z.of_nat (n_users s) \/ Z.of_nat (n_users s) <= u)%Z) user_ids ->
  exists u, u ∈ user_ids /\ (u < 0 \/ u >= Z.of_nat (n_users s))%Z /\
    sample_by_user_ids fuel s phase user_ids num
    = Raised (ValueError (UserIdNotExist u)) s.
Proof.
  intros Hwf Hph Hbad. unfold sample_by_user_ids, sample_body.
  apply (wf_phases s Hwf) in Hph as [rows Hrows]. rewrite Hrows.
  pose proof (wf_rows s Hwf _ _ Hrows) as Hlen.
  destruct (np_take rows user_ids) as [picked | e] eqn:Htake.
  - exfalso. clear Hrows. revert picked Htake.
    induction Hbad as [u l Hu | u l _ IH]; intros picked; simpl.
    + unfold np_getitem. rewrite (proj2 (np_index_None (length rows) u)) by lia. done.
    + destruct (np_getitem rows u); simpl; [| done].
      destruct (np_take rows l) eqn:Hl; simpl; [| done]. intros _. by eapply IH.
  - apply np_take_Raise in Htake as [-> _].
    destruct (first_bad_user_Some (n_users s) user_ids) as (u & -> & Hin & Hu).
    { eapply Exists_impl; [done |]. simpl. lia. }
    by exists u.
Qed.

(** The seen set stored by [init] under the phase declared at position [k],
    when phase names are not repeated. *)
Lemma seen_after_init rng phases0 datasets0 distribution s0 k phase u :
  init rng phases0 datasets0 distribution = Ok s0 ->
  NoDup (as_list phases0) ->
  Forall (rows_valid (n_users s0)) (as_list datasets0) ->
  as_list phases0 !! k = Some phase ->
  u < n_users s0 ->
  seen s0 phase (Z.of_nat u) = interacted_upto (as_list datasets0) k u.
Proof.
  intros (d0 & ds & pool & tbl & Hds & Hlen & _ & _ & Hacc & ->)%init_Ok Hnd Hval Hk Hu.
  simpl in *.
  set (pds := zip (as_list phases0) (as_list datasets0)) in *.
  assert (Hfst : pds.*1 = as_list phases0) by (apply fst_zip; lia).
  assert (Hsnd : pds.*2 = as_list datasets0) by (apply snd_zip; lia).
  destruct (lookup_lt_is_Some_2 pds k) as [[p d] Hpd].
  { rewrite <- (length_fmap fst), Hfst. by eapply lookup_lt_Some. }
  assert (p = phase) as ->.
  { pose proof (f_equal (fmap fst) Hpd) as Hp. rewrite <- list_lookup_fmap, Hfst, Hk in Hp.
    by injection Hp. }
  destruct (accumulate_lookup pds ∅ (replicate (user_num d0) ∅) tbl k phase d)
    as (rows & Hrows & Hrow); try done.
  - by rewrite length_replicate, Hsnd.
  - rewrite fmap_drop, Hfst.
    rewrite <- (take_drop_middle _ _ _ Hk) in Hnd.
    apply NoDup_app in Hnd as (_ & _ & Hnd). by apply NoDup_cons in Hnd as [? _].
  - unfold seen. simpl. rewrite Hrows. simpl. rewrite Nat2Z.id.
    rewrite (Hrow u ∅) by (by apply lookup_replicate_2).
    simpl. by rewrite Hsnd, (left_id_L ∅ (∪)).
Qed.

Lemma seen_reachable s0 s phase u : reachable s0 s -> seen s phase u = seen s0 phase u.
Proof. by intros [pr ->]%reachable_frame. Qed.

(** *** When construction returns *)

Lemma add_inters_indexable rows : forall cur,
  Forall (fun row : Z * Z =>
            (- Z.of_nat (length cur) <= row.1 < Z.of_nat (length cur))%Z) rows ->
  exists cur', add_inters cur rows = Ok cur' /\ length cur' = length cur.
Proof.
  induction rows as [| row rows IH]; intros cur Hrows; simpl; [by exists cur |].
  apply Forall_cons in Hrows as [Hrow Hrows]. unfold add_inter.
  destruct (np_index (length cur) row.1) as [k |] eqn:Hk.
  - simpl.
    destruct (IH (alter (fun seen0 => seen0 ∪ {[row.2]}) k cur)) as (cur' & -> & Hlen).
    { by rewrite length_alter. }
    exists cur'. split; [done |]. by rewrite Hlen, length_alter.
  - apply np_index_None in Hk. lia.
Qed.

Lemma accumulate_indexable pds : forall tbl last,
  Forall (rows_indexable (length last)) pds.*2 ->
  exists tbl', accumulate tbl last pds = Ok tbl'.
Proof.
  induction pds as [| [p d] pds IH]; intros tbl last Hall; simpl; [by eexists |].
  simpl in Hall. apply Forall_cons in Hall as [Hd Hall].
  destruct (add_inters_indexable (inter_feat d) last Hd) as (cur & -> & Hlen). simpl.
  apply IH. by rewrite Hlen.
Qed.

(** With a legal distribution, as many phases as datasets, at least one
    dataset and user ids that can be indexed, construction returns a sampler
    whose pool is the shuffle of the list that [build_pool] returns. *)
Lemma init_returns rng phases0 datasets0 distribution d0 ds :
  legal_distribution distribution = true ->
  as_list datasets0 = d0 :: ds ->
  length (as_list phases0) = length (as_list datasets0) ->
  Forall (rows_indexable (user_num d0)) (as_list datasets0) ->
  exists s pool,
    init rng phases0 datasets0 distribution = Ok s /\
    build_pool distribution (n_items s) (as_list datasets0) = Ok pool /\
    random_item_list s = shuffle rng pool /\ random_pr s = 0 /\
    n_items s = item_num d0.
Proof.
  intros Hlegal Hds Hlen Hrows. unfold init. rewrite Hlegal. rewrite Hds in *. simpl.
  rewrite bool_decide_eq_true_2 by done. simpl.
  assert (Hpool : exists pool, build_pool distribution (item_num d0) (d0 :: ds) = Ok pool).
  { unfold build_pool. unfold legal_distribution in Hlegal.
    destruct (decide (distribution = "uniform")); [by eexists |].
    destruct (decide (distribution = "popularity")); [by eexists |].
    rewrite !bool_decide_eq_false_2 in Hlegal by done. done. }
  destruct Hpool as [pool Hpool]. rewrite Hpool. simpl.
  destruct (accumulate_indexable (zip (as_list phases0) (d0 :: ds)) ∅
              (replicate (user_num d0) ∅)) as [tbl ->].
  { rewrite length_replicate, snd_zip by lia. done. }
  simpl. eexists. exists pool. split; [reflexivity |]. done.
Qed.

(** With valid item ids in the datasets, every entry of the pool is an item
    id of [0, n_items), under either distribution. *)
Lemma pool_entries_valid rng phases0 datasets0 distribution s x :
  init rng phases0 datasets0 distribution = Ok s ->
  Forall (items_valid (n_items s)) (as_list datasets0) ->
  x ∈ random_item_list s -> (0 <= x < Z.of_nat (n_items s))%Z.
Proof.
  intros (d0 & ds & pool & tbl & _ & _ & _ & Hpool & _ & ->)%init_Ok Hvalid Hin.
  simpl in *. rewrite (shuffle_perm rng) in Hin. unfold build_pool in Hpool.
  destruct (decide (distribution = "uniform")).
  - injection Hpool as <-.
    apply list_elem_of_fmap in Hin as (n & -> & Hn%elem_of_seq). lia.
  - destruct (decide (distribution = "popularity")); [| done].
    injection Hpool as <-.
    apply list_elem_of_In, in_concat in Hin as (col & Hcol%list_elem_of_In & Hx%list_elem_of_In).
    apply list_elem_of_fmap in Hcol as (d & -> & Hd).
    apply list_elem_of_fmap in Hx as (row & -> & Hrow).
    pose proof (proj1 (Forall_forall _ _) Hvalid d Hd) as Hdv.
    apply (proj1 (Forall_forall _ _) Hdv row Hrow).
Qed.

End SamplerFacts.

Section SamplerClaims.

(** C1 (as amended).  On a sampler built by [init] from datasets with valid
    item ids, in any state of its lifetime, a call
    [sample_by_user_ids phase user_ids num] with a declared phase, user ids in
    [0, n_users) and an unseen pool entry for every requested user returns
    (for any fuel of at least the pool's length) an array of exactly
    [len(user_ids) * num] ids; the id in slot [i] is an entry of the pool, lies
    in [0, n_items), and is not in the cumulative seen set of user
    [user_ids[i / num]] for that phase. *)
Theorem sample_by_user_ids_unseen rng phases0 datasets0 distribution s0 s
    phase user_ids num :
  init rng phases0 datasets0 distribution = Ok s0 ->
  Forall (items_valid (n_items s0)) (as_list datasets0) ->
  reachable s0 s ->
  phase ∈ phases s0 ->
  Forall (fun u => (0 <= u < Z.of_nat (n_users s0))%Z) user_ids ->
  Forall (fun u => exists x, x ∈ random_item_list s0 /\ x ∉ seen s0 phase u) user_ids ->
  exists ids s',
    (forall fuel, random_item_list_length s0 <= fuel ->
       sample_by_user_ids fuel s phase user_ids num = Returned (Some ids) s') /\
    length ids = length user_ids * num /\
    forall i x, ids !! i = Some x ->
      x ∈ random_item_list s0 /\
      (0 <= x < Z.of_nat (n_items s0))%Z /\
      exists u, user_ids !! (i / num) = Some u /\ x ∉ seen s0 phase u.
Proof.
  intros Hinit Hitems Hreach Hphase Hids Hunseen.
  pose proof (init_wf _ _ _ _ _ Hinit) as Hwf.
  destruct (reachable_frame _ _ Hreach) as [pr ->].
  destruct (proj2 (wf_phases s0 Hwf phase) Hphase) as [rows Hrows].
  pose proof (wf_rows s0 Hwf _ _ Hrows) as Hlen.
  destruct (np_take_valid rows user_ids) as (picked & Htake & Hpicked).
  { by rewrite Hlen. }
  assert (Hseen : forall u a, rows !! Z.to_nat u = Some a -> seen s0 phase u = a).
  { intros u a Ha. unfold seen. rewrite Hrows. simpl. by rewrite Ha. }
  assert (Hall : Forall (fun used => exists x, x ∈ random_item_list s0 /\ x ∉ used)
                   (np_repeat picked num)).
  { apply Forall_lookup_2. intros i used Hi%np_repeat_lookup.
    destruct (Forall2_lookup_r _ _ _ _ _ Hpicked Hi) as (u & Hu & Ha).
    rewrite <- (Hseen u used Ha).
    apply (proj1 (Forall_lookup _ _) Hunseen (i / num) u Hu). }
  destruct (fill_finds s0 (random_item_list_length s0) _ pr (wf_length s0 Hwf) Hall)
    as (ids & pr' & Hfill & Hids2).
  { by rewrite (wf_length s0 Hwf). }
  assert (Hcall : sample_by_user_ids (random_item_list_length s0) (set_random_pr s0 pr)
                    phase user_ids num = Returned (Some ids) (set_random_pr s0 pr')).
  { unfold sample_by_user_ids, sample_body. simpl. rewrite Hrows, Htake. by rewrite Hfill. }
  exists ids, (set_random_pr s0 pr'). split; [| split].
  - intros fuel Hfuel.
    rewrite (sample_by_user_ids_mono (random_item_list_length s0) fuel) by (by rewrite ?Hcall).
    done.
  - rewrite (Forall2_length _ _ _ Hids2), np_repeat_length.
    by rewrite <- (Forall2_length _ _ _ Hpicked).
  - intros i x Hx.
    destruct (Forall2_lookup_l _ _ _ _ _ Hids2 Hx) as (used & Hused & Hin & Hnin).
    apply np_repeat_lookup in Hused.
    destruct (Forall2_lookup_r _ _ _ _ _ Hpicked Hused) as (u & Hu & Ha).
    split; [done |]. split.
    + by eapply pool_entries_valid.
    + exists u. split; [done |]. by rewrite (Hseen u used Ha).
Qed.

Lemma sample_by_user_ids_unseen_witness :
  exists s0, scenario = Ok s0 /\
  exists ids s',
    (forall fuel, random_item_list_length s0 <= fuel ->
       sample_by_user_ids fuel s0 "train" [0%Z] 3 = Returned (Some ids) s') /\
    length ids = length [0%Z] * 3 /\
    forall i x, ids !! i = Some x ->
      x ∈ random_item_list s0 /\
      (0 <= x < Z.of_nat (n_items s0))%Z /\
      exists u, [0%Z] !! (i / 3) = Some u /\ x ∉ seen s0 "train" u.
Proof.
  eexists. split; [vm_compute; reflexivity |].
  apply (sample_by_user_ids_unseen identity_shuffle (Single "train")
           (Single scenario_train) "uniform").
  - vm_compute. reflexivity.
  - simpl. constructor; [| constructor]. unfold items_valid. simpl.
    constructor; [simpl; lia |]. constructor; [simpl; lia | constructor].
  - constructor.
  - simpl. apply list_elem_of_here.
  - constructor; [simpl; lia | constructor].
  - constructor; [| constructor]. exists 3%Z. split.
    + simpl. rewrite !elem_of_cons. auto.
    + intros Hin. vm_compute in Hin. discriminate Hin.
Defined.

(** C1, the claim as stated fails: in the specification's own scenario
    (five items, user 0 has seen items 1 and 2, three samples asked for) the
    call returns the padding id 0, which is in the uniform pool and in no seen
    set. *)
Lemma sample_by_user_ids_returns_padding :
  exists s, scenario = Ok s /\
    seen s "train" 0 = {[1%Z; 2%Z]} /\
    sample_by_user_ids 5 s "train" [0%Z] 3
    = Returned (Some [0; 3; 4]%Z) (set_random_pr s 5) /\
    0%Z ∈ [0; 3; 4]%Z.
Proof.
  eexists. split; [vm_compute; reflexivity |].
  split; [vm_compute; reflexivity |].
  split; [vm_compute; reflexivity |].
  apply list_elem_of_here.
Qed.

(** C2, the code at the failing input: with two users, the user id -1 is
    outside [0, n_users), yet the call raises nothing and returns a sample
    (drawn against the last user's seen set), because the index wraps around
    and the handler that tests [user_id < 0] is never entered. *)
Lemma negative_user_id_is_sampled :
  exists s, scenario = Ok s /\
    n_users s = 2 /\
    first_bad_user (n_users s) [(-1)%Z] = Some (-1)%Z /\
    sample_by_user_ids 5 s "train" [(-1)%Z] 1
    = Returned (Some [0%Z]) (set_random_pr s 1).
Proof.
  eexists. split; [vm_compute; reflexivity |].
  repeat split; vm_compute; reflexivity.
Qed.

(** C3.  One draw of [sample_by_user_ids] against the seen set [used]: if some
    pool entry is unseen, the draw returns an unseen pool entry after
    consuming at least one and at most [len(pool)] entries (with any fuel of
    at least the pool's length); if every pool entry is seen, the
    resample-on-collision loop, once entered, never leaves, whatever the fuel,
    and so the draw on a non-empty pool never ends. *)
Theorem resample_loop_termination s (used : gset Z) :
  wf s ->
  ((exists x, x ∈ random_item_list s /\ x ∉ used) ->
     exists item s',
       (forall fuel, length (random_item_list s) <= fuel ->
          draw_unseen fuel used s = Returned item s') /\
       same_but_pr s s' /\
       random_pr s < random_pr s' <= random_pr s + length (random_item_list s) /\
       item ∈ random_item_list s /\ (item ∉ used)) /\
  ((forall x, x ∈ random_item_list s -> x ∈ used) ->
     (forall fuel cur s', random_item s = Returned cur s' ->
        resample fuel used cur s' = Diverged) /\
     (random_item_list s <> [] -> forall fuel, draw_unseen fuel used s = Diverged)).
Proof.
  intros Hwf. pose proof (wf_length s Hwf) as Hlen. split.
  - intros Hun.
    destruct (draw_unseen_finds used s (random_pr s) (length (random_item_list s))
                Hlen Hun ltac:(lia)) as (item & pr' & Hdraw & Hpr & Hin & Hnin).
    rewrite set_random_pr_id in Hdraw.
    exists item, (set_random_pr s pr'). split; [| split; [by eexists | done]].
    intros fuel Hfuel.
    rewrite (draw_unseen_mono used (length (random_item_list s)) fuel) by (by rewrite ?Hdraw).
    done.
  - intros Hall.
    assert (Hloop : forall fuel cur s', random_item s = Returned cur s' ->
                      resample fuel used cur s' = Diverged).
    { intros fuel cur s' Hri.
      destruct (decide (random_item_list s = [])) as [Hnil | Hne].
      { by rewrite (random_item_empty s Hlen Hnil) in Hri. }
      destruct (random_item_total s (random_pr s) Hlen Hne) as (c & Hc & Hri').
      rewrite set_random_pr_id, Hri in Hri'. injection Hri' as -> ->.
      apply resample_diverges; try done. apply Hall. by eapply list_elem_of_lookup_2. }
    split; [done |]. intros Hne fuel. unfold draw_unseen.
    destruct (random_item_total s (random_pr s) Hlen Hne) as (c & Hc & Hri).
    rewrite set_random_pr_id in Hri. rewrite Hri. by eapply Hloop.
Qed.

Lemma resample_loop_termination_witness :
  exists s, scenario = Ok s /\
  ((exists x, x ∈ random_item_list s /\ x ∉ ({[1%Z; 2%Z]} : gset Z)) ->
     exists item s',
       (forall fuel, length (random_item_list s) <= fuel ->
          draw_unseen fuel {[1%Z; 2%Z]} s = Returned item s') /\
       same_but_pr s s' /\
       random_pr s < random_pr s' <= random_pr s + length (random_item_list s) /\
       item ∈ random_item_list s /\ (item ∉ ({[1%Z; 2%Z]} : gset Z))) /\
  ((forall x, x ∈ random_item_list s -> x ∈ ({[1%Z; 2%Z]} : gset Z)) ->
     (forall fuel cur s', random_item s = Returned cur s' ->
        resample fuel {[1%Z; 2%Z]} cur s' = Diverged) /\
     (random_item_list s <> [] -> forall fuel, draw_unseen fuel {[1%Z; 2%Z]} s = Diverged)).
Proof.
  eexists. split; [vm_compute; reflexivity |].
  apply resample_loop_termination.
  apply (init_wf identity_shuffle (Single "train") (Single scenario_train) "uniform").
  vm_compute. reflexivity.
Defined.

(** C4 (as amended).  After construction with pairwise distinct phase names
    and valid user ids in the datasets, in every state of the sampler's
    lifetime, for every user and every phase index [k]: the set stored for
    phase [k] is the union of that user's interacted items over phases
    [0..k], and for [k >= 1] it is a superset of the set stored for phase
    [k - 1]. *)
Theorem cumulative_seen_sets rng phases0 datasets0 distribution s0 s k phase u :
  init rng phases0 datasets0 distribution = Ok s0 ->
  NoDup (as_list phases0) ->
  Forall (rows_valid (n_users s0)) (as_list datasets0) ->
  reachable s0 s ->
  as_list phases0 !! k = Some phase ->
  u < n_users s0 ->
  seen s phase (Z.of_nat u) = interacted_upto (as_list datasets0) k u /\
  forall phase', 1 <= k -> as_list phases0 !! (k - 1) = Some phase' ->
    seen s phase' (Z.of_nat u) ⊆ seen s phase (Z.of_nat u).
Proof.
  intros Hinit Hnd Hval Hreach Hk Hu.
  rewrite (seen_reachable s0 s phase _ Hreach).
  rewrite (seen_after_init _ _ _ _ _ _ _ _ Hinit Hnd Hval Hk Hu).
  split; [done |]. intros phase' Hk1 Hk'.
  rewrite (seen_reachable s0 s phase' _ Hreach).
  rewrite (seen_after_init _ _ _ _ _ _ _ _ Hinit Hnd Hval Hk' Hu).
  intros x (j & d & Hj & Hd & Hx)%elem_of_interacted_upto.
  apply elem_of_interacted_upto. exists j, d. split; [lia | done].
Qed.

Lemma cumulative_seen_sets_witness :
  exists s0 s, two_phases = Ok s0 /\
    sample_by_user_ids 5 s0 "valid" [0%Z] 2 = Returned (Some [0; 4]%Z) s /\
    seen s "valid" (Z.of_nat 0)
    = interacted_upto [scenario_train; scenario_valid] 1 0 /\
    forall phase', 1 <= 1 -> ["train"; "valid"] !! (1 - 1) = Some phase' ->
      seen s phase' (Z.of_nat 0) ⊆ seen s "valid" (Z.of_nat 0).
Proof.
  eexists. eexists. split; [vm_compute; reflexivity |].
  split; [vm_compute; reflexivity |].
  eapply (cumulative_seen_sets identity_shuffle (Listed ["train"; "valid"])
            (Listed [scenario_train; scenario_valid]) "uniform").
  - vm_compute. reflexivity.
  - simpl. apply NoDup_cons. split; [| apply NoDup_singleton].
    intros Hin. apply list_elem_of_singleton in Hin. discriminate Hin.
  - simpl. constructor; [| constructor; [| constructor]]; unfold rows_valid; simpl.
    + constructor; [simpl; lia |]. constructor; [simpl; lia | constructor].
    + constructor; [simpl; lia | constructor].
  - eapply reach_sample_by_user_ids
      with (fuel := 5) (phase := "valid") (user_ids := [0%Z]) (num := 2);
      [constructor |].
    vm_compute. reflexivity.
  - reflexivity.
  - simpl. lia.
Defined.

(** C4, the claim as stated fails when a phase name is declared twice: with
    phases "a", "b", "a" the dictionary keeps under "a" the snapshot of the
    last phase, so the set stored for phase 1 ("b") is no superset of the set
    stored for phase 0 ("a"), and the latter is not the union over phase 0
    alone. *)
Lemma repeated_phase_not_cumulative :
  exists s, repeated_phase = Ok s /\
    phases s !! 0 = Some "a" /\ phases s !! 1 = Some "b" /\
    ~ (seen s "a" 0 ⊆ seen s "b" 0) /\
    seen s "a" 0 <> interacted_upto [one_row 1; one_row 2; one_row 3] 0 0.
Proof.
  eexists. split; [vm_compute; reflexivity |].
  split; [reflexivity |]. split; [reflexivity |]. split.
  - intros Hsub. specialize (Hsub 3%Z). vm_compute in Hsub.
    specialize (Hsub eq_refl). discriminate Hsub.
  - intros Heq. assert (H3 : 3%Z ∈ interacted_upto [one_row 1; one_row 2; one_row 3] 0 0).
    { rewrite <- Heq. vm_compute. reflexivity. }
    vm_compute in H3. discriminate H3.
Qed.

(** C5.  Construction with as many phases as datasets, at least one dataset
    and user ids that can be indexed returns a sampler under either legal
    distribution, and the pool as it is handed to the shuffle is: under
    "uniform", a list that holds every item id of [0, n_items) exactly once
    (no duplicates, and membership is exactly the range); under "popularity",
    the concatenation of the item-id columns of all datasets, hence equal to
    it as a multiset.  The sampler's pool is the shuffle of that list, read
    from cursor 0, and so it is for whatever sampler construction returns.  A
    distribution name outside {uniform, popularity} makes construction raise
    a [ValueError], whatever the other arguments. *)
Theorem pool_before_shuffle rng phases0 datasets0 d0 ds :
  as_list datasets0 = d0 :: ds ->
  length (as_list phases0) = length (as_list datasets0) ->
  Forall (rows_indexable (user_num d0)) (as_list datasets0) ->
  (exists s pool,
     init rng phases0 datasets0 "uniform" = Ok s /\
     build_pool "uniform" (n_items s) (as_list datasets0) = Ok pool /\
     random_item_list s = shuffle rng pool /\ random_pr s = 0 /\
     n_items s = item_num d0 /\
     NoDup pool /\ forall x, x ∈ pool <-> (0 <= x < Z.of_nat (n_items s))%Z) /\
  (exists s pool,
     init rng phases0 datasets0 "popularity" = Ok s /\
     build_pool "popularity" (n_items s) (as_list datasets0) = Ok pool /\
     random_item_list s = shuffle rng pool /\ random_pr s = 0 /\
     pool ≡ₚ concat (iid_column <$> as_list datasets0)) /\
  (forall rng' phases' datasets' distribution s,
     init rng' phases' datasets' distribution = Ok s ->
     exists pool, build_pool distribution (n_items s) (as_list datasets') = Ok pool /\
       random_item_list s = shuffle rng' pool /\ random_pr s = 0 /\
       (distribution = "uniform" ->
          NoDup pool /\ forall x, x ∈ pool <-> (0 <= x < Z.of_nat (n_items s))%Z) /\
       (distribution = "popularity" ->
          pool ≡ₚ concat (iid_column <$> as_list datasets'))) /\
  (forall rng' phases' datasets' distribution,
     distribution <> "uniform" -> distribution <> "popularity" ->
     init rng' phases' datasets' distribution
     = Raise (ValueError (DistributionShouldIn distribution))).
Proof.
  intros Hds Hlen Hrows.
  assert (Huni : forall n_items datasets pool,
            build_pool "uniform" n_items datasets = Ok pool ->
            NoDup pool /\ forall x, x ∈ pool <-> (0 <= x < Z.of_nat n_items)%Z).
  { intros n_items datasets pool [= <-]. split.
    - apply NoDup_fmap_2; [apply _ | apply NoDup_seq].
    - intros x. rewrite list_elem_of_fmap. split.
      + intros (n & -> & Hn%elem_of_seq). lia.
      + intros Hx. exists (Z.to_nat x). split; [lia |]. apply elem_of_seq. lia. }
  assert (Hpop : forall n_items datasets pool,
            build_pool "popularity" n_items datasets = Ok pool ->
            pool ≡ₚ concat (iid_column <$> datasets)).
  { by intros n_items datasets pool [= <-]. }
  split; [| split; [| split]].
  - destruct (init_returns rng phases0 datasets0 "uniform" d0 ds)
      as (s & pool & Hinit & Hpool & Hlist & Hpr & Hn); try done.
    exists s, pool. repeat (split; [done |]). by eapply Huni.
  - destruct (init_returns rng phases0 datasets0 "popularity" d0 ds)
      as (s & pool & Hinit & Hpool & Hlist & Hpr & Hn); try done.
    exists s, pool. repeat (split; [done |]). by eapply Hpop.
  - intros rng' phases' datasets' distribution s
      (d0' & ds' & pool & tbl & _ & _ & _ & Hpool & _ & ->)%init_Ok.
    exists pool. simpl. repeat (split; [done |]). split.
    + intros ->. by eapply Huni.
    + intros ->. by eapply Hpop.
  - intros rng' phases' datasets' distribution Hu Hp. unfold init, legal_distribution.
    rewrite (bool_decide_eq_false_2 _ Hu), (bool_decide_eq_false_2 _ Hp). reflexivity.
Qed.

Lemma pool_before_shuffle_witness :
  (exists s pool,
     init identity_shuffle (Single "train") (Single popular_train) "uniform" = Ok s /\
     build_pool "uniform" (n_items s) [popular_train] = Ok pool /\
     random_item_list s = shuffle identity_shuffle pool /\ random_pr s = 0 /\
     n_items s = item_num popular_train /\
     NoDup pool /\ forall x, x ∈ pool <-> (0 <= x < Z.of_nat (n_items s))%Z) /\
  (exists s pool,
     init identity_shuffle (Single "train") (Single popular_train) "popularity" = Ok s /\
     build_pool "popularity" (n_items s) [popular_train] = Ok pool /\
     random_item_list s = shuffle identity_shuffle pool /\ random_pr s = 0 /\
     pool ≡ₚ concat (iid_column <$> [popular_train])) /\
  (forall rng' phases' datasets' distribution s,
     init rng' phases' datasets' distribution = Ok s ->
     exists pool, build_pool distribution (n_items s) (as_list datasets') = Ok pool /\
       random_item_list s = shuffle rng' pool /\ random_pr s = 0 /\
       (distribution = "uniform" ->
          NoDup pool /\ forall x, x ∈ pool <-> (0 <= x < Z.of_nat (n_items s))%Z) /\
       (distribution = "popularity" ->
          pool ≡ₚ concat (iid_column <$> as_list datasets'))) /\
  (forall rng' phases' datasets' distribution,
     distribution <> "uniform" -> distribution <> "popularity" ->
     init rng' phases' datasets' distribution
     = Raise (ValueError (DistributionShouldIn distribution))).
Proof.
  apply (pool_before_shuffle identity_shuffle (Single "train") (Single popular_train)
           popular_train []).
  - reflexivity.
  - reflexivity.
  - simpl. constructor; [| constructor]. unfold rows_indexable. simpl.
    constructor; [simpl; lia |]. constructor; [simpl; lia |].
    constructor; [simpl; lia | constructor].
Defined.

End SamplerClaims.

Section SamplerExtras.

Implicit Types (s : t) (used : gset Z).

(** *** How a draw can end *)

Lemma random_item_cases s :
  random_item_list_length s = length (random_item_list s) ->
  (random_item_list s = [] /\ random_item s = Raised ZeroDivisionError s) \/
  (exists x, random_item_list s <> [] /\ entry_at s (random_pr s) = Some x /\
     random_item s = Returned x (set_random_pr s (S (random_pr s)))).
Proof.
  intros Hlen. destruct (decide (random_item_list s = [])) as [Hnil | Hne].
  - left. split; [done |]. by apply random_item_empty.
  - right. destruct (random_item_total s (random_pr s) Hlen Hne) as (x & Hx & Hri).
    rewrite set_random_pr_id in Hri. by exists x.
Qed.

Lemma resample_Raised fuel used : forall cur s e s',
  random_item_list_length s = length (random_item_list s) ->
  resample fuel used cur s = Raised e s' ->
  e = ZeroDivisionError /\ random_item_list s = [].
Proof.
  induction fuel as [| fuel IH]; intros cur s e s' Hlen; simpl; case_decide; try done.
  destruct (random_item_cases s Hlen) as [[Hnil ->] | (x & Hne & _ & ->)].
  - by intros [= <- <-].
  - intros Hr. by apply IH in Hr.
Qed.

Lemma draw_unseen_Raised fuel used s e s' :
  random_item_list_length s = length (random_item_list s) ->
  draw_unseen fuel used s = Raised e s' ->
  e = ZeroDivisionError /\ random_item_list s = [].
Proof.
  intros Hlen. unfold draw_unseen.
  destruct (random_item_cases s Hlen) as [[Hnil ->] | (x & Hne & _ & ->)].
  - by intros [= <- <-].
  - intros Hr. by apply resample_Raised in Hr.
Qed.

Lemma fill_Raised fuel (l : list (gset Z)) : forall s e s',
  random_item_list_length s = length (random_item_list s) ->
  fill fuel l s = Raised e s' ->
  e = ZeroDivisionError /\ random_item_list s = [].
Proof.
  induction l as [| used rest IH]; intros s e s' Hlen; simpl; [done |].
  pose proof (draw_unseen_Raised fuel used s) as Hd.
  pose proof (draw_unseen_frame fuel used s) as Hf.
  destruct (draw_unseen fuel used s) as [c s1 | e1 s1 |]; [| | done].
  - destruct (Hf s1 eq_refl) as [pr ->].
    pose proof (IH (set_random_pr s pr)) as IH'.
    destruct (fill fuel rest (set_random_pr s pr)) as [r s2 | e2 s2 |]; [done | | done].
    intros [= <- <-]. by apply (IH' e2 s2).
  - intros [= <- <-]. by apply (Hd e1 s1).
Qed.

Lemma np_index_wrapped n (u : Z) :
  (- Z.of_nat n <= u < Z.of_nat n)%Z -> np_index n (wrapped n u) = np_index n u.
Proof.
  intros Hu. unfold wrapped, np_index. repeat case_decide; try done; try lia.
Qed.

Lemma np_take_wrapped {A} (arr : list A) (ids : list Z) :
  Forall (fun u => (- Z.of_nat (length arr) <= u < Z.of_nat (length arr))%Z) ids ->
  np_take arr (wrapped (length arr) <$> ids) = np_take arr ids.
Proof.
  induction 1 as [| u ids Hu _ IH]; [done |].
  rewrite fmap_cons. cbn [np_take]. unfold np_getitem.
  by rewrite (np_index_wrapped _ _ Hu), IH.
Qed.

Lemma np_take_in_range {A} (arr : list A) (ids : list Z) :
  Forall (fun u => (- Z.of_nat (length arr) <= u < Z.of_nat (length arr))%Z) ids ->
  exists picked, np_take arr ids = Ok picked /\ length picked = length ids.
Proof.
  induction 1 as [| u ids Hu _ (picked & IH & Hlen)]; simpl; [by exists [] |].
  unfold np_getitem.
  destruct (np_index (length arr) u) as [k |] eqn:Hk.
  - destruct (lookup_lt_is_Some_2 arr k) as [a Ha]; [by eapply np_index_lt |].
    simpl. rewrite Ha. simpl. rewrite IH. simpl. exists (a :: picked).
    split; [done |]. simpl. by rewrite Hlen.
  - apply np_index_None in Hk. lia.
Qed.

Lemma first_bad_user_split n user_ids u :
  first_bad_user n user_ids = Some u ->
  exists before after,
    user_ids = before ++ u :: after /\
    Forall (fun v => (0 <= v < Z.of_nat n)%Z) before /\
    (u < 0 \/ u >= Z.of_nat n)%Z.
Proof.
  induction user_ids as [| v l IH]; simpl; [done |]. case_decide as Hv.
  - intros [= <-]. by exists [], l.
  - intros (before & after & -> & Hb & Hu)%IH.
    exists (v :: before), after. split; [done |]. split; [| done].
    constructor; [lia | done].
Qed.

(** X1.  A call of [sample_by_user_ids] with a phase that was not declared
    raises [ValueError] with the text 'phase [<phase>] not exist', whatever the
    user ids, and leaves the sampler as it was. *)
Theorem unknown_phase_is_reported s fuel phase user_ids num :
  wf s -> phase ∉ phases s ->
  sample_by_user_ids fuel s phase user_ids num
  = Raised (ValueError (PhaseNotExist phase)) s /\
  format (PhaseNotExist phase) = Some ("phase [" +:+ phase +:+ "] not exist").
Proof. intros Hwf Hph. split; [by apply sample_unknown_phase | done]. Qed.

Lemma unknown_phase_is_reported_witness :
  exists s, scenario = Ok s /\
    sample_by_user_ids 3 s "valid" [0%Z] 2
    = Raised (ValueError (PhaseNotExist "valid")) s /\
    format (PhaseNotExist "valid") = Some ("phase [" +:+ "valid" +:+ "] not exist").
Proof.
  eexists. split; [vm_compute; reflexivity |].
  apply unknown_phase_is_reported.
  - apply (init_wf identity_shuffle (Single "train") (Single scenario_train) "uniform").
    vm_compute. reflexivity.
  - simpl. rewrite elem_of_cons, elem_of_nil. intros [H | []]. discriminate H.
Defined.

(** X2.  With a declared phase, a call whose user ids hold one outside
    [-n_users, n_users) raises [ValueError] with the first id of the list that
    is outside [0, n_users) (every id before it is inside), draws nothing and
    leaves the cursor where it was. *)
Theorem out_of_range_user_id_is_reported s fuel phase user_ids num :
  wf s -> phase ∈ phases s ->
  Exists (fun u => (u < - Z.of_nat (n_users s) \/ Z.of_nat (n_users s) <= u)%Z) user_ids ->
  exists u before after,
    user_ids = before ++ u :: after /\
    Forall (fun v => (0 <= v < Z.of_nat (n_users s))%Z) before /\
    (u < 0 \/ u >= Z.of_nat (n_users s))%Z /\
    sample_by_user_ids fuel s phase user_ids num
    = Raised (ValueError (UserIdNotExist u)) s.
Proof.
  intros Hwf Hph Hbad. unfold sample_by_user_ids, sample_body.
  apply (wf_phases s Hwf) in Hph as [rows Hrows]. rewrite Hrows.
  pose proof (wf_rows s Hwf _ _ Hrows) as Hlen.
  destruct (np_take rows user_ids) as [picked | e] eqn:Htake.
  - exfalso. clear Hrows. revert picked Htake.
    induction Hbad as [u l Hu | u l _ IH]; intros picked; simpl.
    + unfold np_getitem. rewrite (proj2 (np_index_None (length rows) u)) by lia. done.
    + destruct (np_getitem rows u); simpl; [| done].
      destruct (np_take rows l) eqn:Hl; simpl; [| done]. intros _. by eapply IH.
  - apply np_take_Raise in Htake as [-> _].
    destruct (first_bad_user_Some (n_users s) user_ids) as (u & Hu & _ & _).
    { eapply Exists_impl; [done |]. simpl. lia. }
    rewrite Hu. apply first_bad_user_split in Hu as (before & after & -> & Hb & Hu).
    by exists u, before, after.
Qed.

Lemma out_of_range_user_id_is_reported_witness :
  exists s, scenario = Ok s /\
  exists u before after,
    [0; -1; 7; 9]%Z = before ++ u :: after /\
    Forall (fun v => (0 <= v < Z.of_nat (n_users s))%Z) before /\
    (u < 0 \/ u >= Z.of_nat (n_users s))%Z /\
    sample_by_user_ids 3 s "train" [0; -1; 7; 9]%Z 2
    = Raised (ValueError (UserIdNotExist u)) s.
Proof.
  eexists. split; [vm_compute; reflexivity |].
  apply out_of_range_user_id_is_reported.
  - apply (init_wf identity_shuffle (Single "train") (Single scenario_train) "uniform").
    vm_compute. reflexivity.
  - simpl. apply list_elem_of_here.
  - simpl. right. right. left. lia.
Defined.

(** X3.  User ids of [-n_users, 0) are not rejected: a call with ids in
    [-n_users, n_users) ends exactly as the call in which every negative id
    [u] is replaced by [u + n_users]. *)
Theorem negative_user_ids_wrap s fuel phase user_ids num :
  wf s ->
  Forall (fun u => (- Z.of_nat (n_users s) <= u < Z.of_nat (n_users s))%Z) user_ids ->
  sample_by_user_ids fuel s phase user_ids num
  = sample_by_user_ids fuel s phase (wrapped (n_users s) <$> user_ids) num.
Proof.
  intros Hwf Hids. unfold sample_by_user_ids, sample_body.
  destruct (used_item_id s !! phase) as [rows |] eqn:Hrows; [| done].
  pose proof (wf_rows s Hwf _ _ Hrows) as Hlen. rewrite <- Hlen in Hids.
  rewrite <- Hlen. rewrite (np_take_wrapped rows user_ids Hids).
  destruct (np_take_in_range rows user_ids Hids) as (picked & -> & _).
  pose proof (fill_Raised fuel (np_repeat picked num) s) as Hr.
  destruct (fill fuel (np_repeat picked num) s) as [r s1 | e s1 |]; [done | | done].
  by destruct (Hr e s1 (wf_length s Hwf) eq_refl) as [-> _].
Qed.

Lemma negative_user_ids_wrap_witness :
  exists s, scenario = Ok s /\
    sample_by_user_ids 5 s "train" [-2; 1]%Z 2
    = sample_by_user_ids 5 s "train" (wrapped (n_users s) <$> [-2; 1]%Z) 2.
Proof.
  eexists. split; [vm_compute; reflexivity |].
  apply negative_user_ids_wrap.
  - apply (init_wf identity_shuffle (Single "train") (Single scenario_train) "uniform").
    vm_compute. reflexivity.
  - simpl. constructor; [lia |]. constructor; [lia | constructor].
Defined.

(** X4.  On a sampler as construction leaves it, a call never returns
    [None]: the fall-through of the two handlers is never reached.  With a
    declared phase and user ids in [-n_users, n_users) it raises no
    [ValueError] either: it returns an array, or every slot's loop runs out of
    fuel, or, on an empty pool only, it raises [ZeroDivisionError]. *)
Theorem sample_outcomes s fuel phase user_ids num :
  wf s ->
  (forall s', sample_by_user_ids fuel s phase user_ids num <> Returned None s') /\
  (phase ∈ phases s ->
   Forall (fun u => (- Z.of_nat (n_users s) <= u < Z.of_nat (n_users s))%Z) user_ids ->
   (exists ids s', sample_by_user_ids fuel s phase user_ids num = Returned (Some ids) s' /\
      length ids = (length user_ids * num)%nat) \/
   sample_by_user_ids fuel s phase user_ids num = Diverged \/
   (random_item_list s = [] /\
    exists s', sample_by_user_ids fuel s phase user_ids num = Raised ZeroDivisionError s')).
Proof.
  intros Hwf. pose proof (wf_length s Hwf) as Hlen. split.
  - intros s'. unfold sample_by_user_ids, sample_body.
    destruct (used_item_id s !! phase) as [rows |] eqn:Hrows.
    + destruct (np_take rows user_ids) as [picked | e] eqn:Htake.
      * pose proof (fill_Raised fuel (np_repeat picked num) s) as Hr.
        destruct (fill fuel (np_repeat picked num) s) as [r s1 | e s1 |]; [done | | done].
        by destruct (Hr e s1 Hlen eq_refl) as [-> _].
      * apply np_take_Raise in Htake as [-> Hbad].
        destruct (first_bad_user_Some (n_users s) user_ids) as (u & -> & _ & _); [| done].
        rewrite <- (wf_rows s Hwf _ _ Hrows).
        eapply Exists_impl; [done |]. simpl. lia.
    + rewrite decide_False; [done |]. intros Hin%(wf_phases s Hwf).
      rewrite Hrows in Hin. by destruct Hin.
  - intros Hph Hids. unfold sample_by_user_ids, sample_body.
    apply (wf_phases s Hwf) in Hph as [rows Hrows]. rewrite Hrows.
    rewrite <- (wf_rows s Hwf _ _ Hrows) in Hids.
    destruct (np_take_in_range rows user_ids Hids) as (picked & -> & Hpl).
    pose proof (fill_Raised fuel (np_repeat picked num) s) as Hr.
    destruct (fill fuel (np_repeat picked num) s) as [r s1 | e s1 |] eqn:Hfill.
    + left. exists r, s1. split; [done |].
      assert (Hrl : forall (l : list (gset Z)) s0 r0 s2,
                 fill fuel l s0 = Returned r0 s2 -> length r0 = length l).
      { clear. induction l as [| used rest IH]; intros s0 r0 s2; simpl.
        - by intros [= <- _].
        - destruct (draw_unseen fuel used s0) as [c s3 | |]; [| done | done].
          destruct (fill fuel rest s3) as [r3 s4 | |] eqn:Hf; [| done | done].
          intros [= <- _]. simpl. f_equal. by eapply IH. }
      rewrite (Hrl _ _ _ _ Hfill), np_repeat_length. by rewrite Hpl.
    + right. right. destruct (Hr e s1 Hlen eq_refl) as [-> Hnil]. split; [done |]. by exists s1.
    + right. by left.
Qed.

Lemma sample_outcomes_witness :
  exists s, scenario = Ok s /\
  (forall s', sample_by_user_ids 5 s "train" [-1; 0]%Z 2 <> Returned None s') /\
  ("train" ∈ phases s ->
   Forall (fun u => (- Z.of_nat (n_users s) <= u < Z.of_nat (n_users s))%Z) [-1; 0]%Z ->
   (exists ids s', sample_by_user_ids 5 s "train" [-1; 0]%Z 2 = Returned (Some ids) s' /\
      length ids = (length [-1; 0]%Z * 2)%nat) \/
   sample_by_user_ids 5 s "train" [-1; 0]%Z 2 = Diverged \/
   (random_item_list s = [] /\
    exists s', sample_by_user_ids 5 s "train" [-1; 0]%Z 2 = Raised ZeroDivisionError s')).
Proof.
  eexists. split; [vm_compute; reflexivity |].
  apply sample_outcomes.
  apply (init_wf identity_shuffle (Single "train") (Single scenario_train) "uniform").
  vm_compute. reflexivity.
Defined.

(** *** What a returned draw has found *)

Lemma resample_Returned fuel used : forall cur s item s',
  random_item_list_length s = length (random_item_list s) ->
  resample fuel used cur s = Returned item s' ->
  (item ∉ used) /\ (item = cur \/ item ∈ random_item_list s).
Proof.
  induction fuel as [| fuel IH]; intros cur s item s' Hlen; simpl; case_decide; try done;
    try (intros [= <- _]; split; [done | by left]).
  destruct (random_item_cases s Hlen) as [[Hnil ->] | (x & Hne & Hx & ->)]; [done |].
  intros Hr. apply IH in Hr as [Hnin Hor]; [| done]. split; [done |]. right.
  destruct Hor as [-> | ?]; [| done]. by eapply list_elem_of_lookup_2.
Qed.

Lemma draw_unseen_Returned fuel used s item s' :
  random_item_list_length s = length (random_item_list s) ->
  draw_unseen fuel used s = Returned item s' ->
  (item ∉ used) /\ item ∈ random_item_list s.
Proof.
  intros Hlen. unfold draw_unseen.
  destruct (random_item_cases s Hlen) as [[Hnil ->] | (x & Hne & Hx & ->)]; [done |].
  intros Hr. apply resample_Returned in Hr as [Hnin Hor]; [| done]. split; [done |].
  destruct Hor as [-> | ?]; [| done]. by eapply list_elem_of_lookup_2.
Qed.

Lemma fill_Returned fuel (l : list (gset Z)) : forall s ids s',
  random_item_list_length s = length (random_item_list s) ->
  fill fuel l s = Returned ids s' ->
  Forall2 (fun item used => item ∈ random_item_list s /\ item ∉ used) ids l.
Proof.
  induction l as [| used rest IH]; intros s ids s' Hlen; simpl.
  - intros [= <- _]. constructor.
  - pose proof (draw_unseen_Returned fuel used s) as Hd.
    pose proof (draw_unseen_frame fuel used s) as Hf.
    destruct (draw_unseen fuel used s) as [c s1 | e1 s1 |]; [| done | done].
    destruct (Hf s1 eq_refl) as [pr ->].
    pose proof (IH (set_random_pr s pr)) as IH'.
    destruct (fill fuel rest (set_random_pr s pr)) as [r s2 | e2 s2 |]; [| done | done].
    intros [= <- _]. constructor; [| by eapply (IH' r s2)].
    destruct (Hd c _ Hlen eq_refl). by split.
Qed.

Lemma fill_app fuel (l1 l2 : list (gset Z)) : forall s,
  fill fuel (l1 ++ l2) s =
  match fill fuel l1 s with
  | Returned r1 s1 =>
      match fill fuel l2 s1 with
      | Returned r2 s2 => Returned (r1 ++ r2) s2
      | Raised e s2 => Raised e s2
      | Diverged => Diverged
      end
  | Raised e s1 => Raised e s1
  | Diverged => Diverged
  end.
Proof.
  induction l1 as [| used rest IH]; intros s; simpl.
  - by destruct (fill fuel l2 s).
  - destruct (draw_unseen fuel used s) as [c s1 | e1 s1 |]; [| done | done].
    rewrite IH. destruct (fill fuel rest s1) as [r1 s2 | |]; [| done | done].
    by destruct (fill fuel l2 s2).
Qed.

Lemma np_take_app {A} (arr : list A) (ids1 ids2 : list Z) :
  np_take arr (ids1 ++ ids2) =
  rbind (np_take arr ids1) (fun p1 => rbind (np_take arr ids2) (fun p2 => Ok (p1 ++ p2))).
Proof.
  induction ids1 as [| i ids1 IH]; simpl.
  - by destruct (np_take arr ids2).
  - destruct (np_getitem arr i); simpl; [| done]. rewrite IH.
    destruct (np_take arr ids1); simpl; [| done]. by destruct (np_take arr ids2).
Qed.

Lemma sample_Returned_inv fuel s phase user_ids num ids s' :
  wf s ->
  sample_by_user_ids fuel s phase user_ids num = Returned (Some ids) s' ->
  exists rows picked,
    used_item_id s !! phase = Some rows /\
    np_take rows user_ids = Ok picked /\
    fill fuel (np_repeat picked num) s = Returned ids s'.
Proof.
  intros Hwf. unfold sample_by_user_ids, sample_body.
  destruct (used_item_id s !! phase) as [rows |] eqn:Hrows.
  - destruct (np_take rows user_ids) as [picked | e] eqn:Htake.
    + pose proof (fill_Raised fuel (np_repeat picked num) s) as Hr.
      destruct (fill fuel (np_repeat picked num) s) as [r s1 | e s1 |] eqn:Hfill;
        [| | done].
      * intros [= <- <-]. by exists rows, picked.
      * by destruct (Hr e s1 (wf_length s Hwf) eq_refl) as [-> _].
    + apply np_take_Raise in Htake as [-> _]. by destruct (first_bad_user _ _).
  - by case_decide.
Qed.

(** X5.  With a declared phase and user ids in [-n_users, n_users), a call
    that asks for nothing ([user_ids] empty or [num = 0]) returns the empty
    array and leaves the cursor where it was, also on an empty pool; a call
    that asks for at least one sample from an empty pool raises
    [ZeroDivisionError], which neither handler catches. *)
Theorem empty_request_and_empty_pool s fuel phase user_ids num :
  wf s -> phase ∈ phases s ->
  Forall (fun u => (- Z.of_nat (n_users s) <= u < Z.of_nat (n_users s))%Z) user_ids ->
  ((length user_ids * num = 0)%nat ->
     sample_by_user_ids fuel s phase user_ids num = Returned (Some []) s) /\
  ((length user_ids * num <> 0)%nat -> random_item_list s = [] ->
     sample_by_user_ids fuel s phase user_ids num = Raised ZeroDivisionError s).
Proof.
  intros Hwf Hph Hids. unfold sample_by_user_ids, sample_body.
  apply (wf_phases s Hwf) in Hph as [rows Hrows]. rewrite Hrows.
  rewrite <- (wf_rows s Hwf _ _ Hrows) in Hids.
  destruct (np_take_in_range rows user_ids Hids) as (picked & -> & Hpl).
  pose proof (np_repeat_length picked num) as Hlen. rewrite Hpl in Hlen. split.
  - intros H0. rewrite H0 in Hlen. by apply nil_length_inv in Hlen as ->.
  - intros Hn Hnil. destruct (np_repeat picked num) as [| used rest]; [simpl in Hlen; lia |].
    simpl. unfold draw_unseen. by rewrite (random_item_empty s (wf_length s Hwf) Hnil).
Qed.

Lemma empty_request_and_empty_pool_witness :
  exists s, empty_pool = Ok s /\
  ((length [0%Z] * 0 = 0)%nat ->
     sample_by_user_ids 3 s "train" [0%Z] 0 = Returned (Some []) s) /\
  ((length [0%Z] * 0 <> 0)%nat -> random_item_list s = [] ->
     sample_by_user_ids 3 s "train" [0%Z] 0 = Raised ZeroDivisionError s).
Proof.
  eexists. split; [vm_compute; reflexivity |].
  apply empty_request_and_empty_pool.
  - apply (init_wf identity_shuffle (Single "train")
             (Single {| user_num := 1; item_num := 0; inter_feat := [] |}) "uniform").
    vm_compute. reflexivity.
  - simpl. apply list_elem_of_here.
  - simpl. constructor; [lia | constructor].
Defined.

(** X6.  Whenever a call returns an array, whatever the user ids (negative
    ones wrap around), it has [len(user_ids) * num] slots, and slot [i] holds
    an entry of the pool that is not in the cumulative seen set of the user
    that [user_ids[i / num]] indexes. *)
Theorem returned_samples_are_unseen s fuel phase user_ids num ids s' :
  wf s ->
  sample_by_user_ids fuel s phase user_ids num = Returned (Some ids) s' ->
  length ids = (length user_ids * num)%nat /\
  forall i x, ids !! i = Some x ->
    x ∈ random_item_list s /\
    exists u, user_ids !! (i / num)%nat = Some u /\
      (- Z.of_nat (n_users s) <= u < Z.of_nat (n_users s))%Z /\
      x ∉ seen s phase (wrapped (n_users s) u).
Proof.
  intros Hwf (rows & picked & Hrows & Htake & Hfill)%sample_Returned_inv; [| done].
  pose proof (wf_rows s Hwf _ _ Hrows) as Hlen.
  pose proof (fill_Returned _ _ _ _ _ (wf_length s Hwf) Hfill) as Hids.
  assert (Hpicked : Forall2 (fun u a =>
                      (- Z.of_nat (n_users s) <= u < Z.of_nat (n_users s))%Z /\
                      rows !! Z.to_nat (wrapped (n_users s) u) = Some a) user_ids picked).
  { clear Hfill Hids. revert picked Htake.
    induction user_ids as [| u l IH]; intros picked; simpl.
    - intros [= <-]. constructor.
    - unfold np_getitem. destruct (np_index (length rows) u) as [k |] eqn:Hk; [| done].
      simpl. destruct (rows !! k) as [a |] eqn:Ha; [| done]. simpl.
      destruct (np_take rows l) as [r |]; [| done]. simpl. intros [= <-].
      constructor; [| by apply IH].
      rewrite <- Hlen. unfold np_index, wrapped in *.
      repeat case_decide; simplify_eq; try (exfalso; lia); (split; [lia | done]). }
  split.
  - rewrite (Forall2_length _ _ _ Hids), np_repeat_length.
    by rewrite <- (Forall2_length _ _ _ Hpicked).
  - intros i x Hx.
    destruct (Forall2_lookup_l _ _ _ _ _ Hids Hx) as (used & Hused & Hin & Hnin).
    apply np_repeat_lookup in Hused.
    destruct (Forall2_lookup_r _ _ _ _ _ Hpicked Hused) as (u & Hu & Hrange & Ha).
    split; [done |]. exists u. split; [done |]. split; [done |].
    unfold seen. rewrite Hrows. simpl. by rewrite Ha.
Qed.

Lemma returned_samples_are_unseen_witness :
  exists s, scenario = Ok s /\
  length [0; 3]%Z = (length [(-2)%Z] * 2)%nat /\
  forall i x, [0; 3]%Z !! i = Some x ->
    x ∈ random_item_list s /\
    exists u, [(-2)%Z] !! (i / 2)%nat = Some u /\
      (- Z.of_nat (n_users s) <= u < Z.of_nat (n_users s))%Z /\
      x ∉ seen s "train" (wrapped (n_users s) u).
Proof.
  eexists. split; [vm_compute; reflexivity |].
  eapply (returned_samples_are_unseen _ 5 "train" [(-2)%Z] 2).
  - apply (init_wf identity_shuffle (Single "train") (Single scenario_train) "uniform").
    vm_compute. reflexivity.
  - vm_compute. reflexivity.
Defined.

(** X7.  Sampling for a concatenated list of users is sampling for the first
    list and then, from the state that leaves, for the second: the arrays are
    concatenated and the final cursor is that of the second call. *)
Theorem sample_concatenated_users s fuel phase ids1 ids2 num r1 s1 r2 s2 :
  wf s ->
  sample_by_user_ids fuel s phase ids1 num = Returned (Some r1) s1 ->
  sample_by_user_ids fuel s1 phase ids2 num = Returned (Some r2) s2 ->
  sample_by_user_ids fuel s phase (ids1 ++ ids2) num = Returned (Some (r1 ++ r2)) s2.
Proof.
  intros Hwf H1 H2.
  destruct (sample_by_user_ids_frame fuel s phase ids1 num s1) as [pr ->];
    [by rewrite H1 |].
  apply sample_Returned_inv in H1 as (rows & p1 & Hrows & Ht1 & Hf1); [| done].
  apply sample_Returned_inv in H2 as (rows' & p2 & Hrows' & Ht2 & Hf2);
    [| by apply set_random_pr_wf].
  simpl in Hrows'. rewrite Hrows in Hrows'. injection Hrows' as <-.
  unfold sample_by_user_ids, sample_body. rewrite Hrows, np_take_app, Ht1, Ht2. simpl.
  unfold np_repeat. rewrite bind_app, fill_app.
  unfold np_repeat in Hf1, Hf2. by rewrite Hf1, Hf2.
Qed.

Lemma sample_concatenated_users_witness :
  exists s, scenario = Ok s /\
    sample_by_user_ids 5 s "train" ([0%Z] ++ [1%Z]) 2
    = Returned (Some ([0; 3] ++ [4; 0])%Z) (set_random_pr s 6).
Proof.
  eexists. split; [vm_compute; reflexivity |].
  eapply (sample_concatenated_users _ 5 "train" [0%Z] [1%Z] 2).
  - apply (init_wf identity_shuffle (Single "train") (Single scenario_train) "uniform").
    vm_compute. reflexivity.
  - vm_compute. reflexivity.
  - vm_compute. reflexivity.
Defined.

(** *** The cursor *)

Lemma draw_unseen_cursor fuel used s pr item s' :
  random_item_list_length s = length (random_item_list s) ->
  draw_unseen fuel used (set_random_pr s pr) = Returned item s' ->
  exists pr', s' = set_random_pr s pr' /\ pr < pr' <= pr + length (random_item_list s).
Proof.
  intros Hlen Hd.
  destruct (draw_unseen_Returned fuel used (set_random_pr s pr) item s' Hlen Hd)
    as [Hnin Hin].
  destruct (draw_unseen_finds used s pr (fuel `max` length (random_item_list s)) Hlen)
    as (item' & pr' & Hd' & Hpr & _); [by exists item | lia |].
  rewrite (draw_unseen_mono used fuel) in Hd' by (rewrite ?Hd; done || lia).
  rewrite Hd in Hd'. injection Hd' as -> ->. by exists pr'.
Qed.

Lemma fill_cursor fuel (l : list (gset Z)) : forall s pr ids s',
  random_item_list_length s = length (random_item_list s) ->
  fill fuel l (set_random_pr s pr) = Returned ids s' ->
  exists pr', s' = set_random_pr s pr' /\
    pr + length l <= pr' <= pr + length l * length (random_item_list s).
Proof.
  induction l as [| used rest IH]; intros s pr ids s' Hlen; simpl.
  - intros [= _ <-]. exists pr. split; [done | lia].
  - pose proof (draw_unseen_cursor fuel used s pr) as Hd.
    destruct (draw_unseen fuel used (set_random_pr s pr)) as [c s1 | |]; [| done | done].
    destruct (Hd c s1 Hlen eq_refl) as (pr1 & -> & Hpr1).
    pose proof (IH s pr1) as IH'.
    destruct (fill fuel rest (set_random_pr s pr1)) as [r s2 | |]; [| done | done].
    destruct (IH' r s2 Hlen eq_refl) as (pr2 & -> & Hpr2).
    intros [= _ <-]. exists pr2. split; [done | nia].
Qed.

(** X8.  Whenever a call returns an array, only the cursor has changed, and it
    has advanced by at least one pool entry and at most [len(pool)] entries
    per returned sample. *)
Theorem cursor_advance_bounds s fuel phase user_ids num ids s' :
  wf s ->
  sample_by_user_ids fuel s phase user_ids num = Returned (Some ids) s' ->
  s' = set_random_pr s (random_pr s') /\
  random_pr s + length ids <= random_pr s' /\
  random_pr s' <= random_pr s + length ids * length (random_item_list s).
Proof.
  intros Hwf Hs.
  apply sample_Returned_inv in Hs as (rows & picked & Hrows & Htake & Hfill); [| done].
  pose proof (fill_Returned _ _ _ _ _ (wf_length s Hwf) Hfill) as Hids.
  rewrite <- (set_random_pr_id s) in Hfill.
  apply fill_cursor in Hfill as (pr' & -> & Hpr); [| by apply wf_length].
  rewrite (Forall2_length _ _ _ Hids). simpl. split; [done | lia].
Qed.

Lemma cursor_advance_bounds_witness :
  exists s, scenario = Ok s /\
  set_random_pr s 5 = set_random_pr s (random_pr (set_random_pr s 5)) /\
  random_pr s + length [0; 3; 4]%Z <= random_pr (set_random_pr s 5) /\
  random_pr (set_random_pr s 5)
    <= random_pr s + length [0; 3; 4]%Z * length (random_item_list s).
Proof.
  eexists. split; [vm_compute; reflexivity |].
  eapply (cursor_advance_bounds _ 5 "train" [0%Z] 3).
  - apply (init_wf identity_shuffle (Single "train") (Single scenario_train) "uniform").
    vm_compute. reflexivity.
  - vm_compute. reflexivity.
Defined.

(** *** One turn of the pool later *)

Lemma random_item_period s :
  random_item_list_length s = length (random_item_list s) ->
  random_item (set_random_pr s (random_pr s + length (random_item_list s)))
  = advance (length (random_item_list s)) (random_item s).
Proof.
  intros Hlen. unfold random_item. simpl. rewrite Hlen. case_decide; [done |].
  replace (random_pr s + length (random_item_list s))
    with (random_pr s + 1 * length (random_item_list s)) at 1 by lia.
  rewrite Nat.Div0.mod_add.
  by destruct (random_item_list s !! _).
Qed.

Lemma resample_period fuel used : forall cur s,
  random_item_list_length s = length (random_item_list s) ->
  resample fuel used cur (set_random_pr s (random_pr s + length (random_item_list s)))
  = advance (length (random_item_list s)) (resample fuel used cur s).
Proof.
  induction fuel as [| fuel IH]; intros cur s Hlen; simpl; case_decide; try done.
  rewrite (random_item_period s Hlen).
  destruct (random_item_cases s Hlen) as [[Hnil ->] | (x & Hne & Hx & ->)]; [done |].
  simpl. exact (IH x (set_random_pr s (S (random_pr s))) Hlen).
Qed.

Lemma draw_unseen_period fuel used s :
  random_item_list_length s = length (random_item_list s) ->
  draw_unseen fuel used (set_random_pr s (random_pr s + length (random_item_list s)))
  = advance (length (random_item_list s)) (draw_unseen fuel used s).
Proof.
  intros Hlen. unfold draw_unseen. rewrite (random_item_period s Hlen).
  destruct (random_item_cases s Hlen) as [[Hnil ->] | (x & Hne & Hx & ->)]; [done |].
  simpl. exact (resample_period fuel used x (set_random_pr s (S (random_pr s))) Hlen).
Qed.

Lemma fill_period fuel (l : list (gset Z)) : forall s,
  random_item_list_length s = length (random_item_list s) ->
  fill fuel l (set_random_pr s (random_pr s + length (random_item_list s)))
  = advance (length (random_item_list s)) (fill fuel l s).
Proof.
  induction l as [| used rest IH]; intros s Hlen; simpl; [done |].
  rewrite (draw_unseen_period fuel used s Hlen).
  pose proof (draw_unseen_frame fuel used s) as Hf.
  destruct (draw_unseen fuel used s) as [c s1 | e1 s1 |]; [| done | done].
  destruct (Hf s1 eq_refl) as [pr ->]. simpl.
  pose proof (IH (set_random_pr s pr) Hlen) as IH'. simpl in IH'. rewrite IH'.
  by destruct (fill fuel rest (set_random_pr s pr)).
Qed.

(** X9.  What a call returns depends on the cursor only modulo the length of
    the pool: from a cursor [len(pool)] entries further the call ends in the
    same way, with the same array, and leaves the cursor [len(pool)] entries
    further. *)
Theorem sample_period s fuel phase user_ids num :
  wf s ->
  sample_by_user_ids fuel
    (set_random_pr s (random_pr s + length (random_item_list s))) phase user_ids num
  = advance (length (random_item_list s)) (sample_by_user_ids fuel s phase user_ids num).
Proof.
  intros Hwf. pose proof (wf_length s Hwf) as Hlen.
  unfold sample_by_user_ids, sample_body. simpl.
  destruct (used_item_id s !! phase) as [rows |].
  2: { change (phases (set_random_pr s _)) with (phases s).
       by destruct (decide (phase ∈ phases s)). }
  destruct (np_take rows user_ids) as [picked | e].
  - rewrite (fill_period fuel _ s Hlen).
    pose proof (fill_Raised fuel (np_repeat picked num) s) as Hr.
    destruct (fill fuel (np_repeat picked num) s) as [r s1 | e s1 |]; [done | | done].
    by destruct (Hr e s1 Hlen eq_refl) as [-> _].
  - destruct e; try done.
    + change (phases (set_random_pr s _)) with (phases s).
      by destruct (decide (phase ∈ phases s)).
    + change (n_users (set_random_pr s _)) with (n_users s).
      by destruct (first_bad_user (n_users s) user_ids).
Qed.

Lemma sample_period_witness :
  exists s, scenario = Ok s /\
  sample_by_user_ids 5
    (set_random_pr s (random_pr s + length (random_item_list s))) "train" [0%Z] 3
  = advance (length (random_item_list s)) (sample_by_user_ids 5 s "train" [0%Z] 3).
Proof.
  eexists. split; [vm_compute; reflexivity |].
  apply sample_period.
  apply (init_wf identity_shuffle (Single "train") (Single scenario_train) "uniform").
  vm_compute. reflexivity.
Defined.

(** *** The samples as a reading of the pool *)

Lemma consumed_nil s pr : consumed s pr pr = [].
Proof. unfold consumed. by rewrite Nat.sub_diag. Qed.

Lemma consumed_cons s pr pr' x :
  pr < pr' -> entry_at s pr = Some x ->
  consumed s pr pr' = x :: consumed s (S pr) pr'.
Proof.
  intros Hlt Hx. unfold consumed.
  replace (pr' - pr) with (S (pr' - S pr)) by lia. simpl. by rewrite Hx.
Qed.

Lemma consumed_app s a b c :
  a <= b -> b <= c -> consumed s a c = consumed s a b ++ consumed s b c.
Proof.
  intros Hab Hbc. unfold consumed.
  replace (c - a) with ((b - a) + (c - b)) by lia.
  rewrite seq_app, omap_app. by replace (a + (b - a)) with b by lia.
Qed.

Lemma resample_trace fuel used s : forall cur pr item s',
  random_item_list_length s = length (random_item_list s) ->
  resample fuel used cur (set_random_pr s pr) = Returned item s' ->
  exists pr', s' = set_random_pr s pr' /\ pr <= pr' /\
    filter (fun x => x ∉ used) (cur :: consumed s pr pr') = [item].
Proof.
  induction fuel as [| fuel IH]; intros cur pr item s' Hlen; simpl.
  - case_decide; [done |]. intros [= <- <-]. exists pr. split; [done |]. split; [done |].
    rewrite consumed_nil. by rewrite filter_cons_True, filter_nil.
  - case_decide as Hcur.
    + destruct (random_item_cases (set_random_pr s pr) Hlen)
        as [[Hnil ->] | (x & Hne & Hx & ->)]; [done |].
      intros (pr' & -> & Hle & Hf)%IH; [| done]. simpl in Hle.
      exists pr'. split; [done |]. split; [lia |].
      rewrite filter_cons_False by (by intros ?).
      by rewrite (consumed_cons s pr pr' x) by (done || lia).
    + intros [= <- <-]. exists pr. split; [done |]. split; [done |].
      rewrite consumed_nil. by rewrite filter_cons_True, filter_nil.
Qed.

Lemma draw_unseen_trace fuel used s pr item s' :
  random_item_list_length s = length (random_item_list s) ->
  draw_unseen fuel used (set_random_pr s pr) = Returned item s' ->
  exists pr', s' = set_random_pr s pr' /\ pr < pr' /\
    filter (fun x => x ∉ used) (consumed s pr pr') = [item].
Proof.
  intros Hlen. unfold draw_unseen.
  destruct (random_item_cases (set_random_pr s pr) Hlen)
    as [[Hnil ->] | (x & Hne & Hx & ->)]; [done |].
  intros (pr' & -> & Hle & Hf)%resample_trace; [| done]. simpl in Hle.
  exists pr'. split; [done |]. split; [lia |].
  by rewrite (consumed_cons s pr pr' x) by (done || lia).
Qed.

Lemma fill_trace fuel used s k : forall pr ids s',
  random_item_list_length s = length (random_item_list s) ->
  fill fuel (replicate k used) (set_random_pr s pr) = Returned ids s' ->
  exists pr', s' = set_random_pr s pr' /\ pr <= pr' /\
    filter (fun x => x ∉ used) (consumed s pr pr') = ids.
Proof.
  induction k as [| k IH]; intros pr ids s' Hlen; simpl.
  - intros [= <- <-]. exists pr. split; [done |]. split; [done |]. by rewrite consumed_nil.
  - pose proof (draw_unseen_trace fuel used s pr) as Hd.
    destruct (draw_unseen fuel used (set_random_pr s pr)) as [c s1 | |]; [| done | done].
    destruct (Hd c s1 Hlen eq_refl) as (pr1 & -> & Hpr1 & Hf1).
    pose proof (IH pr1) as IH'.
    destruct (fill fuel (replicate k used) (set_random_pr s pr1)) as [r s2 | |];
      [| done | done].
    destruct (IH' r s2 Hlen eq_refl) as (pr2 & -> & Hpr2 & Hf2).
    intros [= <- <-]. exists pr2. split; [done |]. split; [lia |].
    rewrite (consumed_app s pr pr1 pr2) by lia. by rewrite filter_app, Hf1, Hf2.
Qed.

(** X10.  The samples drawn for one user are exactly the pool entries outside
    that user's cumulative seen set among the entries the call has read, in
    the order of the pool: nothing unseen is skipped, and the pool is read in
    cyclic order from the cursor. *)
Theorem samples_are_the_unseen_entries_read s fuel phase u num ids s' :
  wf s ->
  sample_by_user_ids fuel s phase [u] num = Returned (Some ids) s' ->
  random_pr s <= random_pr s' /\
  ids = filter (fun x => x ∉ seen s phase (wrapped (n_users s) u))
          (consumed s (random_pr s) (random_pr s')).
Proof.
  intros Hwf (rows & picked & Hrows & Htake & Hfill)%sample_Returned_inv; [| done].
  pose proof (wf_rows s Hwf _ _ Hrows) as Hlen.
  simpl in Htake. unfold np_getitem in Htake.
  destruct (np_index (length rows) u) as [k |] eqn:Hk; [| done]. simpl in Htake.
  destruct (rows !! k) as [a |] eqn:Ha; [| done]. simpl in Htake.
  injection Htake as <-.
  assert (Hseen : seen s phase (wrapped (n_users s) u) = a).
  { unfold seen. rewrite Hrows. simpl. rewrite <- Hlen.
    unfold np_index, wrapped in *.
    repeat case_decide; simplify_eq; try (exfalso; lia); by rewrite Ha. }
  unfold np_repeat in Hfill.
  change ([a] ≫= replicate num) with (replicate num a ++ []) in Hfill.
  rewrite app_nil_r in Hfill.
  rewrite <- (set_random_pr_id s) in Hfill.
  apply fill_trace in Hfill as (pr' & -> & Hle & <-); [| by apply wf_length].
  simpl. by rewrite Hseen.
Qed.

Lemma samples_are_the_unseen_entries_read_witness :
  exists s, scenario = Ok s /\
  random_pr s <= random_pr (set_random_pr s 5) /\
  [0; 3; 4]%Z = filter (fun x => x ∉ seen s "train" (wrapped (n_users s) 0))
                  (consumed s (random_pr s) (random_pr (set_random_pr s 5))).
Proof.
  eexists. split; [vm_compute; reflexivity |].
  eapply (samples_are_the_unseen_entries_read _ 5 "train" 0%Z 3).
  - apply (init_wf identity_shuffle (Single "train") (Single scenario_train) "uniform").
    vm_compute. reflexivity.
  - vm_compute. reflexivity.
Defined.

(** *** One turn of the pool reads every entry once *)

Lemma omap_lookup_seq {A} (l k : list A) :
  omap (fun i => (k ++ l) !! i) (seq (length k) (length l)) = l.
Proof.
  revert k. induction l as [| x l IH]; intros k; simpl; [done |].
  rewrite list_lookup_middle by done. f_equal.
  specialize (IH (k ++ [x])). rewrite length_app, Nat.add_1_r in IH. simpl in IH.
  by rewrite <- app_assoc in IH.
Qed.

Lemma consumed_first_turn s :
  consumed s 0 (length (random_item_list s)) = random_item_list s.
Proof.
  unfold consumed. rewrite Nat.sub_0_r.
  etransitivity; [| apply (omap_lookup_seq (random_item_list s) [])].
  apply list_omap_ext, Forall_Forall2_diag, Forall_forall.
  intros i Hi%elem_of_seq. unfold entry_at. simpl in *.
  by rewrite Nat.mod_small by lia.
Qed.

Lemma entry_at_period s pr :
  entry_at s (pr + length (random_item_list s)) = entry_at s pr.
Proof.
  unfold entry_at.
  replace (pr + length (random_item_list s))
    with (pr + 1 * length (random_item_list s)) by lia.
  by rewrite Nat.Div0.mod_add.
Qed.

Lemma entry_at_is_Some s pr :
  random_item_list s <> [] -> exists x, entry_at s pr = Some x /\ x ∈ random_item_list s.
Proof.
  intros Hne. unfold entry_at.
  destruct (lookup_lt_is_Some_2 (random_item_list s) (pr mod length (random_item_list s)))
    as [x Hx].
  { apply Nat.mod_upper_bound. by destruct (random_item_list s). }
  exists x. split; [done |]. by eapply list_elem_of_lookup_2.
Qed.

Lemma consumed_snoc s pr pr' x :
  pr <= pr' -> entry_at s pr' = Some x ->
  consumed s pr (S pr') = consumed s pr pr' ++ [x].
Proof.
  intros Hle Hx. rewrite (consumed_app s pr pr' (S pr')) by lia. f_equal.
  unfold consumed. replace (S pr' - pr') with 1 by lia. simpl. by rewrite Hx.
Qed.

(** Every window of [len(pool)] consecutive cursor values reads the pool,
    rotated. *)
Lemma consumed_turn s pr :
  consumed s pr (pr + length (random_item_list s)) ≡ₚ random_item_list s.
Proof.
  destruct (decide (random_item_list s = [])) as [Hnil | Hne].
  { unfold consumed. rewrite Hnil. simpl.
    replace (pr + 0 - pr) with 0 by lia. done. }
  assert (HL : 0 < length (random_item_list s)).
  { destruct (random_item_list s); [done | simpl; lia]. }
  induction pr as [| pr IH].
  - simpl. by rewrite consumed_first_turn.
  - destruct (entry_at_is_Some s pr Hne) as (x & Hx & _).
    etransitivity; [| exact IH].
    rewrite (consumed_cons s pr (pr + length (random_item_list s)) x) by (done || lia).
    replace (S pr + length (random_item_list s))
      with (S (pr + length (random_item_list s))) by lia.
    rewrite (consumed_snoc s (S pr) (pr + length (random_item_list s)) x);
      [| lia | by rewrite entry_at_period].
    apply Permutation_app_comm.
Qed.

Lemma resample_last fuel used s : forall cur q item s',
  random_item_list_length s = length (random_item_list s) ->
  entry_at s q = Some cur ->
  resample fuel used cur (set_random_pr s (S q)) = Returned item s' ->
  exists q', s' = set_random_pr s (S q') /\ q <= q' /\
    entry_at s q' = Some item /\ item ∉ used.
Proof.
  induction fuel as [| fuel IH]; intros cur q item s' Hlen Hcur; simpl.
  - case_decide; [done |]. intros [= <- <-]. by exists q.
  - case_decide.
    + destruct (random_item_cases (set_random_pr s (S q)) Hlen)
        as [[Hnil ->] | (x & Hne & Hx & ->)]; [done |].
      intros Hr.
      destruct (IH x (S q) item s' Hlen Hx Hr) as (q' & -> & Hle & Hq').
      exists q'. split; [done |]. split; [lia | done].
    + intros [= <- <-]. by exists q.
Qed.

Lemma draw_unseen_last fuel used s pr item s' :
  random_item_list_length s = length (random_item_list s) ->
  draw_unseen fuel used (set_random_pr s pr) = Returned item s' ->
  exists q', s' = set_random_pr s (S q') /\ pr <= q' /\
    entry_at s q' = Some item /\ item ∉ used.
Proof.
  intros Hlen. unfold draw_unseen.
  destruct (random_item_cases (set_random_pr s pr) Hlen)
    as [[Hnil ->] | (x & Hne & Hx & ->)]; [done |].
  intros Hr. exact (resample_last fuel used s x pr item s' Hlen Hx Hr).
Qed.

Lemma fill_last fuel used s k : forall pr ids s',
  random_item_list_length s = length (random_item_list s) ->
  fill fuel (replicate (S k) used) (set_random_pr s pr) = Returned ids s' ->
  exists q' x, s' = set_random_pr s (S q') /\ pr <= q' /\
    entry_at s q' = Some x /\ x ∉ used.
Proof.
  induction k as [| k IH]; intros pr ids s' Hlen.
  - simpl. pose proof (draw_unseen_last fuel used s pr) as Hd.
    destruct (draw_unseen fuel used (set_random_pr s pr)) as [c s1 | |]; [| done | done].
    destruct (Hd c s1 Hlen eq_refl) as (q' & -> & Hq & Hc & Hnin).
    intros [= <- <-]. by exists q', c.
  - change (replicate (S (S k)) used) with (used :: replicate (S k) used).
    cbn [fill].
    pose proof (draw_unseen_trace fuel used s pr) as Hd.
    destruct (draw_unseen fuel used (set_random_pr s pr)) as [c s1 | |]; [| done | done].
    destruct (Hd c s1 Hlen eq_refl) as (pr1 & -> & Hpr1 & _).
    pose proof (IH pr1) as IH'.
    destruct (fill fuel (replicate (S k) used) (set_random_pr s pr1)) as [r s2 | |];
      [| done | done].
    destruct (IH' r s2 Hlen eq_refl) as (pr2 & x & -> & Hpr2 & Hx & Hnin).
    intros [= <- <-]. exists pr2, x. split; [done |]. split; [lia | done].
Qed.

Lemma sample_one_user_inv s fuel phase u num ids s' :
  wf s ->
  sample_by_user_ids fuel s phase [u] num = Returned (Some ids) s' ->
  fill fuel (replicate num (seen s phase (wrapped (n_users s) u))) s = Returned ids s'.
Proof.
  intros Hwf (rows & picked & Hrows & Htake & Hfill)%sample_Returned_inv; [| done].
  pose proof (wf_rows s Hwf _ _ Hrows) as Hlen.
  simpl in Htake. unfold np_getitem in Htake.
  destruct (np_index (length rows) u) as [k |] eqn:Hk; [| done]. simpl in Htake.
  destruct (rows !! k) as [a |] eqn:Ha; [| done]. simpl in Htake.
  injection Htake as <-.
  assert (Hseen : seen s phase (wrapped (n_users s) u) = a).
  { unfold seen. rewrite Hrows. simpl. rewrite <- Hlen.
    unfold np_index, wrapped in *.
    repeat case_decide; simplify_eq; try (exfalso; lia); by rewrite Ha. }
  unfold np_repeat in Hfill.
  change ([a] ≫= replicate num) with (replicate num a ++ []) in Hfill.
  rewrite app_nil_r in Hfill. by rewrite Hseen.
Qed.

(** X11.  When the pool has no repeated entry (as under the uniform
    distribution) and one user is asked for no more samples than the pool has
    entries outside that user's seen set, the call reads at most one turn of
    the pool and the samples it returns are pairwise distinct. *)
Theorem samples_of_one_turn_are_distinct s fuel phase u num ids s' :
  wf s -> NoDup (random_item_list s) ->
  num <= length (filter (fun x => x ∉ seen s phase (wrapped (n_users s) u))
                   (random_item_list s)) ->
  sample_by_user_ids fuel s phase [u] num = Returned (Some ids) s' ->
  random_pr s' <= random_pr s + length (random_item_list s) /\ NoDup ids.
Proof.
  intros Hwf Hnd Hnum Hs. pose proof (wf_length s Hwf) as Hlen.
  apply sample_one_user_inv in Hs; [| done].
  set (used := seen s phase (wrapped (n_users s) u)) in *.
  pose proof (fill_Returned _ _ _ _ _ Hlen Hs) as Hids%Forall2_length.
  rewrite length_replicate in Hids.
  rewrite <- (set_random_pr_id s) in Hs.
  destruct (fill_trace _ _ _ _ _ _ _ Hlen Hs) as (pr' & -> & Hle & Hf).
  simpl.
  assert (Hturn : pr' <= random_pr s + length (random_item_list s)).
  { destruct num as [| k].
    { simpl in Hs. injection Hs as _ Hs. lia. }
    destruct (fill_last _ _ _ _ _ _ _ Hlen Hs) as (q' & x & Heq & Hq & Hx & Hnin).
    assert (pr' = S q') as -> by (by injection Heq).
    destruct (decide (S q' <= random_pr s + length (random_item_list s))) as [| Hgt];
      [done | exfalso].
    rewrite (consumed_snoc s _ q' x) in Hf by done.
    rewrite (consumed_app s (random_pr s) (random_pr s + length (random_item_list s)) q')
      in Hf by lia.
    apply (f_equal length) in Hf.
    rewrite !filter_app, !length_app, (consumed_turn s (random_pr s)) in Hf.
    rewrite (filter_cons_True _ x) in Hf by done. simpl in Hf. lia. }
  split; [done |]. rewrite <- Hf. apply NoDup_filter.
  assert (Hall : NoDup (consumed s (random_pr s) (random_pr s + length (random_item_list s))))
    by (by rewrite consumed_turn).
  rewrite (consumed_app s (random_pr s) pr') in Hall by lia.
  by apply NoDup_app in Hall as [? _].
Qed.

Lemma samples_of_one_turn_are_distinct_witness :
  exists s, scenario = Ok s /\
  random_pr (set_random_pr s 5) <= random_pr s + length (random_item_list s) /\
  NoDup [0; 3; 4]%Z.
Proof.
  eexists. split; [vm_compute; reflexivity |].
  eapply (samples_of_one_turn_are_distinct _ 5 "train" 0%Z 3).
  - apply (init_wf identity_shuffle (Single "train") (Single scenario_train) "uniform").
    vm_compute. reflexivity.
  - simpl. apply (NoDup_fmap_2 Z.of_nat (seq 0 5)), NoDup_seq.
  - vm_compute. lia.
  - vm_compute. reflexivity.
Defined.

(** *** When construction succeeds *)

Lemma add_inters_not_indexable rows : forall cur,
  Exists (fun row : Z * Z =>
            (row.1 < - Z.of_nat (length cur) \/ Z.of_nat (length cur) <= row.1)%Z) rows ->
  add_inters cur rows = Raise IndexError.
Proof.
  induction rows as [| row rows IH]; intros cur Hrows; [by inversion Hrows |].
  simpl. unfold add_inter.
  destruct (np_index (length cur) row.1) as [k |] eqn:Hk; [| done].
  simpl. apply IH. apply Exists_cons in Hrows as [Hrow | Hrows].
  - apply np_index_lt in Hk as Hlt. unfold np_index in Hk.
    repeat case_decide; simplify_eq; lia.
  - by rewrite length_alter.
Qed.

Lemma accumulate_not_indexable pds : forall tbl last,
  Exists (fun d => ~ rows_indexable (length last) d) pds.*2 ->
  accumulate tbl last pds = Raise IndexError.
Proof.
  induction pds as [| [p d] pds IH]; intros tbl last Hex; [by inversion Hex |].
  simpl in *.
  destruct (decide (rows_indexable (length last) d)) as [Hd | Hd].
  - destruct (add_inters_indexable (inter_feat d) last Hd) as (cur & -> & Hlen). simpl.
    apply IH. rewrite Hlen. apply Exists_cons in Hex as [? | ?]; done.
  - rewrite add_inters_not_indexable; [done |].
    apply not_Forall_Exists in Hd; [| intros ?; apply _].
    eapply Exists_impl; [done |]. simpl. lia.
Qed.

(** X12.  With a legal distribution name, construction returns a sampler
    exactly when there are as many phases as datasets, at least one dataset,
    and every row of every dataset has a user id in [-n_users, n_users), where
    [n_users] is the first dataset's [user_num].  The sampler then has its
    cursor at 0, the recorded pool length, the declared phases as the keys of
    its seen sets, and the first dataset's numbers of users and items.
    Otherwise construction raises: [ValueError] for lists of different
    lengths, [IndexError] when there is no dataset or when a user id cannot
    be indexed. *)
Theorem construction_outcome rng phases0 datasets0 distribution :
  legal_distribution distribution = true ->
  match as_list datasets0 with
  | [] =>
      init rng phases0 datasets0 distribution
      = Raise (if decide (as_list phases0 = []) then IndexError
               else ValueError PhasesDatasetsLength)
  | d0 :: _ =>
      if decide (length (as_list phases0) = length (as_list datasets0)) then
        if decide (Forall (rows_indexable (user_num d0)) (as_list datasets0)) then
          exists s, init rng phases0 datasets0 distribution = Ok s /\
            wf s /\ random_pr s = 0 /\ phases s = as_list phases0 /\
            n_users s = user_num d0 /\ n_items s = item_num d0
        else init rng phases0 datasets0 distribution = Raise IndexError
      else init rng phases0 datasets0 distribution = Raise (ValueError PhasesDatasetsLength)
  end.
Proof.
  intros Hlegal. unfold init. rewrite Hlegal. simpl.
  destruct (as_list datasets0) as [| d0 ds] eqn:Hds.
  - case_bool_decide as Hlen; simpl.
    + rewrite decide_True; [done |]. by apply nil_length_inv.
    + rewrite decide_False; [done |]. intros E. by rewrite E in Hlen.
  - case_bool_decide as Hlen; simpl.
    2: { by rewrite decide_False. }
    rewrite decide_True by done.
    assert (Hpool : exists pool, build_pool distribution (item_num d0) (d0 :: ds) = Ok pool).
    { unfold build_pool. unfold legal_distribution in Hlegal.
      destruct (decide (distribution = "uniform")); [by eexists |].
      destruct (decide (distribution = "popularity")); [by eexists |].
      rewrite !bool_decide_eq_false_2 in Hlegal by done. done. }
    destruct Hpool as [pool Hpool]. rewrite Hpool. simpl.
    set (pds := zip (as_list phases0) (d0 :: ds)).
    assert (Hsnd : pds.*2 = d0 :: ds) by (apply snd_zip; lia).
    case_decide as Hrows.
    + destruct (accumulate_indexable pds ∅ (replicate (user_num d0) ∅)) as [tbl Htbl].
      { by rewrite length_replicate, Hsnd. }
      rewrite Htbl. simpl. eexists. split; [reflexivity |]. split; [| done].
      apply (init_wf rng phases0 datasets0 distribution). unfold init.
      rewrite Hlegal, Hds. simpl. rewrite bool_decide_eq_true_2 by done. simpl.
      rewrite Hpool. simpl. fold pds. by rewrite Htbl.
    + rewrite accumulate_not_indexable; [done |].
      rewrite length_replicate, Hsnd.
      apply not_Forall_Exists in Hrows; [done |]. intros d. apply _.
Qed.

Lemma construction_outcome_witness :
  exists s, scenario = Ok s /\
    wf s /\ random_pr s = 0 /\ phases s = ["train"] /\
    n_users s = user_num scenario_train /\ n_items s = item_num scenario_train.
Proof.
  exact (construction_outcome identity_shuffle (Single "train") (Single scenario_train)
           "uniform" eq_refl).
Defined.

(** *** The popularity pool *)

Lemma count_iid_column (x : Z) (rows : list (Z * Z)) :
  length (filter (fun y => y = x) rows.*2) = length (filter (fun row => row.2 = x) rows).
Proof.
  induction rows as [| row rows IH]; [done |].
  rewrite fmap_cons, !filter_cons. simpl. repeat case_decide; simpl; try done; by rewrite IH.
Qed.

Lemma count_iid_columns (x : Z) (datasets : list Dataset) :
  length (filter (fun y => y = x) (concat (iid_column <$> datasets)))
  = length (filter (fun row => row.2 = x) (concat (inter_feat <$> datasets))).
Proof.
  induction datasets as [| d ds IH]; [done |].
  rewrite !fmap_cons. simpl. rewrite !filter_app, !length_app, IH.
  unfold iid_column. by rewrite count_iid_column.
Qed.

(** X13.  Under the popularity distribution every item id occurs in the
    sampler's pool exactly as often as it occurs in the interactions of the
    datasets, and every id that any later call returns is the item of some
    interaction: an item nobody interacted with is never sampled. *)
Theorem popularity_pool rng phases0 datasets0 s :
  init rng phases0 datasets0 "popularity" = Ok s ->
  (forall x,
     length (filter (fun y => y = x) (random_item_list s))
     = length (filter (fun row => row.2 = x) (concat (inter_feat <$> as_list datasets0)))) /\
  (forall s1 fuel phase user_ids num ids s' x,
     reachable s s1 ->
     sample_by_user_ids fuel s1 phase user_ids num = Returned (Some ids) s' ->
     x ∈ ids ->
     exists d row, d ∈ as_list datasets0 /\ row ∈ inter_feat d /\ row.2 = x).
Proof.
  intros Hinit. pose proof (init_wf _ _ _ _ _ Hinit) as Hwf.
  destruct (init_Ok _ _ _ _ _ Hinit) as (d0 & ds & pool & tbl & _ & _ & _ & Hpool & _ & Hs).
  unfold build_pool in Hpool. simpl in Hpool. injection Hpool as <-.
  assert (Hperm : random_item_list s ≡ₚ concat (iid_column <$> as_list datasets0)).
  { rewrite Hs. simpl. apply shuffle_perm. }
  split.
  - intros x. rewrite Hperm. apply count_iid_columns.
  - intros s1 fuel phase user_ids num ids s' x Hreach Hcall Hx.
    pose proof (reachable_wf _ _ Hwf Hreach) as Hwf1.
    destruct (reachable_frame _ _ Hreach) as [pr ->].
    apply sample_Returned_inv in Hcall as (rows & picked & _ & _ & Hfill); [| done].
    apply fill_Returned in Hfill; [| by apply wf_length].
    apply list_elem_of_lookup in Hx as [i Hi].
    destruct (Forall2_lookup_l _ _ _ _ _ Hfill Hi) as (used & _ & Hin & _).
    simpl in Hin. rewrite Hperm in Hin.
    apply list_elem_of_In, in_concat in Hin as (col & Hcol%list_elem_of_In & Hx%list_elem_of_In).
    apply list_elem_of_fmap in Hcol as (d & -> & Hd).
    apply list_elem_of_fmap in Hx as (row & -> & Hrow).
    by exists d, row.
Qed.

Lemma popularity_pool_witness :
  exists s, popular = Ok s /\
  (forall x,
     length (filter (fun y => y = x) (random_item_list s))
     = length (filter (fun row => row.2 = x) (concat (inter_feat <$> [popular_train])))) /\
  (forall s1 fuel phase user_ids num ids s' x,
     reachable s s1 ->
     sample_by_user_ids fuel s1 phase user_ids num = Returned (Some ids) s' ->
     x ∈ ids ->
     exists d row, d ∈ [popular_train] /\ row ∈ inter_feat d /\ row.2 = x).
Proof.
  eexists. split; [vm_compute; reflexivity |].
  apply (popularity_pool identity_shuffle (Single "train") (Single popular_train)).
  vm_compute. reflexivity.
Defined.

End SamplerExtras.

End SamplerSpec.

(** ** Properties of the FISSA scoring path *)

Module FISSASpec.
Import FISSA.

#[local] Open Scope R_scope.

Section Traversals.

Lemma bind_Ok {A B} (r : result A) (k : A -> result B) (b : B) :
  r ≫= k = Ok b <-> exists a, r = Ok a /\ k a = Ok b.
Proof.
  destruct r as [a | e]; simpl; split.
  - intros H. by exists a.
  - by intros (a' & [= <-] & H).
  - done.
  - by intros (a' & [=] & _).
Qed.

Lemma traverse_pure {A B} (f : A -> result B) (h : A -> B) (P : A -> Prop) (l : list A) :
  (forall a, a ∈ l -> forall c, f a = Ok c <-> P a /\ c = h a) ->
  forall r, traverse f l = Ok r <-> Forall P l /\ r = h <$> l.
Proof.
  induction l as [| a l IH]; intros Hf r; simpl.
  - split; [intros [= <-]; by split | by intros [_ ->]].
  - assert (Hl : forall a', a' ∈ l -> forall c, f a' = Ok c <-> P a' /\ c = h a').
    { intros a' Ha'. apply Hf. by right. }
    specialize (IH Hl). rewrite bind_Ok. split.
    + intros (b & Hb & Hrest). apply bind_Ok in Hrest as (r' & Hr' & [= <-]).
      apply Hf in Hb as [HP ->]; [| by left]. apply IH in Hr' as [Hall ->].
      split; [by constructor | done].
    + intros [Hall ->]. apply Forall_cons in Hall as [HP Hall].
      exists (h a). split; [apply Hf; [by left | done] |].
      apply bind_Ok. exists (h <$> l). split; [by apply IH | done].
Qed.

Lemma zip_with_zip_fmap {A B C} (h : A -> B -> C) (l : list A) (k : list B) :
  (fun p => h p.1 p.2) <$> zip l k = zip_with h l k.
Proof.
  revert k. induction l as [| a l IH]; intros [| b k]; simpl; try done. by rewrite IH.
Qed.

Lemma Forall_zip {A B} (P : A -> B -> Prop) (l : list A) (k : list B) :
  length l = length k ->
  Forall (fun p => P p.1 p.2) (zip l k) <-> Forall2 P l k.
Proof.
  revert k. induction l as [| a l IH]; intros [| b k] Hlen; simpl in *; try lia.
  - split; constructor.
  - rewrite Forall_cons, Forall2_cons, IH by lia. done.
Qed.

Lemma broadcast_pure {A B C} (f : A -> B -> result C) (h : A -> B -> C)
    (P : A -> B -> Prop) (l : list A) (k : list B) :
  length l = length k ->
  (forall a b, a ∈ l -> b ∈ k -> forall c, f a b = Ok c <-> P a b /\ c = h a b) ->
  forall r, broadcast f l k = Ok r <-> Forall2 P l k /\ r = zip_with h l k.
Proof.
  intros Hlen Hf r. unfold broadcast. rewrite decide_True by done.
  rewrite (traverse_pure _ (fun p => h p.1 p.2) (fun p => P p.1 p.2)).
  - by rewrite Forall_zip, zip_with_zip_fmap.
  - intros [a b] Hin c. simpl. apply Hf.
    + by eapply elem_of_zip_l.
    + by eapply elem_of_zip_r.
Qed.

Lemma traverse_all_Ok {A B} (f : A -> result B) (h : A -> B) (l : list A) :
  (forall a, a ∈ l -> f a = Ok (h a)) -> traverse f l = Ok (h <$> l).
Proof.
  intros Hf. apply (traverse_pure f h (fun _ => True)).
  - intros a Ha c. rewrite (Hf a Ha). split; [by intros [= <-] | by intros [_ ->]].
  - split; [by apply Forall_true | done].
Qed.

Lemma bzip_same_length {A B C} (h : A -> B -> C) (l : list A) (k : list B) :
  length l = length k -> bzip h l k = zip_with h l k.
Proof. intros Hlen. unfold bzip. by rewrite decide_True. Qed.

Lemma bzip_scalar {A B C} (h : A -> B -> C) (l : list A) (b : B) :
  bzip h l [b] = (fun a => h a b) <$> l.
Proof.
  unfold bzip. case_decide as Hlen.
  - destruct l as [| a [| a' l]]; simpl in *; try lia. done.
  - destruct l as [| a [| a' l]]; simpl in *; try lia; done.
Qed.

Lemma broadcast_Ok_pure {A B C} (h : A -> B -> C) (l : list A) (k : list B) (r : list C) :
  broadcast (fun a b => Ok (h a b)) l k = Ok r <->
  compatible (length l) (length k) /\ r = bzip h l k.
Proof.
  unfold broadcast, bzip, compatible. case_decide as Hlen.
  - rewrite (traverse_all_Ok _ (fun p => h p.1 p.2)) by done.
    rewrite zip_with_zip_fmap. split; [intros [= <-]; auto | by intros [_ ->]].
  - destruct l as [| a [| a' l]], k as [| b [| b' k]]; simpl in *; try lia;
      rewrite ?(traverse_all_Ok _ (h a)), ?(traverse_all_Ok _ (fun a0 => h a0 b)) by done;
      simpl;
      first [ by (split; [intros [= <-]; auto | by intros [_ ->]])
            | by (split; [done | intros [[?|[?|?]] _]; lia]) ].
Qed.

(** An elementwise operation on two tensors of rank 3 whose first two axes
    agree: it returns when the sizes of the last axis are compatible
    everywhere. *)
Lemma tensor_op_pure (h : R -> R -> R) (a b : tensor3) :
  length a = length b ->
  (forall x y, x ∈ a -> y ∈ b -> length x = length y) ->
  forall r,
    broadcast (broadcast (broadcast (fun x y => Ok (h x y)))) a b = Ok r <->
    Forall2 (Forall2 (fun u v : vec => compatible (length u) (length v))) a b /\
    r = zip_with (zip_with (bzip h)) a b.
Proof.
  intros Hlen Hrows. apply broadcast_pure; [done |].
  intros x y Hx Hy. apply broadcast_pure; [by apply Hrows |].
  intros u v _ _ c. apply broadcast_Ok_pure.
Qed.

Lemma cat_dim2_Ok (a b : tensor3) :
  length a = length b ->
  (forall x y, x ∈ a -> y ∈ b -> length x = length y) ->
  cat_dim2 a b = Ok (zip_with (zip_with app) a b).
Proof.
  intros Hlen Hrows. unfold cat_dim2. rewrite decide_True by done.
  rewrite (traverse_all_Ok _ (fun p => zip_with app p.1 p.2)).
  - by rewrite zip_with_zip_fmap.
  - intros [x y] Hin. simpl. unfold cat_dim1. rewrite decide_True; [done |].
    apply Hrows; [by eapply elem_of_zip_l | by eapply elem_of_zip_r].
Qed.

Lemma gating_lr_Ok m (v : vec) (z : R) :
  gating_lr m v = Ok z <->
  length v = length (gating_lr_weight m) /\
  z = dot (gating_lr_weight m) v + gating_lr_bias m.
Proof.
  unfold gating_lr. case_decide; split; try done.
  - intros [= <-]. done.
  - by intros [_ ->].
  - by intros [? _].
Qed.

End Traversals.

Section FissaFacts.

Implicit Types (m : t) (x y last cand : vec).

Lemma sigmoid_bounds (z : R) : 0 < sigmoid z < 1.
Proof.
  unfold sigmoid. pose proof (exp_pos (- z)) as He.
  assert (Hinv : 0 < / (1 + exp (- z))) by (apply Rinv_0_lt_compat; lra).
  assert (Hone : (1 + exp (- z)) * / (1 + exp (- z)) = 1) by (apply Rinv_r; lra).
  unfold Rdiv. nra.
Qed.

Lemma traverse_Ok {A B} (f : A -> result B) (l : list A) (r : list B) :
  traverse f l = Ok r -> Forall2 (fun a b => f a = Ok b) l r.
Proof.
  revert r. induction l as [| a l IH]; intros r; simpl.
  - intros [= <-]. constructor.
  - destruct (f a) as [b |] eqn:Hb; simpl; [| done].
    destruct (traverse f l) as [r' |]; simpl; [| done].
    intros [= <-]. constructor; [done | by apply IH].
Qed.

Lemma traverse_total {A B} (f : A -> result B) (l : list A) :
  Forall (fun a => exists b, f a = Ok b) l -> exists r, traverse f l = Ok r.
Proof.
  induction 1 as [| a l [b Hb] _ [r Hr]]; simpl.
  - by eexists.
  - rewrite Hb. simpl. rewrite Hr. simpl. by eexists.
Qed.

Lemma embedding_Ok (weight : mat) (i : Z) (row : vec) :
  embedding weight i = Ok row <-> (0 <= i)%Z /\ weight !! Z.to_nat i = Some row.
Proof.
  unfold embedding. case_decide; [| split; [done | tauto]].
  destruct (weight !! Z.to_nat i); split; try done.
  - by intros [= ->].
  - by intros [_ [= ->]].
  - by intros [_ ?].
Qed.

(** *** [cal_final] on a batch *)

Section CalFinal.

Context (m : t) (seq_x seq_y last_embedding : mat) (cands : tensor3).
Context (Hx : length seq_x = length cands) (Hy : length seq_y = length cands).
Context (Hl : length last_embedding = length cands).
Context (Hrect : Forall (fun cs : mat => length cs = size1 cands) cands).

#[local] Abbreviation C := (size1 cands).
#[local] Abbreviation isg :=
  (zip_with (zip_with app) (replicate C <$> zip_with app last_embedding seq_y) cands).
#[local] Abbreviation hg :=
  (fun v : vec => [sigmoid (dot (gating_lr_weight m) v + gating_lr_bias m)]).
#[local] Abbreviation G := (fmap (M := list) (fmap (M := list) hg) isg).
#[local] Abbreviation G' :=
  (fmap (M := list) (fmap (M := list) (fmap (M := list) (fun v => 1 - v))) G).
#[local] Abbreviation XG := (zip_with (zip_with (bzip Rmult)) (replicate C <$> seq_x) G).
#[local] Abbreviation YG := (zip_with (zip_with (bzip Rmult)) (replicate C <$> seq_y) G').

Lemma cal_final_rows b (cs : mat) : cands !! b = Some cs -> length cs = C.
Proof. intros Hb. apply (proj1 (Forall_lookup _ _) Hrect b cs Hb). Qed.

Lemma isg_lookup b y l (cs : mat) :
  seq_y !! b = Some y -> last_embedding !! b = Some l -> cands !! b = Some cs ->
  isg !! b = Some ((fun cand => (l ++ y) ++ cand) <$> cs).
Proof.
  intros Hyb Hlb Hcb.
  rewrite lookup_zip_with, list_lookup_fmap, lookup_zip_with, Hlb, Hyb, Hcb. simpl.
  rewrite (zip_with_replicate_l app); [done |]. by rewrite (cal_final_rows b).
Qed.

Lemma cal_final_lookups b :
  (b < length cands)%nat ->
  exists x y l (cs : mat),
    seq_x !! b = Some x /\ seq_y !! b = Some y /\ last_embedding !! b = Some l /\
    cands !! b = Some cs.
Proof.
  intros Hb.
  destruct (lookup_lt_is_Some_2 seq_x b) as [x Hxb]; [lia |].
  destruct (lookup_lt_is_Some_2 seq_y b) as [y Hyb]; [lia |].
  destruct (lookup_lt_is_Some_2 last_embedding b) as [l Hlb]; [lia |].
  destruct (lookup_lt_is_Some_2 cands b) as [cs Hcb]; [lia |].
  by exists x, y, l, cs.
Qed.

Lemma isg_length : length isg = length cands.
Proof.
  rewrite length_zip_with, length_fmap, length_zip_with. lia.
Qed.

Lemma isg_rows (row : mat) : row ∈ isg -> length row = C.
Proof.
  intros [b Hb]%list_elem_of_lookup.
  destruct (cal_final_lookups b) as (x & y & l & cs & Hxb & Hyb & Hlb & Hcb).
  { rewrite <- isg_length. by eapply lookup_lt_Some. }
  rewrite (isg_lookup b y l cs) in Hb by done. injection Hb as <-.
  by rewrite length_fmap, (cal_final_rows b).
Qed.

Lemma G_lookup b y l (cs : mat) :
  seq_y !! b = Some y -> last_embedding !! b = Some l -> cands !! b = Some cs ->
  G !! b = Some ((fun cand => [gate m l y cand]) <$> cs).
Proof.
  intros Hyb Hlb Hcb.
  rewrite list_lookup_fmap, (isg_lookup b y l cs) by done. simpl.
  by rewrite <- list_fmap_compose.
Qed.

Lemma XG_lookup b x y l (cs : mat) :
  seq_x !! b = Some x -> seq_y !! b = Some y -> last_embedding !! b = Some l ->
  cands !! b = Some cs ->
  XG !! b = Some ((fun cand => (fun xd => xd * gate m l y cand) <$> x) <$> cs).
Proof.
  intros Hxb Hyb Hlb Hcb.
  rewrite lookup_zip_with, (G_lookup b y l cs), list_lookup_fmap, Hxb by done. simpl.
  rewrite (zip_with_replicate_l (bzip Rmult)) by (by rewrite length_fmap, (cal_final_rows b)).
  rewrite <- list_fmap_compose. f_equal. apply list_fmap_ext. intros i cand _. simpl.
  apply bzip_scalar.
Qed.

Lemma YG_lookup b y l (cs : mat) :
  seq_y !! b = Some y -> last_embedding !! b = Some l -> cands !! b = Some cs ->
  YG !! b = Some ((fun cand => (fun yd => yd * (1 - gate m l y cand)) <$> y) <$> cs).
Proof.
  intros Hyb Hlb Hcb.
  rewrite lookup_zip_with, (list_lookup_fmap _ G), (G_lookup b y l cs) by done.
  rewrite list_lookup_fmap, Hyb. simpl. rewrite <- !list_fmap_compose.
  rewrite (zip_with_replicate_l (bzip Rmult)) by (by rewrite length_fmap, (cal_final_rows b)).
  rewrite <- list_fmap_compose. f_equal. apply list_fmap_ext. intros i cand _. simpl.
  apply bzip_scalar.
Qed.

Lemma G_rows (row : mat) : row ∈ G -> length row = C.
Proof.
  intros (row0 & -> & Hrow0)%list_elem_of_fmap. rewrite length_fmap. by apply isg_rows.
Qed.

Lemma G'_rows (row : mat) : row ∈ G' -> length row = C.
Proof.
  intros (row0 & -> & Hrow0)%list_elem_of_fmap. rewrite length_fmap. by apply G_rows.
Qed.

Lemma replicate_rows (sx : mat) (row : mat) : row ∈ replicate C <$> sx -> length row = C.
Proof. intros (x & -> & _)%list_elem_of_fmap. by rewrite length_replicate. Qed.

Lemma gates_Ok (r : tensor3) :
  traverse (traverse (fun v => z ← gating_lr m v; Ok [sigmoid z])) isg = Ok r <->
  Forall (Forall (fun v : vec => length v = length (gating_lr_weight m))) isg /\ r = G.
Proof.
  apply traverse_pure. intros row _. apply traverse_pure. intros v _ c.
  rewrite bind_Ok. split.
  - intros (z & [Hlen ->]%gating_lr_Ok & [= <-]). done.
  - intros [Hlen ->]. eexists. split; [by apply gating_lr_Ok | done].
Qed.

Lemma seq_x_g_Ok : tmul (replicate C <$> seq_x) G = Ok XG.
Proof.
  apply tensor_op_pure.
  - rewrite !length_fmap, isg_length. lia.
  - intros x y Hxin Hyin. by rewrite (replicate_rows seq_x x), (G_rows y).
  - split; [| done]. apply Forall2_same_length_lookup_2.
    { rewrite !length_fmap, isg_length. lia. }
    intros b xs gs Hxs Hgs. apply Forall2_same_length_lookup_2.
    { rewrite (replicate_rows seq_x xs), (G_rows gs); [done | |];
        by eapply list_elem_of_lookup_2. }
    intros c x g _ Hg.
    rewrite !list_lookup_fmap in Hgs.
    destruct (isg !! b) as [row |]; [| done]. injection Hgs as <-.
    rewrite list_lookup_fmap in Hg. destruct (row !! c); [| done]. injection Hg as <-.
    right. by right.
Qed.

Lemma seq_y_g_Ok : tmul (replicate C <$> seq_y) G' = Ok YG.
Proof.
  apply tensor_op_pure.
  - rewrite !length_fmap, isg_length. lia.
  - intros x y Hxin Hyin. by rewrite (replicate_rows seq_y x), (G'_rows y).
  - split; [| done]. apply Forall2_same_length_lookup_2.
    { rewrite !length_fmap, isg_length. lia. }
    intros b xs gs Hxs Hgs. apply Forall2_same_length_lookup_2.
    { rewrite (replicate_rows seq_y xs), (G'_rows gs); [done | |];
        by eapply list_elem_of_lookup_2. }
    intros c x g _ Hg.
    rewrite !list_lookup_fmap in Hgs.
    destruct (isg !! b) as [row |]; [| done]. injection Hgs as <-.
    rewrite !list_lookup_fmap in Hg. destruct (row !! c); [| done]. injection Hg as <-.
    right. by right.
Qed.

Lemma fused_lookup b x y l (cs : mat) :
  seq_x !! b = Some x -> seq_y !! b = Some y -> last_embedding !! b = Some l ->
  cands !! b = Some cs ->
  fused m seq_x seq_y last_embedding cands !! b = Some (fuse m x y l <$> cs).
Proof.
  intros Hxb Hyb Hlb Hcb. unfold fused.
  rewrite lookup_zip_with, !lookup_zip_with, Hxb, Hyb, Hlb, Hcb. done.
Qed.

Lemma fused_length : length (fused m seq_x seq_y last_embedding cands) = length cands.
Proof. unfold fused. rewrite !length_zip_with. lia. Qed.

Lemma seq_x_g_length : length XG = length cands.
Proof. rewrite length_zip_with, !length_fmap, isg_length. lia. Qed.

Lemma seq_y_g_length : length YG = length cands.
Proof. rewrite length_zip_with, !length_fmap, isg_length. lia. Qed.

Lemma sum_of_products :
  zip_with (zip_with (bzip Rplus)) XG YG = fused m seq_x seq_y last_embedding cands.
Proof.
  apply list_eq. intros b.
  destruct (decide (b < length cands)%nat) as [Hb | Hb].
  - destruct (cal_final_lookups b Hb) as (x & y & l & cs & Hxb & Hyb & Hlb & Hcb).
    rewrite (fused_lookup b x y l cs) by done.
    rewrite lookup_zip_with, (XG_lookup b x y l cs), (YG_lookup b y l cs) by done. simpl.
    by rewrite zip_with_fmap_l, zip_with_fmap_r, zip_with_diag.
  - rewrite !(proj2 (lookup_ge_None _ _)); [done | |].
    + rewrite fused_length. lia.
    + rewrite length_zip_with, seq_x_g_length. lia.
Qed.

Lemma widths_accepted :
  Forall (Forall (fun v : vec => length v = length (gating_lr_weight m))) isg <->
  forall b y l (cs : mat) cand,
    seq_y !! b = Some y -> last_embedding !! b = Some l -> cands !! b = Some cs ->
    cand ∈ cs -> length ((l ++ y) ++ cand) = length (gating_lr_weight m).
Proof.
  split.
  - intros Hall b y l cs cand Hyb Hlb Hcb Hcand.
    pose proof (proj1 (Forall_lookup _ _) Hall b _ (isg_lookup b y l cs Hyb Hlb Hcb)) as Hrow.
    rewrite Forall_fmap in Hrow. apply (proj1 (Forall_forall _ _) Hrow cand Hcand).
  - intros Hall. apply Forall_lookup_2. intros b row Hrow.
    destruct (cal_final_lookups b) as (x & y & l & cs & Hxb & Hyb & Hlb & Hcb).
    { rewrite <- isg_length. by eapply lookup_lt_Some. }
    rewrite (isg_lookup b y l cs) in Hrow by done. injection Hrow as <-.
    apply Forall_fmap, Forall_forall. intros cand Hcand. simpl. by eapply Hall.
Qed.

Lemma sizes_accepted :
  Forall2 (Forall2 (fun u v : vec => compatible (length u) (length v))) XG YG <->
  forall b x y (cs : mat),
    seq_x !! b = Some x -> seq_y !! b = Some y -> cands !! b = Some cs ->
    cs <> [] -> compatible (length x) (length y).
Proof.
  split.
  - intros Hall b x y cs Hxb Hyb Hcb Hne.
    destruct (lookup_lt_is_Some_2 last_embedding b) as [l Hlb].
    { apply lookup_lt_Some in Hcb. lia. }
    pose proof (Forall2_lookup_lr _ _ _ _ _ _ Hall (XG_lookup b x y l cs Hxb Hyb Hlb Hcb)
                  (YG_lookup b y l cs Hyb Hlb Hcb)) as Hrow.
    destruct cs as [| cand cs]; [done |].
    rewrite !fmap_cons in Hrow. apply Forall2_cons in Hrow as [Hc _].
    by rewrite !length_fmap in Hc.
  - intros Hall. apply Forall2_same_length_lookup_2.
    { by rewrite seq_x_g_length, seq_y_g_length. }
    intros b xs ys Hxs Hys.
    destruct (cal_final_lookups b) as (x & y & l & cs & Hxb & Hyb & Hlb & Hcb).
    { rewrite <- seq_x_g_length. by eapply lookup_lt_Some. }
    rewrite (XG_lookup b x y l cs) in Hxs by done. injection Hxs as <-.
    rewrite (YG_lookup b y l cs) in Hys by done. injection Hys as <-.
    apply Forall2_fmap, Forall_Forall2_diag, Forall_forall. intros cand Hcand.
    rewrite !length_fmap. eapply Hall; try done. intros ->. by apply elem_of_nil in Hcand.
Qed.

(** [cal_final] returns exactly when the gate accepts the width of every
    concatenation and the two representations have compatible widths, and
    then it returns [fused]. *)
Lemma cal_final_Ok_iff (out : tensor3) :
  cal_final m seq_x seq_y last_embedding cands = Ok out <->
  (forall b x y l (cs : mat) cand,
     seq_x !! b = Some x -> seq_y !! b = Some y -> last_embedding !! b = Some l ->
     cands !! b = Some cs -> cand ∈ cs -> fusable m x y l cand) /\
  out = fused m seq_x seq_y last_embedding cands.
Proof.
  unfold cal_final. cbv zeta.
  unfold cat_dim1 at 1. rewrite decide_True by lia. simpl.
  rewrite cat_dim2_Ok; cycle 1.
  { rewrite length_fmap, length_zip_with. lia. }
  { intros x y Hxin Hyin. rewrite (replicate_rows _ x Hxin).
    symmetry. apply (proj1 (Forall_forall _ _) Hrect y Hyin). }
  simpl. rewrite bind_Ok.
  assert (Hsum : forall r, tadd XG YG = Ok r <->
            Forall2 (Forall2 (fun u v : vec => compatible (length u) (length v))) XG YG /\
            r = zip_with (zip_with (bzip Rplus)) XG YG).
  { apply tensor_op_pure.
    - by rewrite seq_x_g_length, seq_y_g_length.
    - intros xs ys [b Hxs]%list_elem_of_lookup [b' Hys]%list_elem_of_lookup.
      destruct (cal_final_lookups b) as (x & y & l & cs & Hxb & Hyb & Hlb & Hcb).
      { rewrite <- seq_x_g_length. by eapply lookup_lt_Some. }
      destruct (cal_final_lookups b') as (x' & y' & l' & cs' & Hxb' & Hyb' & Hlb' & Hcb').
      { rewrite <- seq_y_g_length. by eapply lookup_lt_Some. }
      rewrite (XG_lookup b x y l cs) in Hxs by done. injection Hxs as <-.
      rewrite (YG_lookup b' y' l' cs') in Hys by done. injection Hys as <-.
      by rewrite !length_fmap, (cal_final_rows b), (cal_final_rows b'). }
  split.
  - intros (g & [Hw ->]%gates_Ok & Hrest).
    rewrite seq_x_g_Ok in Hrest. simpl in Hrest.
    rewrite seq_y_g_Ok in Hrest. simpl in Hrest.
    apply Hsum in Hrest as [Hc ->]. split; [| apply sum_of_products].
    intros b x y l cs cand Hxb Hyb Hlb Hcb Hcand. split.
    + by eapply (proj1 widths_accepted Hw).
    + eapply (proj1 sizes_accepted Hc); try done. intros ->. by apply elem_of_nil in Hcand.
  - intros [Hall ->]. exists G. split.
    + apply gates_Ok. split; [| done]. apply widths_accepted.
      intros b y l cs cand Hyb Hlb Hcb Hcand.
      destruct (lookup_lt_is_Some_2 seq_x b) as [x Hxb].
      { apply lookup_lt_Some in Hcb. lia. }
      by destruct (Hall b x y l cs cand).
    + rewrite seq_x_g_Ok. simpl. rewrite seq_y_g_Ok. simpl.
      apply Hsum. split; [| by rewrite sum_of_products]. apply sizes_accepted.
      intros b x y cs Hxb Hyb Hcb Hne.
      destruct (lookup_lt_is_Some_2 last_embedding b) as [l Hlb].
      { apply lookup_lt_Some in Hcb. lia. }
      destruct cs as [| cand cs]; [done |].
      destruct (Hall b x y l (cand :: cs) cand); try done. by left.
Qed.

Lemma scored_lookup b x y l (cs : mat) :
  seq_x !! b = Some x -> seq_y !! b = Some y -> last_embedding !! b = Some l ->
  cands !! b = Some cs ->
  scored m seq_x seq_y last_embedding cands !! b = Some (score m x y l <$> cs).
Proof.
  intros Hxb Hyb Hlb Hcb. unfold scored.
  rewrite lookup_zip_with, !lookup_zip_with, Hxb, Hyb, Hlb, Hcb. done.
Qed.

Lemma scored_length : length (scored m seq_x seq_y last_embedding cands) = length cands.
Proof. unfold scored. rewrite !length_zip_with. lia. Qed.

(** The scores of the fused tensor: returned exactly when every fused vector
    and its candidate have compatible widths. *)
Lemma scores_of_fused_Ok_iff (S : mat) :
  scores_of (fused m seq_x seq_y last_embedding cands) cands = Ok S <->
  (forall b x y l (cs : mat) cand,
     seq_x !! b = Some x -> seq_y !! b = Some y -> last_embedding !! b = Some l ->
     cands !! b = Some cs -> cand ∈ cs -> scorable m x y l cand) /\
  S = scored m seq_x seq_y last_embedding cands.
Proof.
  unfold scores_of. rewrite bind_Ok.
  assert (Hprod : forall r, tmul (fused m seq_x seq_y last_embedding cands) cands = Ok r <->
            Forall2 (Forall2 (fun u v : vec => compatible (length u) (length v)))
              (fused m seq_x seq_y last_embedding cands) cands /\
            r = zip_with (zip_with (bzip Rmult))
                  (fused m seq_x seq_y last_embedding cands) cands).
  { apply tensor_op_pure; [apply fused_length |].
    intros xs ys [b Hxs]%list_elem_of_lookup [b' Hys]%list_elem_of_lookup.
    destruct (cal_final_lookups b) as (x & y & l & cs & Hxb & Hyb & Hlb & Hcb).
    { rewrite <- fused_length. by eapply lookup_lt_Some. }
    rewrite (fused_lookup b x y l cs) in Hxs by done. injection Hxs as <-.
    by rewrite length_fmap, (cal_final_rows b), (cal_final_rows b'). }
  assert (Hval : fmap (M := list) (fmap (M := list) sum)
                   (zip_with (zip_with (bzip Rmult))
                      (fused m seq_x seq_y last_embedding cands) cands)
                 = scored m seq_x seq_y last_embedding cands).
  { apply list_eq. intros b.
    destruct (decide (b < length cands)%nat) as [Hb | Hb].
    - destruct (cal_final_lookups b Hb) as (x & y & l & cs & Hxb & Hyb & Hlb & Hcb).
      rewrite (scored_lookup b x y l cs) by done.
      rewrite list_lookup_fmap, lookup_zip_with, (fused_lookup b x y l cs), Hcb by done.
      simpl. by rewrite zip_with_fmap_l, zip_with_diag, <- list_fmap_compose.
    - rewrite !(proj2 (lookup_ge_None _ _)); [done | |].
      + rewrite scored_length. lia.
      + rewrite length_fmap, length_zip_with, fused_length. lia. }
  assert (Hcond : Forall2 (Forall2 (fun u v : vec => compatible (length u) (length v)))
                    (fused m seq_x seq_y last_embedding cands) cands <->
                  forall b x y l (cs : mat) cand,
                    seq_x !! b = Some x -> seq_y !! b = Some y ->
                    last_embedding !! b = Some l -> cands !! b = Some cs -> cand ∈ cs ->
                    scorable m x y l cand).
  { split.
    - intros Hall b x y l cs cand Hxb Hyb Hlb Hcb [c Hc]%list_elem_of_lookup.
      pose proof (Forall2_lookup_lr _ _ _ _ _ _ Hall (fused_lookup b x y l cs Hxb Hyb Hlb Hcb)
                    Hcb) as Hrow.
      eapply (Forall2_lookup_lr _ _ _ c) in Hrow; [exact Hrow | | exact Hc].
      by rewrite list_lookup_fmap, Hc.
    - intros Hall. apply Forall2_same_length_lookup_2; [apply fused_length |].
      intros b os cs Hos Hcb.
      destruct (cal_final_lookups b) as (x & y & l & cs' & Hxb & Hyb & Hlb & Hcb').
      { by eapply lookup_lt_Some. }
      rewrite Hcb in Hcb'. injection Hcb' as <-.
      rewrite (fused_lookup b x y l cs) in Hos by done. injection Hos as <-.
      apply Forall2_fmap_l, Forall_Forall2_diag, Forall_forall. intros cand Hcand.
      by eapply Hall. }
  split.
  - intros (prod & [Hc ->]%Hprod & [= <-]). split; [by apply Hcond | done].
  - intros [Hall ->]. eexists. split; [apply Hprod; split; [by apply Hcond | done] |].
    by rewrite Hval.
Qed.

End CalFinal.

(** [cal_final], example by example: every candidate of example [b] is fused
    with the two representations of that example. *)
Lemma cal_final_lookup m (seq_x seq_y last_embedding : mat) (cands out : tensor3)
    b x y last (cs : mat) :
  length seq_x = length cands -> length seq_y = length cands ->
  length last_embedding = length cands ->
  Forall (fun cs : mat => length cs = size1 cands) cands ->
  cal_final m seq_x seq_y last_embedding cands = Ok out ->
  seq_x !! b = Some x -> seq_y !! b = Some y -> last_embedding !! b = Some last ->
  cands !! b = Some cs ->
  out !! b = Some (fuse m x y last <$> cs).
Proof.
  intros Hx Hy Hl Hrect [_ ->]%cal_final_Ok_iff; try done. by apply fused_lookup.
Qed.

(** With equal widths nothing is broadcast: the fused vector mixes the two
    representations entry by entry, and the score mixes their scores. *)
Lemma fuse_same_width m x y last cand :
  length x = length y ->
  fuse m x y last cand
  = zip_with (fun xd yd => gate m last y cand * xd + (1 - gate m last y cand) * yd) x y.
Proof.
  intros Hlen. unfold fuse. rewrite bzip_same_length by (by rewrite !length_fmap).
  rewrite zip_with_fmap_l, zip_with_fmap_r.
  apply zip_with_ext; [| done | done]. intros xd yd. ring.
Qed.

Lemma dot_mix (g : R) x : forall y c,
  length x = length c -> length y = length c ->
  dot (zip_with (fun xd yd => g * xd + (1 - g) * yd) x y) c
  = g * dot x c + (1 - g) * dot y c.
Proof.
  unfold dot, vmul, sum.
  induction x as [| xd x IH]; intros [| yd y] [| cd c] Hx Hy;
    simpl in *; try lia; [lra |].
  rewrite (IH y c) by lia. lra.
Qed.

Lemma score_same_width m x y last cand :
  length x = length cand -> length y = length cand ->
  score m x y last cand
  = gate m last y cand * dot x cand + (1 - gate m last y cand) * dot y cand.
Proof.
  intros Hx Hy. unfold score. rewrite fuse_same_width by lia.
  rewrite bzip_same_length by (rewrite length_zip_with; lia).
  by apply dot_mix.
Qed.

Lemma size1_rows {A} (t : list (list A)) (n : nat) :
  Forall (fun row => length row = n) t -> Forall (fun row => length row = size1 t) t.
Proof.
  intros Hall. destruct t as [| row0 t]; [constructor |]. simpl.
  pose proof (Forall_inv Hall) as H0. simpl in H0. rewrite H0. done.
Qed.

Lemma traverse_length {A B} (f : A -> result B) (l : list A) (r : list B) :
  traverse f l = Ok r -> length r = length l.
Proof. intros H%traverse_Ok. symmetry. by eapply Forall2_length. Qed.

Lemma gather_indexes_length (output : tensor3) gather_index (r : mat) :
  gather_indexes output gather_index = Ok r -> length r = length gather_index.
Proof.
  unfold gather_indexes. case_decide; [| done].
  intros ->%traverse_length. rewrite length_zip. lia.
Qed.

(** In evaluation mode [forward] returns one row per example in both
    branches. *)
Lemma forward_length m item_seq item_seq_len (x_l y : mat) :
  training m = false ->
  forward m item_seq item_seq_len = Ok (x_l, y) ->
  length x_l = length item_seq_len /\ length y = length item_seq.
Proof.
  intros Heval. unfold forward, d1. rewrite Heval.
  destruct (traverse (traverse (embedding (item_embedding m))) item_seq)
    as [item_emb |] eqn:He; simpl; [| done].
  destruct (traverse (traverse (embedding (position_embedding m))) _)
    as [position_emb |]; simpl; [| done].
  destruct (last (trm_encoder m _ _)) as [layer |]; simpl; [| done].
  destruct (gather_indexes layer _) as [g |] eqn:Hg; simpl; [| done].
  intros [= <- <-]. split.
  - rewrite (gather_indexes_length _ _ _ Hg). by rewrite length_fmap.
  - rewrite length_fmap, length_zip_with, !length_fmap.
    rewrite (traverse_length _ _ _ He). lia.
Qed.

(** *** The scoring methods return on valid batches *)

Lemma traverse_embedding_total (weight : mat) (ids : list Z) :
  Forall (fun i => (0 <= i < Z.of_nat (length weight))%Z) ids ->
  exists rows, traverse (embedding weight) ids = Ok rows.
Proof.
  intros Hids. apply traverse_total. eapply Forall_impl; [done |]. simpl. intros i Hi.
  destruct (lookup_lt_is_Some_2 weight (Z.to_nat i)) as [row Hrow]; [lia |].
  exists row. apply embedding_Ok. split; [lia | done].
Qed.

Lemma traverse2_embedding_total (weight : mat) (ids : list (list Z)) :
  Forall (Forall (fun i => (0 <= i < Z.of_nat (length weight))%Z)) ids ->
  exists rows : tensor3,
    traverse (traverse (embedding weight)) ids = Ok rows /\
    Forall2 (fun (r : mat) (i : list Z) => length r = length i) rows ids.
Proof.
  intros Hids.
  destruct (traverse_total (traverse (embedding weight)) ids) as [rows Hrows].
  { eapply Forall_impl; [done |]. simpl. apply traverse_embedding_total. }
  exists rows. split; [done |].
  apply Forall2_flip. eapply Forall2_impl; [by apply traverse_Ok |].
  simpl. intros i r Hr. by eapply traverse_length.
Qed.

Lemma gather_indexes_total (output : tensor3) (gather_index : list Z) (L : nat) :
  (length gather_index <= length output)%nat ->
  Forall (fun rows : mat => length rows = L) output ->
  Forall (fun i => (0 <= i < Z.of_nat L)%Z) gather_index ->
  exists r, gather_indexes output gather_index = Ok r.
Proof.
  intros Hlen Hout Hidx. unfold gather_indexes. rewrite decide_True by done.
  apply traverse_total, Forall_forall. intros [rows i] Hin.
  pose proof (proj1 (Forall_forall _ _) Hout rows (elem_of_zip_l _ _ _ _ Hin)) as Hrows.
  pose proof (proj1 (Forall_forall _ _) Hidx i (elem_of_zip_r _ _ _ _ Hin)) as Hi.
  simpl in Hi, Hrows. rewrite decide_True by lia.
  destruct (lookup_lt_is_Some_2 rows (Z.to_nat i)) as [row ->]; [lia |]. by eexists.
Qed.

Lemma valid_batch_indices m interaction :
  valid_batch m interaction ->
  Forall (fun i => (0 <= i < Z.of_nat (size1 (ITEM_SEQ interaction)))%Z)
    ((fun l => (l - 1)%Z) <$> ITEM_SEQ_LEN interaction).
Proof.
  intros (_ & _ & _ & _ & Hlens). apply Forall_fmap.
  eapply Forall_impl; [done |]. simpl. lia.
Qed.

(** In evaluation mode, with an encoder that keeps the shape, [forward]
    returns on every valid batch. *)
Lemma forward_returns m interaction :
  training m = false -> encoder_keeps_shape m -> valid_batch m interaction ->
  exists xy, forward m (ITEM_SEQ interaction) (ITEM_SEQ_LEN interaction) = Ok xy.
Proof.
  intros Heval Henc Hvalid.
  pose proof (valid_batch_indices _ _ Hvalid) as Hidx.
  destruct Hvalid as (Hids & Hrect & Hpos & Hlen & _).
  unfold forward, dropout. rewrite Heval.
  destruct (traverse2_embedding_total _ _ Hids) as (item_emb & -> & Hshape). simpl.
  destruct (traverse2_embedding_total (position_embedding m)
              ((fun _ => Z.of_nat <$> seq 0 (size1 (ITEM_SEQ interaction)))
                 <$> ITEM_SEQ interaction))
    as (position_emb & -> & Hpshape).
  { apply Forall_fmap, Forall_forall. intros row _. simpl.
    apply Forall_fmap, Forall_forall. intros n Hn%elem_of_seq. simpl. lia. }
  simpl.
  match goal with
  | |- context [trm_encoder m ?inp ?msk] =>
      destruct (Henc inp msk) as (layer & -> & Hlayer)
  end.
  simpl.
  destruct (gather_indexes_total layer ((fun l => (l - 1)%Z) <$> ITEM_SEQ_LEN interaction)
              (size1 (ITEM_SEQ interaction))) as [x_l ->]; [| | done | by eexists].
  - rewrite (Forall2_length _ _ _ Hlayer), !length_fmap, length_zip_with.
    rewrite (Forall2_length _ _ _ Hshape), (Forall2_length _ _ _ Hpshape).
    rewrite !length_fmap. lia.
  - apply Forall_lookup_2. intros b rows Hb.
    destruct (Forall2_lookup_l _ _ _ _ _ Hlayer Hb) as (inp & Hinp & ->).
    apply list_lookup_fmap_Some in Hinp as (inp0 & -> & Hinp0).
    rewrite length_fmap.
    apply lookup_zip_with_Some in Hinp0 as (ie & pe & -> & Hie & Hpe).
    rewrite length_zip_with.
    destruct (Forall2_lookup_l _ _ _ _ _ Hshape Hie) as (ids & Hids' & ->).
    destruct (Forall2_lookup_l _ _ _ _ _ Hpshape Hpe) as (ps & Hps & ->).
    apply list_lookup_fmap_Some in Hps as (ids2 & -> & _).
    rewrite length_fmap, length_seq.
    rewrite (proj1 (Forall_lookup _ _) Hrect b ids Hids'). lia.
Qed.

(** *** Widths *)

Lemma foldr_vadd_length (n : nat) (l : list vec) :
  Forall (fun v : vec => length v = n) l -> length (foldr vadd (replicate n 0) l) = n.
Proof.
  induction 1 as [| v l Hv _ IH]; simpl; [by rewrite length_replicate |].
  unfold vadd at 1. rewrite length_zip_with. lia.
Qed.

Lemma vecmat_length (cols : nat) (e : vec) (W : mat) :
  Forall (fun row => length row = cols) W -> length (vecmat cols e W) = cols.
Proof.
  intros HW. unfold vecmat. apply foldr_vadd_length.
  apply Forall_lookup_2. intros i v (ei & row & -> & _ & Hrow)%lookup_zip_with_Some.
  rewrite length_fmap. apply (proj1 (Forall_lookup _ _) HW i row Hrow).
Qed.

Lemma traverse_embedding_widths (weight : mat) (ids : list Z) (rows : mat) (n : nat) :
  Forall (fun row => length row = n) weight ->
  traverse (embedding weight) ids = Ok rows ->
  Forall (fun v : vec => length v = n) rows.
Proof.
  intros HW Hrows%traverse_Ok. apply Forall_lookup_2. intros i v Hv.
  destruct (Forall2_lookup_r _ _ _ _ _ Hrows Hv) as (id & _ & [_ Hrow]%embedding_Ok).
  apply (proj1 (Forall_lookup _ _) HW _ v Hrow).
Qed.

Lemma traverse2_embedding_widths (weight : mat) (ids : list (list Z)) (rows : tensor3)
    (n : nat) :
  Forall (fun row => length row = n) weight ->
  traverse (traverse (embedding weight)) ids = Ok rows ->
  Forall (Forall (fun v : vec => length v = n)) rows.
Proof.
  intros HW Hrows%traverse_Ok. apply Forall_lookup_2. intros i r Hr.
  destruct (Forall2_lookup_r _ _ _ _ _ Hrows Hr) as (row & _ & Hrow).
  by eapply traverse_embedding_widths.
Qed.

Lemma gather_indexes_widths (output : tensor3) gather_index (r : mat) (n : nat) :
  Forall (Forall (fun v : vec => length v = n)) output ->
  gather_indexes output gather_index = Ok r ->
  Forall (fun v : vec => length v = n) r.
Proof.
  intros Hout. unfold gather_indexes. case_decide; [| done].
  intros Hr%traverse_Ok. apply Forall_lookup_2. intros b v Hv.
  destruct (Forall2_lookup_r _ _ _ _ _ Hr Hv) as ([rows i] & Hin & Hrow).
  apply lookup_zip_with_Some in Hin as (rows' & i' & [= <- <-] & Hrows & _).
  case_decide; [| done].
  destruct (rows !! Z.to_nat i) as [row |] eqn:Hi; [| done]. injection Hrow as ->.
  pose proof (proj1 (Forall_lookup _ _) Hout b rows Hrows) as Hall.
  apply (proj1 (Forall_lookup _ _) Hall _ v Hi).
Qed.

(** In evaluation mode, with parameters of the shapes of construction and an
    encoder that keeps the width, both outputs of [forward] have rows of
    width [D]. *)
Lemma forward_widths m item_seq item_seq_len (x_l y : mat) :
  training m = false -> well_shaped m -> encoder_keeps_width m ->
  forward m item_seq item_seq_len = Ok (x_l, y) ->
  Forall (fun v : vec => length v = D m) x_l /\ Forall (fun v : vec => length v = D m) y.
Proof.
  intros Heval (Hitem & Hpos & Hlnw & Hlnb & Hw2 & _) Henc.
  unfold forward, d1, dropout. rewrite Heval.
  destruct (traverse (traverse (embedding (item_embedding m))) item_seq)
    as [item_emb |] eqn:He; simpl; [| done].
  destruct (traverse (traverse (embedding (position_embedding m))) _)
    as [position_emb |] eqn:Hp; simpl; [| done].
  destruct (last (trm_encoder m _ _)) as [layer |] eqn:Hlayer; simpl; [| done].
  destruct (gather_indexes layer _) as [g |] eqn:Hg; simpl; [| done].
  intros [= <- <-].
  pose proof (traverse2_embedding_widths _ _ _ _ Hitem He) as Hie.
  pose proof (traverse2_embedding_widths _ _ _ _ Hpos Hp) as Hpe.
  split.
  - eapply gather_indexes_widths; [| exact Hg].
    eapply Henc; [| exact Hlayer].
    apply Forall_fmap, Forall_lookup_2.
    intros b row (ie & pe & -> & Hib & Hpb)%lookup_zip_with_Some. simpl.
    apply Forall_fmap, Forall_lookup_2.
    intros i v (a & p & -> & Ha & Hpp)%lookup_zip_with_Some. simpl.
    pose proof (proj1 (Forall_lookup _ _) (proj1 (Forall_lookup _ _) Hie b ie Hib) i a Ha).
    pose proof (proj1 (Forall_lookup _ _) (proj1 (Forall_lookup _ _) Hpe b pe Hpb) i p Hpp).
    unfold layer_norm, vadd, vmul. simpl in *.
    rewrite !length_zip_with, length_fmap, length_zip_with. lia.
  - apply Forall_fmap, Forall_lookup_2.
    intros b rows (a & xs & -> & _ & Hxs)%lookup_zip_with_Some. simpl.
    apply foldr_vadd_length, Forall_lookup_2.
    intros i v (a_n & row & -> & _ & Hrow)%lookup_zip_with_Some.
    apply list_lookup_fmap_Some in Hxs as (es & -> & _).
    apply list_lookup_fmap_Some in Hrow as (e & -> & _).
    unfold vmul. rewrite length_zip_with, length_replicate, vecmat_length by done. lia.
Qed.

(** Construction gives the parameters these shapes, and switching between
    training and evaluation mode keeps them. *)
Lemma init_well_shaped (ext : Externals) (config : Config) m (mode : bool) :
  initialisers_keep_shape ext -> init ext config = Ok m ->
  well_shaped (set_training m mode) /\
  D (set_training m mode) = hidden_size config /\
  length (gating_lr_weight (set_training m mode)) = (3 * hidden_size config)%nat.
Proof.
  intros (Hnormal & Hxavier & _ & Hlinear). unfold init.
  destruct (if decide (loss_type config = "BPR") then _ else _) as [l |]; simpl; [| done].
  intros [= <-]. unfold well_shaped. simpl.
  rewrite !length_replicate, Hlinear.
  repeat split; try apply Hxavier; try apply Hnormal; lia.
Qed.

(** *** The scoring path returns on well-shaped arguments *)

Lemma scoring_returns m (seq_x seq_y last_embedding : mat) (cands : tensor3) (Dm : nat) :
  length seq_x = length cands -> length seq_y = length cands ->
  length last_embedding = length cands ->
  Forall (fun cs : mat => length cs = size1 cands) cands ->
  Forall (fun v : vec => length v = Dm) seq_x ->
  Forall (fun v : vec => length v = Dm) seq_y ->
  Forall (fun v : vec => length v = Dm) last_embedding ->
  Forall (Forall (fun v : vec => length v = Dm)) cands ->
  length (gating_lr_weight m) = (3 * Dm)%nat ->
  cal_final m seq_x seq_y last_embedding cands
  = Ok (fused m seq_x seq_y last_embedding cands) /\
  scores_of (fused m seq_x seq_y last_embedding cands) cands
  = Ok (scored m seq_x seq_y last_embedding cands).
Proof.
  intros Hx Hy Hl Hrect Hxw Hyw Hlw Hcw Hgate.
  assert (Hw : forall b x y l (cs : mat) cand,
            seq_x !! b = Some x -> seq_y !! b = Some y -> last_embedding !! b = Some l ->
            cands !! b = Some cs -> cand ∈ cs ->
            length x = Dm /\ length y = Dm /\ length l = Dm /\ length cand = Dm).
  { intros b x y l cs cand Hxb Hyb Hlb Hcb Hcand.
    split; [apply (proj1 (Forall_lookup _ _) Hxw b x Hxb) |].
    split; [apply (proj1 (Forall_lookup _ _) Hyw b y Hyb) |].
    split; [apply (proj1 (Forall_lookup _ _) Hlw b l Hlb) |].
    apply (proj1 (Forall_forall _ _) (proj1 (Forall_lookup _ _) Hcw b cs Hcb) cand Hcand). }
  split.
  - apply cal_final_Ok_iff; try done. split; [| done].
    intros b x y l cs cand Hxb Hyb Hlb Hcb Hcand.
    destruct (Hw b x y l cs cand) as (? & ? & ? & ?); try done.
    split; [rewrite !length_app; lia | left; lia].
  - apply scores_of_fused_Ok_iff; try done. split; [| done].
    intros b x y l cs cand Hxb Hyb Hlb Hcb Hcand.
    destruct (Hw b x y l cs cand) as (? & ? & ? & ?); try done.
    unfold scorable. rewrite fuse_same_width by lia. rewrite length_zip_with. left. lia.
Qed.

(** Under the same conditions as [forward], with parameters of the shapes of
    construction and an encoder that keeps the width, [full_sort_predict]
    returns its score matrix. *)
Lemma full_sort_predict_returns m interaction :
  training m = false -> encoder_keeps_shape m -> encoder_keeps_width m ->
  well_shaped m -> valid_batch m interaction ->
  exists F, full_sort_predict m interaction = Ok F.
Proof.
  intros Heval Henc Hencw Hshaped Hvalid.
  destruct (forward_returns _ _ Heval Henc Hvalid) as [[x_l y] Hfwd].
  pose proof (valid_batch_indices _ _ Hvalid) as Hidx.
  destruct (forward_length _ _ _ _ _ Heval Hfwd) as [Hxlen Hylen].
  destruct (forward_widths _ _ _ _ _ Heval Hshaped Hencw Hfwd) as [Hxw Hyw].
  destruct Hvalid as (Hids & Hrect & _ & Hlen & _).
  unfold full_sort_predict. cbv zeta.
  destruct (traverse2_embedding_total _ _ Hids) as (e & He & Hshape). rewrite He. simpl.
  destruct (gather_indexes_total e ((fun l => (l - 1)%Z) <$> ITEM_SEQ_LEN interaction)
              (size1 (ITEM_SEQ interaction))) as [last_item_emb Hlast]; [| | done |].
  - rewrite (Forall2_length _ _ _ Hshape), length_fmap. lia.
  - apply Forall_lookup_2. intros b rows Hb.
    destruct (Forall2_lookup_l _ _ _ _ _ Hshape Hb) as (ids & Hids' & ->).
    apply (proj1 (Forall_lookup _ _) Hrect b ids Hids').
  - rewrite Hlast. simpl. rewrite Hfwd. simpl.
    pose proof (gather_indexes_length _ _ _ Hlast) as Hllen. rewrite length_fmap in Hllen.
    destruct Hshaped as (Hitem & _ & _ & _ & _ & Hgate).
    destruct (scoring_returns m x_l y last_item_emb
                (replicate (length x_l) (item_embedding m)) (D m)) as [-> Hscores];
      rewrite ?length_replicate; try done; try lia.
    + apply size1_rows with (n := length (item_embedding m)).
      apply Forall_forall. intros cs Hcs.
      apply elem_of_replicate in Hcs as [-> _]. done.
    + eapply gather_indexes_widths; [| exact Hlast].
      apply (traverse2_embedding_widths _ _ _ _ Hitem He).
    + apply Forall_forall. intros cs Hcs.
      apply elem_of_replicate in Hcs as [-> _]. done.
    + simpl. rewrite Hscores. by eexists.
Qed.

End FissaFacts.

Section Raises.

Lemma traverse_Raise {A B} (f : A -> result B) (l : list A) (e : exn) :
  traverse f l = Raise e -> exists a, a ∈ l /\ f a = Raise e.
Proof.
  induction l as [| a l IH]; simpl; [done |].
  destruct (f a) as [b |] eqn:Hb; simpl.
  - destruct (traverse f l) as [r |]; simpl; [done |].
    intros [= <-]. destruct IH as (a' & Ha' & Hf); [done |].
    exists a'. split; [by right | done].
  - intros [= <-]. exists a. split; [by left | done].
Qed.

Lemma broadcast_Raise {A B C} (f : A -> B -> result C) (l : list A) (k : list B) (e : exn) :
  (forall a b e', f a b = Raise e' -> e' = RuntimeError) ->
  broadcast f l k = Raise e -> e = RuntimeError.
Proof.
  intros Hf. unfold broadcast. case_decide.
  - intros ([a b] & _ & Hab)%traverse_Raise. by eapply Hf.
  - destruct l as [| a [| a' l]], k as [| b [| b' k]];
      try (by intros [= <-]);
      try (by intros (x & _ & Hx)%traverse_Raise; eapply Hf).
Qed.

Lemma tensor_op_Raise (h : R -> R -> R) (a b : tensor3) (e : exn) :
  broadcast (broadcast (broadcast (fun p q => Ok (h p q)))) a b = Raise e ->
  e = RuntimeError.
Proof.
  apply broadcast_Raise. intros x y e1. apply broadcast_Raise. intros u v e2.
  apply broadcast_Raise. done.
Qed.

Lemma cat_dim2_Raise (a b : tensor3) (e : exn) : cat_dim2 a b = Raise e -> e = RuntimeError.
Proof.
  unfold cat_dim2. case_decide; [| by intros [= <-]].
  intros ([x y] & _ & Hxy)%traverse_Raise. revert Hxy. unfold cat_dim1. simpl.
  case_decide; [done | by intros [= <-]].
Qed.

Lemma bind_Raise {A B} (r : result A) (k : A -> result B) (e : exn) :
  r ≫= k = Raise e -> r = Raise e \/ exists a, r = Ok a /\ k a = Raise e.
Proof.
  destruct r as [a | e']; simpl; intros H; [right; by exists a |].
  left. by injection H as ->.
Qed.

Lemma gating_lr_Raise m (v : vec) (e : exn) : gating_lr m v = Raise e -> e = RuntimeError.
Proof. unfold gating_lr. case_decide; [done | by intros [= <-]]. Qed.

(** [cal_final] and the scoring raise nothing but [RuntimeError]. *)
Lemma cal_final_Raise m (seq_x seq_y last_embedding : mat) (cands : tensor3) (e : exn) :
  cal_final m seq_x seq_y last_embedding cands = Raise e -> e = RuntimeError.
Proof.
  unfold cal_final. cbv zeta.
  intros [H | (isg0 & _ & H)]%bind_Raise.
  { revert H. unfold cat_dim1. case_decide; [done | by intros [= <-]]. }
  apply bind_Raise in H as [H | (isg & _ & H)]; [by eapply cat_dim2_Raise |].
  apply bind_Raise in H as [H | (g & _ & H)].
  { apply traverse_Raise in H as (row & _ & Hrow).
    apply traverse_Raise in Hrow as (v & _ & Hv).
    apply bind_Raise in Hv as [Hv | (z & _ & Hv)]; [by eapply gating_lr_Raise | done]. }
  apply bind_Raise in H as [H | (xg & _ & H)]; [by eapply tensor_op_Raise |].
  apply bind_Raise in H as [H | (yg & _ & H)]; by eapply tensor_op_Raise.
Qed.

Lemma scores_of_Raise (seq_output emb : tensor3) (e : exn) :
  scores_of seq_output emb = Raise e -> e = RuntimeError.
Proof.
  unfold scores_of. intros [H | (prod & _ & H)]%bind_Raise; [| done].
  by eapply tensor_op_Raise.
Qed.

Lemma gather_indexes_Raise (output : tensor3) gather_index (e : exn) :
  gather_indexes output gather_index = Raise e -> e = RuntimeError.
Proof.
  unfold gather_indexes. case_decide; [| by intros [= <-]].
  intros ([rows i] & _ & Hr)%traverse_Raise. revert Hr.
  case_decide; [| by intros [= <-]].
  destruct (rows !! Z.to_nat i); [done | by intros [= <-]].
Qed.

(** Candidates for another number of examples than [seq_y] has are rejected,
    whether by the first concatenation or by the second. *)
Lemma cal_final_candidates_mismatch m (seq_x seq_y last_embedding : mat) (cands : tensor3) :
  length cands <> length seq_y ->
  cal_final m seq_x seq_y last_embedding cands = Raise RuntimeError.
Proof.
  intros Hne. unfold cal_final. cbv zeta. unfold cat_dim1 at 1.
  case_decide as Hl; simpl; [| done].
  unfold cat_dim2. rewrite decide_False; [done |].
  rewrite length_fmap, length_zip_with. lia.
Qed.

End Raises.

Section Rounding.

Lemma float32_0 : float32 0.
Proof. exists 0%Z, 0%Z. split; [lia |]. split; [lia |]. simpl. lra. Qed.

Lemma float32_1 : float32 1.
Proof. exists 1%Z, 0%Z. split; [lia |]. split; [lia |]. simpl. lra. Qed.

(** Rounding to nearest keeps a value of [0, 1] in [0, 1]: both ends are
    binary32 numbers. *)
Lemma nearest32_unit (x f : R) : 0 <= x <= 1 -> nearest32 x f -> 0 <= f <= 1.
Proof.
  intros [H0 H1] [_ Hmin].
  pose proof (Hmin 0 float32_0) as Hlo. pose proof (Hmin 1 float32_1) as Hhi.
  revert Hlo Hhi. unfold Rabs. repeat destruct Rcase_abs; lra.
Qed.

Lemma powerRZ_2_nonneg (n : Z) : (0 <= n)%Z -> powerRZ 2 n = IZR (2 ^ n).
Proof.
  intros Hn. rewrite <- (Z2Nat.id n Hn) at 1. rewrite <- pow_powerRZ.
  rewrite pow_IZR. by rewrite Z2Nat.id.
Qed.

Lemma powerRZ_2_ge_1 (n : Z) : (0 <= n)%Z -> 1 <= powerRZ 2 n.
Proof.
  intros Hn. rewrite powerRZ_2_nonneg by done. apply IZR_le.
  pose proof (Z.pow_pos_nonneg 2 n). lia.
Qed.

(** No binary32 number other than 1 is closer to 1 than [2^-24]. *)
Lemma float32_away_from_one (f : R) : float32 f -> f <> 1 -> / 2 ^ 24 <= Rabs (f - 1).
Proof.
  intros (m & e & Hm & He & ->) Hne.
  assert (H24 : (2 ^ 24 : R) = IZR (2 ^ 24)) by (rewrite pow_IZR; done).
  assert (Hpos : 0 < (2 ^ 24 : R)) by (apply pow_lt; lra).
  destruct (decide (-24 <= e)%Z) as [Hge | Hlt].
  - assert (Hsplit : powerRZ 2 e = IZR (2 ^ (e + 24)) * / 2 ^ 24).
    { replace e with ((e + 24) + (- (24)))%Z at 1 by lia.
      rewrite powerRZ_add by lra. rewrite powerRZ_2_nonneg by lia.
      rewrite powerRZ_neg'. rewrite (powerRZ_2_nonneg 24) by lia. by rewrite H24. }
    rewrite Hsplit in *.
    set (N := (m * 2 ^ (e + 24))%Z).
    assert (HN : IZR m * (IZR (2 ^ (e + 24)) * / 2 ^ 24) - 1
                 = IZR (N - 2 ^ 24) * / 2 ^ 24).
    { unfold N. rewrite minus_IZR, mult_IZR, <- H24. field. }
    rewrite HN, Rabs_mult, (Rabs_right (/ 2 ^ 24)).
    2: { apply Rle_ge. left. by apply Rinv_0_lt_compat. }
    assert (Hz : (N - 2 ^ 24 <> 0)%Z).
    { intros Hz. apply Hne. assert (E : N = (2 ^ 24)%Z) by lia.
      rewrite <- Rmult_assoc, <- mult_IZR. fold N. rewrite E, <- H24.
      apply Rinv_r. lra. }
    assert (1 <= Rabs (IZR (N - 2 ^ 24))).
    { rewrite <- abs_IZR. apply IZR_le. lia. }
    assert (0 < / 2 ^ 24) by (by apply Rinv_0_lt_compat). nra.
  - assert (Hsmall : Rabs (IZR m * powerRZ 2 e) <= / 2).
    { rewrite Rabs_mult, <- abs_IZR.
      rewrite (Rabs_right (powerRZ 2 e)) by (apply Rle_ge, powerRZ_le; lra).
      assert (Hm' : IZR (Z.abs m) <= 2 ^ 24).
      { rewrite H24. apply IZR_le. lia. }
      assert (He' : powerRZ 2 e <= / 2 ^ 25).
      { assert (E : powerRZ 2 (-25) = powerRZ 2 e * powerRZ 2 (-25 - e)).
        { rewrite <- powerRZ_add by lra. f_equal. lia. }
        assert (E25 : powerRZ 2 (-25) = / 2 ^ 25).
        { change (-25)%Z with (- (25))%Z. rewrite powerRZ_neg'.
          by rewrite (pow_powerRZ 2 25). }
        pose proof (powerRZ_2_ge_1 (-25 - e) ltac:(lia)).
        pose proof (powerRZ_lt 2 e ltac:(lra)). rewrite <- E25, E. nra. }
      pose proof (powerRZ_lt 2 e ltac:(lra)).
      assert (0 <= IZR (Z.abs m)) by (apply IZR_le; lia).
      assert (E : (2 ^ 24 : R) * / 2 ^ 25 = / 2) by (simpl; field).
      nra. }
    assert (/ 2 ^ 24 <= / 2).
    { apply Rinv_le_contravar; [lra |]. simpl. lra. }
    revert Hsmall. unfold Rabs. repeat destruct Rcase_abs; lra.
Qed.

(** A value within [2^-26] below 1 rounds to 1, and to nothing else. *)
Lemma nearest32_one (x : R) :
  1 - / 2 ^ 26 < x <= 1 ->
  nearest32 x 1 /\ forall f, nearest32 x f -> f = 1.
Proof.
  intros [Hlo Hhi].
  assert (H26 : / 2 ^ 26 = / 2 ^ 24 * / 4) by (simpl; field).
  assert (Hpos : 0 < / 2 ^ 24) by (apply Rinv_0_lt_compat, pow_lt; lra).
  assert (Hfar : forall f, float32 f -> f <> 1 -> Rabs (1 - x) < Rabs (f - x)).
  { intros f Hf Hne. pose proof (float32_away_from_one f Hf Hne) as Hgap.
    revert Hgap. unfold Rabs. repeat destruct Rcase_abs; lra. }
  split.
  - split; [apply float32_1 |]. intros f' Hf'.
    destruct (Req_dec f' 1) as [-> | Hne]; [lra |]. left. by apply Hfar.
  - intros f [Hf Hmin]. destruct (Req_dec f 1) as [-> | Hne]; [done |].
    pose proof (Hfar f Hf Hne). pose proof (Hmin 1 float32_1). lra.
Qed.

Lemma exp_mult_nat (n : nat) (x : R) : exp (INR n * x) = exp x ^ n.
Proof.
  induction n as [| n IH].
  - simpl. rewrite Rmult_0_l. apply exp_0.
  - rewrite S_INR, Rmult_plus_distr_r, Rmult_1_l, exp_plus, IH. simpl. ring.
Qed.

(** The sigmoid of 60 is within [2^-26] of 1. *)
Lemma sigmoid_60 : 1 - / 2 ^ 26 < sigmoid 60 < 1.
Proof.
  assert (Hbig : 2 ^ 26 < exp 60).
  { replace 60 with (INR 10 * 6) by (simpl; lra). rewrite exp_mult_nat.
    pose proof (exp_ineq1 6 ltac:(lra)) as H6.
    apply Rlt_le_trans with (7 ^ 10); [simpl; lra |].
    apply pow_incr. lra. }
  assert (Hexp : exp (Ropp 60) = / exp 60).
  { rewrite exp_Ropp. done. }
  pose proof (exp_pos 60) as Hpos.
  assert (Hsmall : 0 < exp (Ropp 60) < / 2 ^ 26).
  { rewrite Hexp. split; [by apply Rinv_0_lt_compat |].
    apply Rinv_lt_contravar; [| done]. apply Rmult_lt_0_compat; [apply pow_lt; lra | done]. }
  unfold sigmoid. destruct Hsmall as [He0 He1].
  assert (Hinv : 0 < / (1 + exp (Ropp 60))) by (apply Rinv_0_lt_compat; lra).
  assert (Hone : (1 + exp (Ropp 60)) * / (1 + exp (Ropp 60)) = 1) by (apply Rinv_r; lra).
  unfold Rdiv. split; nra.
Qed.

End Rounding.

Section FissaClaims.

(** C6.  Construction with [loss_type] "BPR" (pairwise) selects [BPRLoss],
    with "CE" (listwise) [CrossEntropyLoss]; with any other name, "MSE" for
    one, construction raises [NotImplementedError] and no model exists on
    which a forward pass could run.  The selected loss is an attribute that
    switching between training and evaluation mode, the only operation of the
    embedding that returns a model, leaves as it is. *)
Theorem loss_type_checked_at_construction :
  (forall ext config, loss_type config = "BPR" ->
     exists m, init ext config = Ok m /\ loss_fct m = BPRLoss) /\
  (forall ext config, loss_type config = "CE" ->
     exists m, init ext config = Ok m /\ loss_fct m = CrossEntropyLoss) /\
  (forall ext config, loss_type config <> "BPR" -> loss_type config <> "CE" ->
     init ext config = Raise (NotImplementedError LossTypeNotIn)) /\
  (forall ext config, loss_type config = "MSE" ->
     init ext config = Raise (NotImplementedError LossTypeNotIn)) /\
  (forall m mode, loss_fct (set_training m mode) = loss_fct m).
Proof.
  repeat split.
  - intros ext config H. unfold init. rewrite decide_True by done. simpl. by eexists.
  - intros ext config H. unfold init. rewrite decide_False by (by rewrite H).
    rewrite decide_True by done. simpl. by eexists.
  - intros ext config H1 H2. unfold init. by rewrite !decide_False.
  - intros ext config H. unfold init. by rewrite !decide_False by (by rewrite H).
Qed.

Lemma shape3_lookup B C Dm (cands : tensor3) b (cs : mat) :
  shape3 B C Dm cands -> cands !! b = Some cs ->
  size1 cands = C /\ length cs = C /\ Forall (fun row => length row = Dm) cs.
Proof.
  intros [HB Hall] Hb.
  pose proof (proj1 (Forall_lookup _ _) Hall b cs Hb) as [HC Hrows].
  split; [| done].
  destruct cands as [| c0 rest]; [done |]. simpl.
  by apply Forall_cons in Hall as [[? _] _].
Qed.

Lemma shape3_rows B C Dm (cands : tensor3) :
  shape3 B C Dm cands ->
  Forall (fun cs : mat => length cs = size1 cands) cands /\
  Forall (Forall (fun v : vec => length v = Dm)) cands.
Proof.
  intros [HB Hall]. split.
  - apply size1_rows with (n := C). eapply Forall_impl; [done |]. by intros cs [? _].
  - eapply Forall_impl; [done |]. by intros cs [_ ?].
Qed.

(** C7 (as amended).  For [x_l], [y] and the last item's embedding of shape
    [B, D], candidates of shape [B, C, D] and a gate over inputs of size
    [3 D], [cal_final] returns a tensor of shape [B, C, D]; its row for
    example [b] and candidate [c] is, elementwise, [g * x_l + (1 - g) * y],
    where [g] is the sigmoid of the linear gate applied to the concatenation
    (of size [3 D]) of the last item's embedding, [y] and that candidate's
    embedding.  Computed exactly, [g] lies strictly between 0 and 1; a
    binary32 number nearest to it lies between 0 and 1, the ends included.
    For [C = 1] the output for an example is the one row of its single
    candidate. *)
Theorem cal_final_gate m B C Dm (seq_x seq_y last_embedding : mat) (cands : tensor3) :
  shape2 B Dm seq_x -> shape2 B Dm seq_y -> shape2 B Dm last_embedding ->
  shape3 B C Dm cands ->
  length (gating_lr_weight m) = (3 * Dm)%nat ->
  exists out : tensor3,
    cal_final m seq_x seq_y last_embedding cands = Ok out /\
    shape3 B C Dm out /\
    forall b c x y last (cs : mat) cand,
      seq_x !! b = Some x -> seq_y !! b = Some y -> last_embedding !! b = Some last ->
      cands !! b = Some cs -> cs !! c = Some cand ->
      exists z : R,
        length ((last ++ y) ++ cand) = (3 * Dm)%nat /\
        gating_lr m ((last ++ y) ++ cand) = Ok z /\
        let g := sigmoid z in
        0 < g < 1 /\
        (forall f, nearest32 g f -> 0 <= f <= 1) /\
        exists out_b : mat,
          out !! b = Some out_b /\
          out_b !! c = Some (zip_with (fun xd yd => g * xd + (1 - g) * yd) x y) /\
          (C = 1%nat -> out_b = [zip_with (fun xd yd => g * xd + (1 - g) * yd) x y]).
Proof.
  intros [Hx1 Hx2] [Hy1 Hy2] [Hl1 Hl2] Hc Hgate.
  destruct (shape3_rows _ _ _ _ Hc) as [Hrect Hcw].
  pose proof (proj1 Hc) as HB.
  destruct (scoring_returns m seq_x seq_y last_embedding cands Dm) as [Hout _];
    try done; try lia.
  exists (fused m seq_x seq_y last_embedding cands). split; [done |].
  assert (Hrow : forall b x y last (cs : mat),
            seq_x !! b = Some x -> seq_y !! b = Some y -> last_embedding !! b = Some last ->
            cands !! b = Some cs ->
            fused m seq_x seq_y last_embedding cands !! b = Some (fuse m x y last <$> cs) /\
            length x = Dm /\ length y = Dm /\ length last = Dm).
  { intros b x y last cs Hx Hy Hl Hcs. split.
    - apply fused_lookup; try done; lia.
    - split; [apply (proj1 (Forall_lookup _ _) Hx2 b x Hx) |].
      split; [apply (proj1 (Forall_lookup _ _) Hy2 b y Hy) |].
      apply (proj1 (Forall_lookup _ _) Hl2 b last Hl). }
  split.
  - split; [rewrite fused_length; lia |].
    apply Forall_lookup_2. intros b out_b Hb.
    destruct (cal_final_lookups seq_x seq_y last_embedding cands ltac:(lia) ltac:(lia)
                ltac:(lia) b) as (x & y & last & cs & Hx & Hy & Hl & Hcs).
    { rewrite <- (fused_length m seq_x seq_y last_embedding cands) by lia.
      by eapply lookup_lt_Some. }
    destruct (Hrow b x y last cs) as (Hfb & Hxw & Hyw & _); try done.
    rewrite Hfb in Hb. injection Hb as <-.
    destruct (shape3_lookup _ _ _ _ _ _ Hc Hcs) as (_ & Hlen & _).
    split; [by rewrite length_fmap |].
    apply Forall_fmap, Forall_forall. intros cand _. simpl.
    rewrite fuse_same_width by lia. rewrite length_zip_with. lia.
  - intros b c x y last cs cand Hx Hy Hl Hcs Hcand.
    destruct (Hrow b x y last cs) as (Hfb & Hxw & Hyw & Hlw); try done.
    destruct (shape3_lookup _ _ _ _ _ _ Hc Hcs) as (_ & Hlen & Hrows).
    assert (Hwidth : length ((last ++ y) ++ cand) = (3 * Dm)%nat).
    { rewrite !length_app, Hlw, Hyw.
      rewrite (proj1 (Forall_lookup _ _) Hrows c cand Hcand). lia. }
    eexists. split; [done |]. split.
    { apply gating_lr_Ok. split; [by rewrite Hwidth | reflexivity]. }
    cbv zeta. fold (gate m last y cand).
    pose proof (sigmoid_bounds
                  (dot (gating_lr_weight m) ((last ++ y) ++ cand) + gating_lr_bias m)) as Hg.
    fold (gate m last y cand) in Hg.
    split; [done |]. split.
    { intros f. apply nearest32_unit. lra. }
    exists (fuse m x y last <$> cs). split; [done |].
    rewrite <- (fuse_same_width m x y last cand) by lia. split.
    + by rewrite list_lookup_fmap, Hcand.
    + intros ->. destruct cs as [| c0 [| c1 cs]]; try done.
      destruct c; [| done]. by injection Hcand as ->.
Qed.

Lemma cal_final_gate_witness :
  exists m, tiny_model = Ok m /\
  exists out : tensor3,
    cal_final m [[2]] [[3]] [[4]] [[[5]]] = Ok out /\
    shape3 1 1 1 out /\
    forall b c x y last (cs : mat) cand,
      ([[2]] : mat) !! b = Some x -> ([[3]] : mat) !! b = Some y ->
      ([[4]] : mat) !! b = Some last ->
      ([[[5]]] : tensor3) !! b = Some cs -> cs !! c = Some cand ->
      exists z : R,
        length ((last ++ y) ++ cand) = (3 * 1)%nat /\
        gating_lr m ((last ++ y) ++ cand) = Ok z /\
        let g := sigmoid z in
        0 < g < 1 /\
        (forall f, nearest32 g f -> 0 <= f <= 1) /\
        exists out_b : mat,
          out !! b = Some out_b /\
          out_b !! c = Some (zip_with (fun xd yd => g * xd + (1 - g) * yd) x y) /\
          (1%nat = 1%nat -> out_b = [zip_with (fun xd yd => g * xd + (1 - g) * yd) x y]).
Proof.
  eexists. split; [reflexivity |].
  apply cal_final_gate.
  - split; [reflexivity | by repeat constructor].
  - split; [reflexivity | by repeat constructor].
  - split; [reflexivity | by repeat constructor].
  - split; [reflexivity |]. constructor; [| constructor].
    split; [reflexivity | by repeat constructor].
  - reflexivity.
Defined.

(** C7, the claim as stated fails for the gate as [torch.float32] holds it:
    with the gate weights 1, 1, 1 and no bias, and the last item's embedding,
    [y] and the candidate all [[20]], the linear gate returns 60, and the
    binary32 number nearest to the sigmoid of 60 is 1, nothing else: the gate
    is not inside (0, 1). *)
Lemma gate_rounds_to_one :
  exists m, steep_model = Ok m /\
    gating_lr m (([20] ++ [20]) ++ [20]) = Ok 60 /\
    gate m [20] [20] [20] = sigmoid 60 /\
    nearest32 (sigmoid 60) 1 /\
    (forall f, nearest32 (sigmoid 60) f -> f = 1).
Proof.
  eexists. split; [reflexivity |].
  assert (Hz : dot [1; 1; 1] [20; 20; 20] + 0 = 60).
  { unfold dot, vmul, sum. simpl. lra. }
  split; [| split].
  - unfold gating_lr. simpl. by rewrite Hz.
  - unfold gate. simpl. by rewrite Hz.
  - apply nearest32_one. pose proof sigmoid_60. lra.
Qed.

(** C9.  For every batch of sequences of item ids (ids are not negative),
    [get_attention_mask] returns, for each example, one row of biases under
    two axes of size 1, the heads' and the query positions': the bias that
    key position [j] receives is the same for every head [h] and every query
    position [i], before or after [j], and it is 0 when the item id at [j] is
    not 0 and -10000 when it is 0. *)
Theorem attention_mask_padding (item_seq : list (list Z)) b (row : list Z) j (id : Z) :
  item_seq !! b = Some row -> row !! j = Some id -> (0 <= id)%Z ->
  exists bias : vec,
    get_attention_mask item_seq !! b = Some [[bias]] /\
    length bias = length row /\
    forall h i,
      mask_at (get_attention_mask item_seq) b h i j = bias !! j /\
      (id <> 0%Z -> mask_at (get_attention_mask item_seq) b h i j = Some 0) /\
      (id = 0%Z -> mask_at (get_attention_mask item_seq) b h i j = Some (- 10000)).
Proof.
  intros Hb Hj Hid. unfold get_attention_mask, mask_at. cbv zeta.
  rewrite !list_lookup_fmap, Hb. simpl.
  eexists. split; [reflexivity |]. split; [by rewrite !length_fmap |].
  intros h i. rewrite !list_lookup_fmap, Hj. simpl.
  split; [done |]. split; intros Hz.
  - rewrite decide_True by lia. f_equal. simpl. lra.
  - rewrite decide_False by lia. f_equal. simpl. lra.
Qed.

Lemma attention_mask_padding_witness :
  exists bias : vec,
    get_attention_mask [[3; 0]%Z] !! 0%nat = Some [[bias]] /\
    length bias = length [3; 0]%Z /\
    forall h i,
      mask_at (get_attention_mask [[3; 0]%Z]) 0 h i 1 = bias !! 1%nat /\
      (0%Z <> 0%Z -> mask_at (get_attention_mask [[3; 0]%Z]) 0 h i 1 = Some 0) /\
      (0%Z = 0%Z -> mask_at (get_attention_mask [[3; 0]%Z]) 0 h i 1 = Some (- 10000)).
Proof.
  apply (attention_mask_padding [[3; 0]%Z] 0 [3; 0]%Z 1 0%Z); [reflexivity | reflexivity | lia].
Defined.

(** C10.  In evaluation mode, on a batch with one test item and one length
    per sequence and test items that are rows of the embedding table: when
    [full_sort_predict] returns its score matrix, [predict] returns one score
    per example, and the score of example [b] for its test item [i] is entry
    [i] of row [b] of the matrix.  Arithmetic is over the reals. *)
Theorem predict_agrees_with_full_sort m interaction (F : mat) :
  training m = false ->
  length (ITEM_SEQ_LEN interaction) = length (ITEM_SEQ interaction) ->
  length (ITEM_ID interaction) = length (ITEM_SEQ interaction) ->
  Forall (fun i => (0 <= i < Z.of_nat (length (item_embedding m)))%Z) (ITEM_ID interaction) ->
  full_sort_predict m interaction = Ok F ->
  exists P : mat,
    predict m interaction = Ok P /\
    length P = length (ITEM_ID interaction) /\
    length F = length (ITEM_ID interaction) /\
    forall b i, ITEM_ID interaction !! b = Some i ->
      exists (row : vec) (score : R),
        F !! b = Some row /\ row !! Z.to_nat i = Some score /\ P !! b = Some [score].
Proof.
  intros Heval Hlens Hids Hvalid. unfold full_sort_predict, predict. cbv zeta.
  destruct (traverse _ (ITEM_SEQ interaction)) as [e |] eqn:He; simpl; [| done].
  destruct (gather_indexes e _) as [last_item_emb |] eqn:Hlast; simpl; [| done].
  destruct (forward m _ _) as [[x y] |] eqn:Hfwd; simpl; [| done].
  intros (out & Hcf & Hsf)%bind_Ok.
  destruct (forward_length _ _ _ _ _ Heval Hfwd) as [Hx Hy].
  pose proof (gather_indexes_length _ _ _ Hlast) as Hl. rewrite length_fmap in Hl.
  assert (Hrect : Forall (fun cs : mat => length cs
                            = size1 (replicate (length x) (item_embedding m)))
                    (replicate (length x) (item_embedding m))).
  { apply size1_rows with (n := length (item_embedding m)).
    apply Forall_forall. intros cs Hcs. apply elem_of_replicate in Hcs as [-> _]. done. }
  apply cal_final_Ok_iff in Hcf as [Hfus ->];
    rewrite ?length_replicate; try done; try lia.
  apply scores_of_fused_Ok_iff in Hsf as [Hsc ->];
    rewrite ?length_replicate; try done; try lia.
  destruct (traverse_total (embedding (item_embedding m)) (ITEM_ID interaction))
    as [T HT].
  { eapply Forall_impl; [done |]. simpl. intros i Hi.
    destruct (lookup_lt_is_Some_2 (item_embedding m) (Z.to_nat i)) as [row Hrow]; [lia |].
    exists row. apply embedding_Ok. split; [lia | done]. }
  rewrite HT. simpl.
  pose proof (traverse_length _ _ _ HT) as HTlen.
  assert (Hrect1 : Forall (fun cs : mat => length cs
                             = size1 ((fun row : vec => [row]) <$> T))
                     ((fun row : vec => [row]) <$> T)).
  { apply size1_rows with (n := 1%nat). apply Forall_fmap, Forall_true. done. }
  assert (Hin : forall b xb yb lb (cs : mat) cand,
            x !! b = Some xb -> y !! b = Some yb -> last_item_emb !! b = Some lb ->
            ((fun row : vec => [row]) <$> T) !! b = Some cs -> cand ∈ cs ->
            replicate (length x) (item_embedding m) !! b = Some (item_embedding m) /\
            cand ∈ item_embedding m).
  { intros b xb yb lb cs cand Hxb Hyb Hlb Hcs Hcand.
    split; [apply lookup_replicate_2; by eapply lookup_lt_Some |].
    apply list_lookup_fmap_Some in Hcs as (Tb & -> & HTb).
    apply list_elem_of_singleton in Hcand as ->.
    destruct (Forall2_lookup_r _ _ _ _ _ (traverse_Ok _ _ _ HT) HTb)
      as (i & _ & [_ Hrow]%embedding_Ok).
    by eapply list_elem_of_lookup_2. }
  assert (Hcf1 : cal_final m x y last_item_emb ((fun row : vec => [row]) <$> T)
                 = Ok (fused m x y last_item_emb ((fun row : vec => [row]) <$> T))).
  { apply cal_final_Ok_iff; rewrite ?length_fmap; try done; try lia.
    split; [| done]. intros b xb yb lb cs cand Hxb Hyb Hlb Hcs Hcand.
    destruct (Hin b xb yb lb cs cand) as [Hrep Hcand']; try done.
    by apply (Hfus b xb yb lb (item_embedding m) cand). }
  rewrite Hcf1. simpl.
  assert (Hsf1 : scores_of (fused m x y last_item_emb ((fun row : vec => [row]) <$> T))
                   ((fun row : vec => [row]) <$> T)
                 = Ok (scored m x y last_item_emb ((fun row : vec => [row]) <$> T))).
  { apply scores_of_fused_Ok_iff; rewrite ?length_fmap; try done; try lia.
    split; [| done]. intros b xb yb lb cs cand Hxb Hyb Hlb Hcs Hcand.
    destruct (Hin b xb yb lb cs cand) as [Hrep Hcand']; try done.
    by apply (Hsc b xb yb lb (item_embedding m) cand). }
  rewrite Hsf1. eexists. split; [reflexivity |].
  split; [| split].
  - rewrite scored_length; rewrite ?length_fmap; lia.
  - rewrite scored_length; rewrite ?length_replicate; lia.
  - intros b i Hb.
    pose proof (lookup_lt_Some _ _ _ Hb) as Hblt.
    destruct (lookup_lt_is_Some_2 x b) as [xb Hxb]; [lia |].
    destruct (lookup_lt_is_Some_2 y b) as [yb Hyb]; [lia |].
    destruct (lookup_lt_is_Some_2 last_item_emb b) as [lb Hlb]; [lia |].
    destruct (Forall2_lookup_l _ _ _ _ _ (traverse_Ok _ _ _ HT) Hb) as (Wi & HTb & Hemb).
    apply embedding_Ok in Hemb as [_ HWi].
    exists (score m xb yb lb <$> item_embedding m), (score m xb yb lb Wi).
    split; [| split].
    + apply scored_lookup; try done. apply lookup_replicate_2. lia.
    + by rewrite list_lookup_fmap, HWi.
    + rewrite (scored_lookup m x y last_item_emb _ b xb yb lb [Wi]); try done.
      by rewrite list_lookup_fmap, HTb.
Qed.

Lemma predict_agrees_with_full_sort_witness :
  exists m (F : mat), tiny_model = Ok m /\
    full_sort_predict m tiny_batch = Ok F /\
  exists P : mat,
    predict m tiny_batch = Ok P /\
    length P = length (ITEM_ID tiny_batch) /\
    length F = length (ITEM_ID tiny_batch) /\
    forall b i, ITEM_ID tiny_batch !! b = Some i ->
      exists (row : vec) (score : R),
        F !! b = Some row /\ row !! Z.to_nat i = Some score /\ P !! b = Some [score].
Proof.
  eexists. eexists. split; [reflexivity |]. split; [reflexivity |].
  apply predict_agrees_with_full_sort.
  - reflexivity.
  - reflexivity.
  - reflexivity.
  - constructor; [simpl; lia | constructor].
  - reflexivity.
Defined.

End FissaClaims.

Section FissaExtras.

Implicit Types (m : t) (x y last cand : vec).

(** *** The score of a candidate *)

(** X14.  For [x_l], [y] and the last item's embedding of shape [B, D],
    candidates of shape [B, C, D] and a gate over inputs of size [3 D],
    [cal_final] and the scoring that follows it return, and the score of a
    candidate is the gated mix of the scores of the two branches: with [g] the
    candidate's gate, [x] the attention branch and [y] the item-similarity
    branch, the entry of [sum(cal_final(...) * candidates)] for that candidate
    is [g * (x . c) + (1 - g) * (y . c)], a value between the two branch
    scores.  Arithmetic is over the reals. *)
Theorem score_is_a_gated_mix m B C Dm (seq_x seq_y last_embedding : mat) (cands : tensor3)
    b c x y last (cs : mat) cand :
  shape2 B Dm seq_x -> shape2 B Dm seq_y -> shape2 B Dm last_embedding ->
  shape3 B C Dm cands ->
  length (gating_lr_weight m) = (3 * Dm)%nat ->
  seq_x !! b = Some x -> seq_y !! b = Some y -> last_embedding !! b = Some last ->
  cands !! b = Some cs -> cs !! c = Some cand ->
  exists (out : tensor3) (scores : mat) (row : vec),
    cal_final m seq_x seq_y last_embedding cands = Ok out /\
    scores_of out cands = Ok scores /\
    scores !! b = Some row /\
    row !! c = Some (gate m last y cand * dot x cand + (1 - gate m last y cand) * dot y cand) /\
    Rmin (dot x cand) (dot y cand)
      <= gate m last y cand * dot x cand + (1 - gate m last y cand) * dot y cand
      <= Rmax (dot x cand) (dot y cand).
Proof.
  intros [Hx1 Hx2] [Hy1 Hy2] [Hl1 Hl2] Hc Hgate Hx Hy Hl Hcs Hcand.
  destruct (shape3_rows _ _ _ _ Hc) as [Hrect Hcw].
  pose proof (proj1 Hc) as HB.
  destruct (scoring_returns m seq_x seq_y last_embedding cands Dm) as [Hout Hscores];
    try done; try lia.
  exists (fused m seq_x seq_y last_embedding cands),
    (scored m seq_x seq_y last_embedding cands), (score m x y last <$> cs).
  split; [done |]. split; [done |]. split; [by apply scored_lookup |]. split.
  - rewrite list_lookup_fmap, Hcand. simpl. f_equal.
    destruct (shape3_lookup _ _ _ _ _ _ Hc Hcs) as (_ & _ & Hrows).
    pose proof (proj1 (Forall_lookup _ _) Hrows c cand Hcand) as Hcl. simpl in Hcl.
    apply score_same_width.
    + rewrite (proj1 (Forall_lookup _ _) Hx2 b x Hx). done.
    + rewrite (proj1 (Forall_lookup _ _) Hy2 b y Hy). done.
  - pose proof (sigmoid_bounds
                  (dot (gating_lr_weight m) ((last ++ y) ++ cand) + gating_lr_bias m)) as Hg.
    fold (gate m last y cand) in Hg.
    unfold Rmin, Rmax. destruct (Rle_dec (dot x cand) (dot y cand)); nra.
Qed.

Lemma score_is_a_gated_mix_witness :
  exists m, tiny_model = Ok m /\
  exists (out : tensor3) (scores : mat) (row : vec),
    cal_final m [[2]] [[3]] [[4]] [[[5]]] = Ok out /\
    scores_of out [[[5]]] = Ok scores /\
    scores !! 0%nat = Some row /\
    row !! 0%nat = Some (gate m [4] [3] [5] * dot [2] [5] + (1 - gate m [4] [3] [5]) * dot [3] [5]) /\
    Rmin (dot [2] [5]) (dot [3] [5])
      <= gate m [4] [3] [5] * dot [2] [5] + (1 - gate m [4] [3] [5]) * dot [3] [5]
      <= Rmax (dot [2] [5]) (dot [3] [5]).
Proof.
  eexists. split; [reflexivity |].
  apply (score_is_a_gated_mix _ 1 1 1 [[2]] [[3]] [[4]] [[[5]]] 0 0 [2] [3] [4] [[5]] [5]);
    try reflexivity.
  - split; [reflexivity | by repeat constructor].
  - split; [reflexivity | by repeat constructor].
  - split; [reflexivity | by repeat constructor].
  - split; [reflexivity |]. constructor; [| constructor].
    split; [reflexivity | by repeat constructor].
Defined.

(** *** Sizes that the fusion rejects *)

(** X22.  [cal_final] raises nothing but [RuntimeError], and it raises it
    whenever the last item's embedding or the candidates are given for another
    number of examples than [seq_y], and, with one row per example in every
    argument, whenever some candidate's concatenation has not the input size
    of the gate or the two representations of its example have widths that
    broadcasting does not accept. *)
Theorem cal_final_size_errors m (seq_x seq_y last_embedding : mat) (cands : tensor3) :
  (forall e, cal_final m seq_x seq_y last_embedding cands = Raise e -> e = RuntimeError) /\
  (length last_embedding <> length seq_y ->
     cal_final m seq_x seq_y last_embedding cands = Raise RuntimeError) /\
  (length cands <> length seq_y ->
     cal_final m seq_x seq_y last_embedding cands = Raise RuntimeError) /\
  (length seq_x = length cands -> length seq_y = length cands ->
   length last_embedding = length cands ->
   Forall (fun cs : mat => length cs = size1 cands) cands ->
   forall b x y last (cs : mat) cand,
     seq_x !! b = Some x -> seq_y !! b = Some y -> last_embedding !! b = Some last ->
     cands !! b = Some cs -> cand ∈ cs -> ~ fusable m x y last cand ->
     cal_final m seq_x seq_y last_embedding cands = Raise RuntimeError).
Proof.
  split; [apply cal_final_Raise |]. split; [| split].
  - intros Hne. unfold cal_final. cbv zeta. unfold cat_dim1 at 1.
    by rewrite decide_False.
  - apply cal_final_candidates_mismatch.
  - intros Hx Hy Hl Hrect b x y last cs cand Hxb Hyb Hlb Hcb Hcand Hnot.
    destruct (cal_final m seq_x seq_y last_embedding cands) as [out | e] eqn:Hcf.
    + apply cal_final_Ok_iff in Hcf as [Hall _]; try done.
      destruct Hnot. by eapply Hall.
    + by rewrite (cal_final_Raise _ _ _ _ _ _ Hcf).
Qed.

Lemma cal_final_size_errors_witness :
  exists m, tiny_model = Ok m /\
    cal_final m [[2]] [[3]] [[4]; [4]; [4]] [[[5]]] = Raise RuntimeError /\
    cal_final m [[2; 2]] [[3; 3]] [[4; 4]] [[[5; 5]]] = Raise RuntimeError.
Proof.
  eexists. split; [reflexivity |]. split.
  - apply (proj1 (proj2 (cal_final_size_errors _ [[2]] [[3]] [[4]; [4]; [4]] [[[5]]]))).
    simpl. lia.
  - apply (proj2 (proj2 (proj2
             (cal_final_size_errors _ [[2; 2]] [[3; 3]] [[4; 4]] [[[5; 5]]])))
             eq_refl eq_refl eq_refl) with (b := 0%nat) (x := [2; 2]) (y := [3; 3])
             (last := [4; 4]) (cs := [[5; 5]]) (cand := [5; 5]); try reflexivity.
    + by repeat constructor.
    + apply list_elem_of_here.
    + intros [Hw _]. simpl in Hw. lia.
Defined.

(** X23.  In evaluation mode, on sequences for which [forward] returns, with
    one length per sequence and test items that are rows of the embedding
    table, [predict] raises [RuntimeError] when the number of test items is
    not the number of sequences. *)
Theorem predict_needs_one_item_per_sequence m interaction xy :
  training m = false ->
  length (ITEM_SEQ_LEN interaction) = length (ITEM_SEQ interaction) ->
  forward m (ITEM_SEQ interaction) (ITEM_SEQ_LEN interaction) = Ok xy ->
  Forall (fun i => (0 <= i < Z.of_nat (length (item_embedding m)))%Z) (ITEM_ID interaction) ->
  length (ITEM_ID interaction) <> length (ITEM_SEQ interaction) ->
  predict m interaction = Raise RuntimeError.
Proof.
  intros Heval Hlens Hfwd Hids Hne. destruct xy as [x y].
  destruct (forward_length _ _ _ _ _ Heval Hfwd) as [Hx Hy].
  unfold predict. cbv zeta.
  destruct (traverse _ (ITEM_SEQ interaction)) as [e | err] eqn:He; simpl.
  2: { unfold forward in Hfwd. by rewrite He in Hfwd. }
  destruct (gather_indexes e _) as [last_item_emb | err] eqn:Hlast; simpl.
  2: { by rewrite (gather_indexes_Raise _ _ _ Hlast). }
  rewrite Hfwd. simpl.
  destruct (traverse_embedding_total _ _ Hids) as [T HT]. rewrite HT. simpl.
  rewrite cal_final_candidates_mismatch; [done |].
  rewrite length_fmap, (traverse_length _ _ _ HT). lia.
Qed.

Lemma predict_needs_one_item_per_sequence_witness :
  exists m, tiny_model = Ok m /\
    predict m {| ITEM_SEQ := [[1%Z]]; ITEM_SEQ_LEN := [1%Z]; ITEM_ID := [1%Z; 1%Z] |}
    = Raise RuntimeError.
Proof.
  eexists. split; [reflexivity |].
  eapply predict_needs_one_item_per_sequence; try reflexivity.
  - constructor; [simpl; lia |]. constructor; [simpl; lia | constructor].
  - simpl. lia.
Defined.

(** *** Shapes of the score tensors *)

(** X15.  In evaluation mode, on a batch with one length per sequence, the
    matrix that [full_sort_predict] returns has one row per sequence and one
    column per row of the embedding table; what [predict] returns, given one
    test item per sequence, has one row per sequence and a single column (it
    is of shape [B, 1], not [B]). *)
Theorem score_shapes m interaction :
  training m = false ->
  length (ITEM_SEQ_LEN interaction) = length (ITEM_SEQ interaction) ->
  (forall F, full_sort_predict m interaction = Ok F ->
     shape2 (length (ITEM_SEQ interaction)) (length (item_embedding m)) F) /\
  (forall P, length (ITEM_ID interaction) = length (ITEM_SEQ interaction) ->
     predict m interaction = Ok P ->
     shape2 (length (ITEM_SEQ interaction)) 1 P).
Proof.
  intros Heval Hlens. split.
  - intros F. unfold full_sort_predict. cbv zeta.
    destruct (traverse _ (ITEM_SEQ interaction)) as [e |] eqn:He; simpl; [| done].
    destruct (gather_indexes e _) as [last_item_emb |] eqn:Hlast; simpl; [| done].
    destruct (forward m _ _) as [[x y] |] eqn:Hfwd; simpl; [| done].
    intros (out & Hcf & Hsf)%bind_Ok.
    destruct (forward_length _ _ _ _ _ Heval Hfwd) as [Hx Hy].
    pose proof (gather_indexes_length _ _ _ Hlast) as Hl. rewrite length_fmap in Hl.
    assert (Hrect : Forall (fun cs : mat => length cs
                              = size1 (replicate (length x) (item_embedding m)))
                      (replicate (length x) (item_embedding m))).
    { apply size1_rows with (n := length (item_embedding m)).
      apply Forall_forall. intros cs Hcs. apply elem_of_replicate in Hcs as [-> _]. done. }
    apply cal_final_Ok_iff in Hcf as [_ ->];
      rewrite ?length_replicate; try done; try lia.
    apply scores_of_fused_Ok_iff in Hsf as [_ ->];
      rewrite ?length_replicate; try done; try lia.
    split.
    + rewrite scored_length; rewrite ?length_replicate; lia.
    + apply Forall_lookup_2. intros b row Hrow.
      pose proof (lookup_lt_Some _ _ _ Hrow) as Hb.
      rewrite scored_length, length_replicate in Hb by (rewrite ?length_replicate; lia).
      destruct (lookup_lt_is_Some_2 x b) as [xb Hxb]; [lia |].
      destruct (lookup_lt_is_Some_2 y b) as [yb Hyb]; [lia |].
      destruct (lookup_lt_is_Some_2 last_item_emb b) as [lb Hlb]; [lia |].
      rewrite (scored_lookup m x y last_item_emb _ b xb yb lb (item_embedding m)) in Hrow;
        try done; [| apply lookup_replicate_2; lia].
      injection Hrow as <-. by rewrite length_fmap.
  - intros P Hids. unfold predict. cbv zeta.
    destruct (traverse _ (ITEM_SEQ interaction)) as [e |] eqn:He; simpl; [| done].
    destruct (gather_indexes e _) as [last_item_emb |] eqn:Hlast; simpl; [| done].
    destruct (forward m _ _) as [[x y] |] eqn:Hfwd; simpl; [| done].
    destruct (traverse (embedding (item_embedding m)) (ITEM_ID interaction))
      as [T |] eqn:HT; simpl; [| done].
    intros (out & Hcf & Hsf)%bind_Ok.
    destruct (forward_length _ _ _ _ _ Heval Hfwd) as [Hx Hy].
    pose proof (gather_indexes_length _ _ _ Hlast) as Hl. rewrite length_fmap in Hl.
    pose proof (traverse_length _ _ _ HT) as HTlen.
    assert (Hrect : Forall (fun cs : mat => length cs
                              = size1 ((fun row : vec => [row]) <$> T))
                      ((fun row : vec => [row]) <$> T)).
    { apply size1_rows with (n := 1%nat). apply Forall_fmap, Forall_true. done. }
    apply cal_final_Ok_iff in Hcf as [_ ->]; rewrite ?length_fmap; try done; try lia.
    apply scores_of_fused_Ok_iff in Hsf as [_ ->]; rewrite ?length_fmap; try done; try lia.
    split.
    + rewrite scored_length; rewrite ?length_fmap; lia.
    + apply Forall_lookup_2. intros b row Hrow.
      pose proof (lookup_lt_Some _ _ _ Hrow) as Hb.
      rewrite scored_length, length_fmap in Hb by (rewrite ?length_fmap; lia).
      destruct (lookup_lt_is_Some_2 x b) as [xb Hxb]; [lia |].
      destruct (lookup_lt_is_Some_2 y b) as [yb Hyb]; [lia |].
      destruct (lookup_lt_is_Some_2 last_item_emb b) as [lb Hlb]; [lia |].
      destruct (lookup_lt_is_Some_2 T b) as [Tb HTb]; [lia |].
      rewrite (scored_lookup m x y last_item_emb _ b xb yb lb [Tb]) in Hrow;
        try done; [| by rewrite list_lookup_fmap, HTb].
      by injection Hrow as <-.
Qed.

Lemma score_shapes_witness :
  exists m, tiny_model = Ok m /\
  (forall F, full_sort_predict m tiny_batch = Ok F ->
     shape2 (length (ITEM_SEQ tiny_batch)) (length (item_embedding m)) F) /\
  (forall P, length (ITEM_ID tiny_batch) = length (ITEM_SEQ tiny_batch) ->
     predict m tiny_batch = Ok P ->
     shape2 (length (ITEM_SEQ tiny_batch)) 1 P).
Proof.
  eexists. split; [reflexivity |].
  apply score_shapes; reflexivity.
Defined.

(** *** Lookups that fail *)

Lemma embedding_cases (weight : mat) (i : Z) :
  (exists row, embedding weight i = Ok row /\ (0 <= i < Z.of_nat (length weight))%Z) \/
  (embedding weight i = Raise IndexError /\
   (i < 0 \/ Z.of_nat (length weight) <= i)%Z).
Proof.
  unfold embedding. case_decide as Hi; [| right; split; [done | lia]].
  destruct (weight !! Z.to_nat i) as [row |] eqn:Hrow.
  - left. exists row. split; [done |]. apply lookup_lt_Some in Hrow. lia.
  - right. split; [done |]. apply lookup_ge_None in Hrow. lia.
Qed.

Lemma traverse_embedding_cases (weight : mat) (ids : list Z) :
  (exists rows, traverse (embedding weight) ids = Ok rows /\
     Forall (fun i => (0 <= i < Z.of_nat (length weight))%Z) ids) \/
  (traverse (embedding weight) ids = Raise IndexError /\
   Exists (fun i => (i < 0 \/ Z.of_nat (length weight) <= i)%Z) ids).
Proof.
  induction ids as [| i ids IH]; simpl.
  - left. by exists [].
  - destruct (embedding_cases weight i) as [(row & -> & Hi) | [-> Hi]]; simpl.
    + destruct IH as [(rows & -> & Hall) | [-> Hex]]; simpl.
      * left. exists (row :: rows). split; [done |]. by constructor.
      * right. split; [done |]. by right.
    + right. split; [done |]. by left.
Qed.

Lemma traverse2_embedding_cases (weight : mat) (ids : list (list Z)) :
  (exists rows, traverse (traverse (embedding weight)) ids = Ok rows /\
     Forall (Forall (fun i => (0 <= i < Z.of_nat (length weight))%Z)) ids) \/
  (traverse (traverse (embedding weight)) ids = Raise IndexError /\
   Exists (Exists (fun i => (i < 0 \/ Z.of_nat (length weight) <= i)%Z)) ids).
Proof.
  induction ids as [| row ids IH]; simpl.
  - left. by exists [].
  - destruct (traverse_embedding_cases weight row) as [(r & -> & Hr) | [-> Hr]]; simpl.
    + destruct IH as [(rows & -> & Hall) | [-> Hex]]; simpl.
      * left. exists (r :: rows). split; [done |]. by constructor.
      * right. split; [done |]. by right.
    + right. split; [done |]. by left.
Qed.

Lemma traverse2_embedding_Raise (weight : mat) (ids : list (list Z)) :
  Exists (Exists (fun i => (i < 0 \/ Z.of_nat (length weight) <= i)%Z)) ids ->
  traverse (traverse (embedding weight)) ids = Raise IndexError.
Proof.
  intros Hex.
  destruct (traverse2_embedding_cases weight ids) as [(rows & _ & Hall) | [-> _]]; [| done].
  exfalso. induction Hex as [row ids Hrow | row ids _ IH].
  - apply Forall_cons in Hall as [Hall _].
    induction Hrow as [i l Hi | i l _ IH'].
    + apply Forall_cons in Hall as [? _]. lia.
    + apply Forall_cons in Hall as [_ ?]. by apply IH'.
  - apply Forall_cons in Hall as [_ ?]. by apply IH.
Qed.

(** X16.  A sequence that holds an id outside the embedding table (negative,
    or not below the number of its rows) makes every entry point raise
    [IndexError] before anything is scored: [forward], [predict],
    [full_sort_predict] and [calculate_loss]. *)
Theorem unknown_item_id_raises m interaction :
  Exists (Exists (fun i => (i < 0 \/ Z.of_nat (length (item_embedding m)) <= i)%Z))
    (ITEM_SEQ interaction) ->
  forward m (ITEM_SEQ interaction) (ITEM_SEQ_LEN interaction) = Raise IndexError /\
  predict m interaction = Raise IndexError /\
  full_sort_predict m interaction = Raise IndexError /\
  forall lm pos_items neg_items,
    calculate_loss lm m
      {| sequences := interaction; POS_ITEM_ID := pos_items; NEG_ITEM_ID := neg_items |}
    = Raise IndexError.
Proof.
  intros Hbad%traverse2_embedding_Raise.
  assert (Hfwd : forward m (ITEM_SEQ interaction) (ITEM_SEQ_LEN interaction)
                 = Raise IndexError).
  { unfold forward. by rewrite Hbad. }
  split; [done |]. split; [| split].
  - unfold predict. cbv zeta. by rewrite Hbad.
  - unfold full_sort_predict. cbv zeta. by rewrite Hbad.
  - intros lm pos_items neg_items. unfold calculate_loss. cbv zeta. simpl.
    by rewrite Hfwd.
Qed.

Lemma unknown_item_id_raises_witness :
  exists m, tiny_model = Ok m /\
  forward m (ITEM_SEQ unknown_item_batch) (ITEM_SEQ_LEN unknown_item_batch)
  = Raise IndexError /\
  predict m unknown_item_batch = Raise IndexError /\
  full_sort_predict m unknown_item_batch = Raise IndexError /\
  forall lm pos_items neg_items,
    calculate_loss lm m
      {| sequences := unknown_item_batch; POS_ITEM_ID := pos_items;
         NEG_ITEM_ID := neg_items |}
    = Raise IndexError.
Proof.
  eexists. split; [reflexivity |].
  apply unknown_item_id_raises.
  simpl. left. left. right. simpl. lia.
Defined.

(** X17.  With every item id in the table, a batch (not empty) whose
    sequences have more positions than the position table has rows makes
    [forward] raise [IndexError]: positions [0..L-1] are looked up for every
    sequence, whatever its true length. *)
Theorem too_long_sequence_raises m item_seq item_seq_len :
  Forall (Forall (fun i => (0 <= i < Z.of_nat (length (item_embedding m)))%Z)) item_seq ->
  item_seq <> [] ->
  (length (position_embedding m) < size1 item_seq)%nat ->
  forward m item_seq item_seq_len = Raise IndexError.
Proof.
  intros Hids Hne Hlong. unfold forward.
  destruct (traverse2_embedding_total _ _ Hids) as (item_emb & -> & _). simpl.
  rewrite traverse2_embedding_Raise; [done |].
  destruct item_seq as [| row rest]; [done |].
  rewrite fmap_cons. left.
  apply Exists_exists. exists (Z.of_nat (length (position_embedding m))). split.
  - apply list_elem_of_fmap. exists (length (position_embedding m)). split; [done |].
    apply elem_of_seq. simpl in *. lia.
  - lia.
Qed.

Lemma too_long_sequence_raises_witness :
  exists m, tiny_model = Ok m /\
    forward m [[1; 1; 0]%Z] [2%Z] = Raise IndexError.
Proof.
  eexists. split; [reflexivity |].
  apply too_long_sequence_raises.
  - constructor; [| constructor].
    constructor; [simpl; lia |]. constructor; [simpl; lia |].
    constructor; [simpl; lia | constructor].
  - done.
  - simpl. lia.
Defined.

(** *** Training scores *)

(** X18.  With a loss type other than "BPR" (listwise training),
    [calculate_loss] hands to the loss module, with the positive items as
    targets, exactly the score matrix that [full_sort_predict] returns for the
    same sequences in the same (evaluation) mode; and when [calculate_loss]
    returns, so does [full_sort_predict]. *)
Theorem listwise_loss_scores_the_catalog lm m interaction :
  training m = false ->
  self_loss_type m <> "BPR" ->
  (forall F, full_sort_predict m (sequences interaction) = Ok F ->
     calculate_loss lm m interaction
     = call_on_targets lm (loss_fct m) F (POS_ITEM_ID interaction)) /\
  (forall v, calculate_loss lm m interaction = Ok v ->
     exists F, full_sort_predict m (sequences interaction) = Ok F /\
       call_on_targets lm (loss_fct m) F (POS_ITEM_ID interaction) = Ok v).
Proof.
  intros _ Hce. unfold calculate_loss, full_sort_predict. cbv zeta. split.
  - intros F.
    destruct (traverse _ (ITEM_SEQ (sequences interaction))) as [e |]; simpl; [| done].
    destruct (gather_indexes e _) as [last_item_emb |]; simpl; [| done].
    destruct (forward m _ _) as [[x y] |]; simpl; [| done].
    intros (out & Hcf & Hsf)%bind_Ok. rewrite decide_False by done.
    rewrite Hcf. simpl. rewrite Hsf. done.
  - intros v.
    destruct (forward m _ _) as [[x y] |]; simpl; [| done].
    destruct (traverse _ (ITEM_SEQ (sequences interaction))) as [e |]; simpl; [| done].
    destruct (gather_indexes e _) as [last_item_emb |]; simpl; [| done].
    rewrite decide_False by done.
    intros (out & Hcf & (logits & Hsf & Hv)%bind_Ok)%bind_Ok.
    exists logits. rewrite Hcf. simpl. by rewrite Hsf.
Qed.

Lemma listwise_loss_scores_the_catalog_witness :
  exists m0, init tiny_externals (tiny_config "CE") = Ok m0 /\
  (forall F, full_sort_predict (set_training m0 false) (sequences tiny_training_batch) = Ok F ->
     calculate_loss probe_losses (set_training m0 false) tiny_training_batch
     = call_on_targets probe_losses (loss_fct (set_training m0 false)) F
         (POS_ITEM_ID tiny_training_batch)) /\
  (forall v, calculate_loss probe_losses (set_training m0 false) tiny_training_batch = Ok v ->
     exists F, full_sort_predict (set_training m0 false) (sequences tiny_training_batch) = Ok F /\
       call_on_targets probe_losses (loss_fct (set_training m0 false)) F
         (POS_ITEM_ID tiny_training_batch) = Ok v).
Proof.
  eexists. split; [reflexivity |].
  apply listwise_loss_scores_the_catalog; [reflexivity |]. simpl. discriminate.
Defined.

(** X19.  With loss type "BPR" (pairwise training), [calculate_loss] hands to
    the loss module exactly the scores that [predict] returns, in the same
    (evaluation) mode, for the same sequences with the positive items as test
    items, and with the negative items as test items. *)
Theorem pairwise_loss_scores_like_predict lm m interaction (P N : mat) :
  training m = false ->
  self_loss_type m = "BPR" ->
  predict m (with_item_id (sequences interaction) (POS_ITEM_ID interaction)) = Ok P ->
  predict m (with_item_id (sequences interaction) (NEG_ITEM_ID interaction)) = Ok N ->
  calculate_loss lm m interaction = call_on_scores lm (loss_fct m) P N.
Proof.
  intros _ Hbpr. unfold calculate_loss, predict. cbv zeta. simpl.
  destruct (traverse _ (ITEM_SEQ (sequences interaction))) as [e |]; simpl; [| done].
  destruct (gather_indexes e _) as [last_item_emb |]; simpl; [| done].
  destruct (forward m _ _) as [[x y] |]; simpl; [| done].
  rewrite decide_True by done.
  destruct (traverse (embedding (item_embedding m)) (POS_ITEM_ID interaction))
    as [pos |]; simpl; [| done].
  destruct (traverse (embedding (item_embedding m)) (NEG_ITEM_ID interaction))
    as [neg |]; simpl; [| done].
  intros (out_p & Hcp & Hsp)%bind_Ok (out_n & Hcn & Hsn)%bind_Ok.
  rewrite Hcp. simpl. rewrite Hcn. simpl. rewrite Hsp. simpl. by rewrite Hsn.
Qed.

Lemma pairwise_loss_scores_like_predict_witness :
  exists m (P N : mat), tiny_model = Ok m /\
    predict m (with_item_id (sequences tiny_training_batch)
                 (POS_ITEM_ID tiny_training_batch)) = Ok P /\
    predict m (with_item_id (sequences tiny_training_batch)
                 (NEG_ITEM_ID tiny_training_batch)) = Ok N /\
    calculate_loss probe_losses m tiny_training_batch
    = call_on_scores probe_losses (loss_fct m) P N.
Proof.
  eexists. eexists. eexists. split; [reflexivity |].
  split; [reflexivity |]. split; [reflexivity |].
  apply pairwise_loss_scores_like_predict; reflexivity.
Defined.

(** *** The item-similarity branch *)

Lemma foldr_swap_Permutation {A B} (f : A -> B -> B) (b : B) (l1 l2 : list A) :
  (forall a1 a2 b', f a1 (f a2 b') = f a2 (f a1 b')) ->
  l1 ≡ₚ l2 -> foldr f b l1 = foldr f b l2.
Proof.
  intros Hf. induction 1 as [| a l1 l2 _ IH | a1 a2 l | l1 l2 l3 _ IH1 _ IH2]; simpl.
  - done.
  - by rewrite IH.
  - apply Hf.
  - by rewrite IH1.
Qed.

Lemma sum_Permutation (u v : vec) : u ≡ₚ v -> sum u = sum v.
Proof. apply foldr_swap_Permutation. intros. lra. Qed.

Lemma vadd_swap (u v w : vec) : vadd u (vadd v w) = vadd v (vadd u w).
Proof.
  unfold vadd. revert v w.
  induction u as [| a u IH]; intros [| b v] [| c w]; simpl; try done.
  f_equal; [lra | apply IH].
Qed.

Lemma sum_pos (v : vec) : v <> [] -> Forall (fun w => 0 < w) v -> 0 < sum v.
Proof.
  intros Hne Hall. destruct v as [| a v]; [done |].
  apply Forall_cons in Hall as [Ha Hall]. simpl.
  assert (0 <= sum v); [| lra].
  clear Ha Hne. induction Hall as [| b v Hb _ IH]; simpl; lra.
Qed.

Lemma sum_scale (c : R) (v : vec) : sum ((fun w => w / c) <$> v) = sum v / c.
Proof.
  unfold Rdiv, sum. induction v as [| a v IH]; [simpl; lra |].
  rewrite fmap_cons. cbn [foldr]. rewrite IH. lra.
Qed.

Lemma softmax_length (v : vec) : length (softmax v) = length v.
Proof. unfold softmax. by rewrite !length_fmap. Qed.

Lemma softmax_pos (v : vec) : Forall (fun w => 0 < w) (softmax v).
Proof.
  destruct (decide (v = [])) as [-> | Hne]; [constructor |].
  assert (Hexp : Forall (fun w => 0 < w) (exp <$> v)).
  { apply Forall_fmap, Forall_forall. intros z _. apply exp_pos. }
  assert (Hsum : 0 < sum (exp <$> v)).
  { apply sum_pos; [| done]. by destruct v. }
  unfold softmax. cbv zeta. apply Forall_fmap. eapply Forall_impl; [done |].
  simpl. intros w Hw. by apply Rdiv_lt_0_compat.
Qed.

Lemma softmax_sum (v : vec) : v <> [] -> sum (softmax v) = 1.
Proof.
  intros Hne. unfold softmax. cbv zeta. rewrite sum_scale.
  assert (Hsum : 0 < sum (exp <$> v)).
  { apply sum_pos; [by destruct v |].
    apply Forall_fmap, Forall_forall. intros z _. apply exp_pos. }
  field. lra.
Qed.

(** The summary as one sum over the positions. *)
Lemma similarity_summary_fold m (es : mat) :
  similarity_summary m es
  = foldr (fun e acc =>
             vadd (vmul (replicate (D m)
                           (exp (dot (vecmat (D m) e (w1 m)) (q_s m))
                            / sum ((fun e' => exp (dot (vecmat (D m) e' (w1 m)) (q_s m)))
                                     <$> es)))
                     (vecmat (D m) e (w2 m))) acc)
      (replicate (D m) 0) es.
Proof.
  unfold similarity_summary, similarity_weights, softmax. cbv zeta.
  rewrite <- !list_fmap_compose.
  rewrite zip_with_fmap_l, zip_with_fmap_r, zip_with_diag.
  by rewrite foldr_fmap.
Qed.

Lemma similarity_summary_Permutation m (es es' : mat) :
  es ≡ₚ es' -> similarity_summary m es = similarity_summary m es'.
Proof.
  intros Hperm. rewrite !similarity_summary_fold.
  assert (Hsum : sum ((fun e' => exp (dot (vecmat (D m) e' (w1 m)) (q_s m))) <$> es)
               = sum ((fun e' => exp (dot (vecmat (D m) e' (w1 m)) (q_s m))) <$> es')).
  { apply sum_Permutation. by rewrite Hperm. }
  rewrite Hsum. apply foldr_swap_Permutation; [| done].
  intros a1 a2 b'. apply vadd_swap.
Qed.

Lemma forward_similarity m item_seq item_seq_len (x_l y : mat) :
  training m = false ->
  forward m item_seq item_seq_len = Ok (x_l, y) ->
  exists item_emb : tensor3,
    traverse (traverse (embedding (item_embedding m))) item_seq = Ok item_emb /\
    y = similarity_summary m <$> item_emb.
Proof.
  intros Heval. unfold forward, d1. rewrite Heval.
  destruct (traverse (traverse (embedding (item_embedding m))) item_seq)
    as [item_emb |]; simpl; [| done].
  destruct (traverse (traverse (embedding (position_embedding m))) _)
    as [position_emb |]; simpl; [| done].
  destruct (last (trm_encoder m _ _)) as [layer |]; simpl; [| done].
  destruct (gather_indexes layer _) as [g |]; simpl; [| done].
  intros [= _ <-]. exists item_emb. split; [done |].
  rewrite <- !list_fmap_compose.
  rewrite zip_with_fmap_l, zip_with_fmap_r, zip_with_diag, <- list_fmap_compose.
  apply list_fmap_ext. intros i es _. simpl.
  unfold similarity_summary, similarity_weights. by rewrite <- !list_fmap_compose.
Qed.

Lemma traverse_embedding_fmap (weight : mat) (ids : list Z) (es : mat) :
  traverse (embedding weight) ids = Ok es ->
  es = (fun i => default [] (weight !! Z.to_nat i)) <$> ids.
Proof.
  intros H%traverse_Ok. induction H as [| i e ids es Hi _ IH]; [done |].
  rewrite fmap_cons, <- IH. apply embedding_Ok in Hi as [_ ->]. done.
Qed.

(** X20.  In evaluation mode the item-similarity output [y] of [forward] does
    not depend on the order of the items in a sequence: two batches whose
    sequences are permutations of one another, with any lengths, get the same
    [y] (while [x_l] may differ).  Arithmetic is over the reals. *)
Theorem similarity_branch_ignores_order m item_seq item_seq' item_seq_len item_seq_len'
    (x_l y x_l' y' : mat) :
  training m = false ->
  Forall2 (≡ₚ) item_seq item_seq' ->
  forward m item_seq item_seq_len = Ok (x_l, y) ->
  forward m item_seq' item_seq_len' = Ok (x_l', y') ->
  y = y'.
Proof.
  intros Heval Hperm (e & He & ->)%forward_similarity (e' & He' & ->)%forward_similarity;
    try done.
  apply traverse_Ok in He, He'.
  apply list_eq. intros b. rewrite !list_lookup_fmap.
  destruct (item_seq !! b) as [ids |] eqn:Hids.
  - destruct (Forall2_lookup_l _ _ _ _ _ Hperm Hids) as (ids' & Hids' & Hp).
    destruct (Forall2_lookup_l _ _ _ _ _ He Hids) as (es & -> & Hes).
    destruct (Forall2_lookup_l _ _ _ _ _ He' Hids') as (es' & -> & Hes').
    simpl. f_equal. apply similarity_summary_Permutation.
    rewrite (traverse_embedding_fmap _ _ _ Hes), (traverse_embedding_fmap _ _ _ Hes').
    by rewrite Hp.
  - pose proof (Forall2_length _ _ _ He) as L1.
    pose proof (Forall2_length _ _ _ He') as L2.
    pose proof (Forall2_length _ _ _ Hperm) as L3.
    apply lookup_ge_None in Hids.
    rewrite (proj2 (lookup_ge_None e b)) by lia.
    by rewrite (proj2 (lookup_ge_None e' b)) by lia.
Qed.

Lemma similarity_branch_ignores_order_witness :
  exists m (x_l y x_l' y' : mat), tiny_model = Ok m /\
    forward m [[1; 0]%Z] [2%Z] = Ok (x_l, y) /\
    forward m [[0; 1]%Z] [1%Z] = Ok (x_l', y') /\
    y = y'.
Proof.
  do 5 eexists. split; [reflexivity |].
  match goal with |- forward ?m _ _ = _ /\ _ => pose (m0 := m) end.
  split; [reflexivity |]. split; [reflexivity |].
  eapply (similarity_branch_ignores_order m0 [[1; 0]%Z] [[0; 1]%Z] [2%Z] [1%Z]).
  - reflexivity.
  - constructor; [apply perm_swap | constructor].
  - reflexivity.
  - reflexivity.
Defined.

(** X21.  In evaluation mode, [y] for a sequence is the sum over its positions
    of the projected item embeddings weighted by a softmax: there is one
    weight per position, every weight is strictly positive, padding positions
    included (nothing is masked in this branch), and for a sequence that is
    not empty the weights sum to one.  Arithmetic is over the reals. *)
Theorem similarity_weights_cover_padding m item_seq item_seq_len (x_l y : mat) b ids :
  training m = false ->
  forward m item_seq item_seq_len = Ok (x_l, y) ->
  item_seq !! b = Some ids ->
  exists es : mat,
    traverse (embedding (item_embedding m)) ids = Ok es /\
    y !! b = Some (similarity_summary m es) /\
    length (similarity_weights m es) = length ids /\
    Forall (fun w => 0 < w) (similarity_weights m es) /\
    (ids <> [] -> sum (similarity_weights m es) = 1).
Proof.
  intros Heval (e & He & ->)%forward_similarity Hids; [| done].
  apply traverse_Ok in He.
  destruct (Forall2_lookup_l _ _ _ _ _ He Hids) as (es & Hes & Htr).
  exists es. split; [done |]. split; [by rewrite list_lookup_fmap, Hes |].
  pose proof (traverse_length _ _ _ Htr) as Hlen.
  unfold similarity_weights. split; [| split].
  - by rewrite softmax_length, !length_fmap.
  - apply softmax_pos.
  - intros Hne. apply softmax_sum. destruct es; [by destruct ids | done].
Qed.

Lemma similarity_weights_cover_padding_witness :
  exists m (x_l y : mat), tiny_model = Ok m /\
    forward m [[1; 0]%Z] [1%Z] = Ok (x_l, y) /\
  exists es : mat,
    traverse (embedding (item_embedding m)) [1; 0]%Z = Ok es /\
    y !! 0%nat = Some (similarity_summary m es) /\
    length (similarity_weights m es) = length [1; 0]%Z /\
    Forall (fun w => 0 < w) (similarity_weights m es) /\
    ([1; 0]%Z <> [] -> sum (similarity_weights m es) = 1).
Proof.
  do 3 eexists. split; [reflexivity |]. split; [reflexivity |].
  eapply (similarity_weights_cover_padding _ [[1; 0]%Z] [1%Z]); reflexivity.
Defined.

End FissaExtras.

End FISSASpec.

